(** * Estimator: sheet nesting (optimize.js) and oversize splitting (estimate.js)

    A shallow embedding of the two algorithmic layers of the repository:

    - [Optimize]: [Rectangle], [Sheet] with its free-rectangle bookkeeping
      ([updateFreeRects], [removeDuplicateRects], [findBestPosition]) and
      the first-fit-decreasing driver [nestParts];
    - [Estimate]: [partFitsStock], [calcStripLayout], [calcGridLayout] and
      [fitOrSplit].

    JavaScript numbers are embedded as rationals ([Q]), in two runs of
    the code:

    - the exact run ([Optimize], [Estimate], [EstimateCalc]): sums,
      differences, products and quotients are the rational ones.  It
      carries what the code decides by comparing its inputs and computed
      values, its counts and the structure of its results, and the
      algebraic identities of the splitter;
    - the double-precision run ([Rounded], over [Binary64]): every
      operation of the nesting is rounded to the nearest double.  It
      carries the geometric bounds of the nesting, which rounding breaks
      on dimensions such as 0.56 or 4.24, and the order of the sort.  On
      dimensions that are multiples of a power of two within range the
      two runs coincide (lemma [RoundedFacts.nestParts_same]).

    Integer counters (strip, column and row counts) are [Z]; list
    positions and quantities are [nat].  Rational division is total in
    Rocq ([x / 0 == 0]); the source divides only by piece counts, which
    are at least 1 whenever the dimension being split is positive (lemma
    [EstimateFacts.initial_count_pos]).  Equality of rationals is [Qeq]
    ([==]). *)

From Stdlib Require Import QArith Qround Qminmax Qabs Qpower Lqa.
From Stdlib Require Import ZArith Znumtheory Lia List Bool.
From Stdlib Require Import Ascii String DecimalString Permutation Sorted.
Import ListNotations.

Local Open Scope Q_scope.

(** ** Comparisons of the source on rationals *)

(** [a <= b] *)
Definition Qleb (a b : Q) : bool := Qle_bool a b.

(** [a < b] *)
Definition Qltb (a b : Q) : bool := negb (Qle_bool b a).

(** ** optimize.js *)

Module Optimize.

(** An entry of the [parts] array handed to [nestParts]. *)
Record Part := mkPart {
  part_name : string;
  part_qty : nat;
  part_w : Q;
  part_l : Q;
  part_category : option string;
  part_sourceItemId : option string;
  part_sourceItemName : option string
}.

(** [function Rectangle(w, h, id, name, category, sourceItemId,
    sourceItemName)] *)
Record Rectangle := mkRectangle {
  rect_w : Q;
  rect_h : Q;
  rect_id : nat;
  rect_name : string;
  rect_category : string;
  rect_sourceItemId : option string;
  rect_sourceItemName : option string
}.

(** [v || d] on an optional string: [undefined] and the empty string are
    falsy. *)
Definition orElse (v : option string) (d : string) : string :=
  match v with
  | Some EmptyString => d
  | Some s => s
  | None => d
  end.

(** [v || null] *)
Definition orNull (v : option string) : option string :=
  match v with
  | Some EmptyString => None
  | other => other
  end.

Definition newRectangle (w h : Q) (id : nat) (name : string)
    (category sourceItemId sourceItemName : option string) : Rectangle :=
  {| rect_w := w; rect_h := h; rect_id := id; rect_name := name;
     rect_category := orElse category "panel";
     rect_sourceItemId := orNull sourceItemId;
     rect_sourceItemName := orNull sourceItemName |}.

(** An element of [freeRects]: [{ x, y, w, h }]. *)
Record FreeRect := mkFree {
  fx : Q;
  fy : Q;
  fw : Q;
  fh : Q
}.

(** An element of [placements]: [{ rect, x, y, w, h, rotated }]. *)
Record Placement := mkPlacement {
  p_rect : Rectangle;
  p_x : Q;
  p_y : Q;
  p_w : Q;
  p_h : Q;
  p_rotated : bool
}.

Record Sheet := mkSheet {
  s_w : Q;
  s_h : Q;
  s_index : nat;
  s_kerf : Q;
  placements : list Placement;
  freeRects : list FreeRect
}.

(** [function Sheet(w, h, index, kerf)]; [kerf || 0] is [kerf] for every
    rational. *)
Definition newSheet (w h : Q) (index : nat) (kerf : Q) : Sheet :=
  {| s_w := w; s_h := h; s_index := index; s_kerf := kerf;
     placements := [];
     freeRects := [ {| fx := 0; fy := 0; fw := w; fh := h |} ] |}.

(** The containment test of [removeDuplicateRects]: [r] lies within [o]. *)
Definition containedIn (r o : FreeRect) : bool :=
  Qleb (fx o) (fx r) && Qleb (fy o) (fy r) &&
  Qleb (fx r + fw r) (fx o + fw o) && Qleb (fy r + fh r) (fy o + fh o).

(** The inner loop over [j]: is [r = rects[i]] contained in some
    [rects[j]], [j <> i]?  [os] is the part of [rects] from position [j]. *)
Fixpoint containedInOther (i : nat) (r : FreeRect) (j : nat)
    (os : list FreeRect) : bool :=
  match os with
  | [] => false
  | o :: os' =>
      if Nat.eqb i j then containedInOther i r (S j) os'
      else if containedIn r o then true
      else containedInOther i r (S j) os'
  end.

(** The outer loop over [i]; [rest] is the part of [rects] from position
    [i]. *)
Fixpoint removeDuplicateRectsFrom (rects : list FreeRect) (i : nat)
    (rest : list FreeRect) : list FreeRect :=
  match rest with
  | [] => []
  | r :: rest' =>
      let contained := containedInOther i r 0 rects in
      if negb contained && Qltb 0 (fw r) && Qltb 0 (fh r)
      then r :: removeDuplicateRectsFrom rects (S i) rest'
      else removeDuplicateRectsFrom rects (S i) rest'
  end.

Definition removeDuplicateRects (rects : list FreeRect) : list FreeRect :=
  removeDuplicateRectsFrom rects 0 rects.

(** The body of the loop of [updateFreeRects] for one free rectangle [f]:
    what it pushes onto [newFree]. *)
Definition splitFree (occX occY occW occH : Q) (f : FreeRect)
    : list FreeRect :=
  if Qleb (fx f + fw f) occX || Qleb (occX + occW) (fx f) ||
     Qleb (fy f + fh f) occY || Qleb (occY + occH) (fy f)
  then [f]
  else
    (if Qltb (fx f) occX
     then [ {| fx := fx f; fy := fy f; fw := occX - fx f; fh := fh f |} ]
     else []) ++
    (if Qltb (occX + occW) (fx f + fw f)
     then [ {| fx := occX + occW; fy := fy f;
               fw := (fx f + fw f) - (occX + occW); fh := fh f |} ]
     else []) ++
    (if Qltb (fy f) occY
     then [ {| fx := fx f; fy := fy f; fw := fw f; fh := occY - fy f |} ]
     else []) ++
    (if Qltb (occY + occH) (fy f + fh f)
     then [ {| fx := fx f; fy := occY + occH; fw := fw f;
               fh := (fy f + fh f) - (occY + occH) |} ]
     else []).

Definition withFreeRects (s : Sheet) (fs : list FreeRect) : Sheet :=
  {| s_w := s_w s; s_h := s_h s; s_index := s_index s; s_kerf := s_kerf s;
     placements := placements s; freeRects := fs |}.

Definition updateFreeRects (s : Sheet) (placement : Placement) : Sheet :=
  let kerf := s_kerf s in
  let occX := p_x placement in
  let occY := p_y placement in
  let occW := p_w placement + kerf in
  let occH := p_h placement + kerf in
  let newFree := flat_map (splitFree occX occY occW occH) (freeRects s) in
  withFreeRects s (removeDuplicateRects newFree).

(** [addPlacement] pushes the placement and updates the free rectangles;
    the embedding returns the sheet after the call. *)
Definition makePlacement (rect : Rectangle) (x y : Q) (rotated : bool)
    : Placement :=
  {| p_rect := rect; p_x := x; p_y := y;
     p_w := if rotated then rect_h rect else rect_w rect;
     p_h := if rotated then rect_w rect else rect_h rect;
     p_rotated := rotated |}.

Definition addPlacement (s : Sheet) (rect : Rectangle) (x y : Q)
    (rotated : bool) : Sheet :=
  let p := makePlacement rect x y rotated in
  let s1 := {| s_w := s_w s; s_h := s_h s; s_index := s_index s;
               s_kerf := s_kerf s; placements := placements s ++ [p];
               freeRects := freeRects s |} in
  updateFreeRects s1 p.

(** The value returned by [findBestPosition]: [{ x, y, rotated }]. *)
Record Position := mkPosition {
  pos_x : Q;
  pos_y : Q;
  pos_rotated : bool
}.

(** [score < bestScore], where [None] stands for [Infinity]. *)
Definition scoreBelow (score : Q) (bestScore : option Q) : bool :=
  match bestScore with
  | None => true
  | Some b => Qltb score b
  end.

(** One iteration of the loop of [findBestPosition], on the loop state
    [(best, bestScore)]. *)
Definition tryFreeRect (rectW rectH : Q)
    (st : option Position * option Q) (f : FreeRect)
    : option Position * option Q :=
  let st1 :=
    if Qleb rectW (fw f) && Qleb rectH (fh f) then
      let score := Qmin (fw f - rectW) (fh f - rectH) in
      if scoreBelow score (snd st)
      then (Some {| pos_x := fx f; pos_y := fy f; pos_rotated := false |},
            Some score)
      else st
    else st in
  if Qleb rectH (fw f) && Qleb rectW (fh f) then
    let score2 := Qmin (fw f - rectH) (fh f - rectW) in
    if scoreBelow score2 (snd st1)
    then (Some {| pos_x := fx f; pos_y := fy f; pos_rotated := true |},
          Some score2)
    else st1
  else st1.

(** The [kerf] argument is not used by the source either. *)
Definition findBestPosition (s : Sheet) (rectW rectH kerf : Q)
    : option Position :=
  fst (fold_left (tryFreeRect rectW rectH) (freeRects s) (None, None)).

Definition partFits (partW partL sheetW sheetL : Q) : bool :=
  let fitsNormal := Qleb partW sheetW && Qleb partL sheetL in
  let fitsRotated := Qleb partL sheetW && Qleb partW sheetL in
  fitsNormal || fitsRotated.

(** The expansion loops of [nestParts]: each part contributes [qty]
    rectangles, numbered by the length of [rects] at the time of the push. *)
Definition pushRect (p : Part) (rects : list Rectangle) : list Rectangle :=
  rects ++ [ newRectangle (part_w p) (part_l p) (List.length rects)
               (part_name p) (part_category p) (part_sourceItemId p)
               (part_sourceItemName p) ].

Definition expandParts (parts : list Part) : list Rectangle :=
  fold_left (fun rects p => Nat.iter (part_qty p) (pushRect p) rects)
            parts [].

(** The comparator handed to [rects.sort]. *)
Definition compareRects (a b : Rectangle) : Q :=
  let areaA := rect_w a * rect_h a in
  let areaB := rect_w b * rect_h b in
  if negb (Qeq_bool areaB areaA) then areaB - areaA
  else Qmax (rect_w b) (rect_h b) - Qmax (rect_w a) (rect_h a).

(** [Array.prototype.sort] is a stable sort; it is embedded as the stable
    insertion sort for the comparator. *)
Fixpoint insertRect (x : Rectangle) (l : list Rectangle) : list Rectangle :=
  match l with
  | [] => [x]
  | y :: l' =>
      if Qleb (compareRects x y) 0 then x :: y :: l'
      else y :: insertRect x l'
  end.

Definition sortRects (l : list Rectangle) : list Rectangle :=
  fold_right insertRect [] l.

(** The loop over the existing sheets: the first sheet with a position
    receives the rectangle; [None] when [placed] stays [false]. *)
Fixpoint placeOnExisting (rect : Rectangle) (kerf : Q) (sheets : list Sheet)
    : option (list Sheet) :=
  match sheets with
  | [] => None
  | sh :: rest =>
      match findBestPosition sh (rect_w rect) (rect_h rect) kerf with
      | Some pos =>
          Some (addPlacement sh rect (pos_x pos) (pos_y pos) (pos_rotated pos)
                  :: rest)
      | None =>
          match placeOnExisting rect kerf rest with
          | Some rest' => Some (sh :: rest')
          | None => None
          end
      end
  end.

(** The result of [nestParts]: [{ sheets, unplaced }]. *)
Record NestResult := mkNestResult {
  sheets : list Sheet;
  unplaced : list Rectangle
}.

(** One iteration of the placing loop of [nestParts]. *)
Definition placeRect (sheetW sheetL kerf : Q) (st : NestResult)
    (rect : Rectangle) : NestResult :=
  if negb (partFits (rect_w rect) (rect_h rect) sheetW sheetL) then
    {| sheets := sheets st; unplaced := unplaced st ++ [rect] |}
  else
    match placeOnExisting rect kerf (sheets st) with
    | Some sheets' => {| sheets := sheets'; unplaced := unplaced st |}
    | None =>
        let newSh :=
          newSheet sheetW sheetL (List.length (sheets st) + 1) kerf in
        match findBestPosition newSh (rect_w rect) (rect_h rect) kerf with
        | Some pos2 =>
            {| sheets := sheets st ++
                 [ addPlacement newSh rect (pos_x pos2) (pos_y pos2)
                     (pos_rotated pos2) ];
               unplaced := unplaced st |}
        | None => st
        end
    end.

Definition nestParts (parts : list Part) (sheetW sheetL kerf : Q)
    : NestResult :=
  let rects := sortRects (expandParts parts) in
  fold_left (placeRect sheetW sheetL kerf) rects
            {| sheets := []; unplaced := [] |}.

End Optimize.

(** ** estimate.js: the oversize splitter *)

Module Estimate.

(** Decimal rendering of an integer, as string concatenation does. *)
Definition showZ (z : Z) : string := NilZero.string_of_int (Z.to_int z).

Definition partFitsStock (partW partL stockW stockL : Q) : bool :=
  (Qleb partW stockW && Qleb partL stockL) ||
  (Qleb partL stockW && Qleb partW stockL).

(** The value returned by [calcStripLayout]:
    [{ stripSize, keepDim, stripCount }]. *)
Record StripLayout := mkStrip {
  stripSize : Q;
  keepDim : Q;
  stripCount : Z
}.

(** [(dim - (count - 1) * seamGap) / count]: the size of one of [count]
    pieces cut from [dim] with a seam gap between neighbours. *)
Definition pieceSize (dim seamGap : Q) (count : Z) : Q :=
  (dim - inject_Z (count - 1) * seamGap) / inject_Z count.

(** The kerf-refinement loop, [for (tries = 0; tries < 10; tries++)],
    shared by [calcStripLayout] and [calcGridLayout].  [fuel] is the number
    of attempts left; the result is the count and the value of [tries] when
    the loop is left: [tries = 10] exactly when no attempt succeeded. *)
Fixpoint refineCount (fuel tries : nat) (dim maxDim seamGap : Q) (count : Z)
    : Z * nat :=
  match fuel with
  | O => (count, tries)
  | S fuel' =>
      let size := pieceSize dim seamGap count in
      if Qleb size maxDim && Qltb (1#2) size then (count, tries)
      else refineCount fuel' (S tries) dim maxDim seamGap (count + 1)
  end.

(** The maximum strip size chosen once the kept dimension fits the stock
    one way at least. *)
Definition maxStripDimFor (keepDim stockW stockL : Q) : Q :=
  let keepFitsInW := Qleb keepDim stockW in
  let keepFitsInL := Qleb keepDim stockL in
  if keepFitsInL && keepFitsInW then Qmax stockW stockL
  else if keepFitsInL then stockW
  else stockL.

(** The state [(stripCount, tries)] in which [calcStripLayout] leaves its
    refinement loop. *)
Definition stripRefinement (splitDim keepDim stockW stockL seamGap : Q)
    : Z * nat :=
  let maxStripDim := maxStripDimFor keepDim stockW stockL in
  refineCount 10 0 splitDim maxStripDim seamGap
    (Qceiling (splitDim / maxStripDim)).

Definition calcStripLayout (splitDim keepDim stockW stockL seamGap : Q)
    : option StripLayout :=
  let keepFitsInW := Qleb keepDim stockW in
  let keepFitsInL := Qleb keepDim stockL in
  if negb keepFitsInW && negb keepFitsInL then None
  else
    let maxStripDim := maxStripDimFor keepDim stockW stockL in
    if Qleb maxStripDim 0 then None
    else
      let stripCount :=
        fst (stripRefinement splitDim keepDim stockW stockL seamGap) in
      let stripSize := pieceSize splitDim seamGap stripCount in
      if Qleb stripSize 0 || Qltb maxStripDim stripSize then None
      else Some {| stripSize := stripSize; keepDim := keepDim;
                   stripCount := stripCount |}.

(** The value returned by [calcGridLayout]:
    [{ cols, rows, total, pieceW, pieceL }]. *)
Record GridLayout := mkGrid {
  cols : Z;
  rows : Z;
  total : Z;
  pieceW : Q;
  pieceL : Q
}.

(** One iteration of the loop over the two stock orientations. *)
Definition gridOrientation (partW partL seamGap : Q)
    (best : option GridLayout) (o : Q * Q) : option GridLayout :=
  let sw := fst o in
  let sl := snd o in
  let cols := fst (refineCount 10 0 partW sw seamGap (Qceiling (partW / sw))) in
  let rows := fst (refineCount 10 0 partL sl seamGap (Qceiling (partL / sl))) in
  let pieceW := pieceSize partW seamGap cols in
  let pieceL := pieceSize partL seamGap rows in
  if Qltb (1#2) pieceW && Qltb (1#2) pieceL &&
     Qleb pieceW sw && Qleb pieceL sl
  then
    let total := (cols * rows)%Z in
    let found := Some {| cols := cols; rows := rows; total := total;
                         pieceW := pieceW; pieceL := pieceL |} in
    match best with
    | None => found
    | Some b => if (total <? Estimate.total b)%Z then found else best
    end
  else best.

Definition calcGridLayout (partW partL stockW stockL seamGap : Q)
    : option GridLayout :=
  fold_left (gridOrientation partW partL seamGap)
            [ (stockW, stockL); (stockL, stockW) ] None.

(** An element of [pieces]: [{ w, l, suffix }]. *)
Record Piece := mkPiece {
  piece_w : Q;
  piece_l : Q;
  piece_suffix : string
}.

(** The value returned by [fitOrSplit]; an absent [noSplit] is [false]. *)
Record SplitResult := mkSplitResult {
  fits : bool;
  pieces : list Piece;
  res_stripCount : Z;
  warning : option string;
  noSplit : bool
}.

(** [splitAxis]: ['width'] or ['length']. *)
Inductive SplitAxis := AxisWidth | AxisLength.

(** The choice between the two strip options, [best] and [splitAxis]. *)
Definition chooseStrip (optA optB : option StripLayout)
    : option (StripLayout * SplitAxis) :=
  match optA, optB with
  | Some a, Some b =>
      if (stripCount a <=? stripCount b)%Z then Some (a, AxisWidth)
      else Some (b, AxisLength)
  | Some a, None => Some (a, AxisWidth)
  | None, Some b => Some (b, AxisLength)
  | None, None => None
  end.

(** [' [' + k + '/' + n + ']'] *)
Definition ordinalSuffix (k n : Z) : string :=
  (" [" ++ showZ k ++ "/" ++ showZ n ++ "]")%string.

(** The pieces of a strip split: [best.stripCount] equal pieces. *)
Definition stripPieces (best : StripLayout) (splitAxis : SplitAxis)
    : list Piece :=
  map (fun i : nat =>
         {| piece_w := match splitAxis with
                       | AxisWidth => stripSize best
                       | AxisLength => keepDim best
                       end;
            piece_l := match splitAxis with
                       | AxisWidth => keepDim best
                       | AxisLength => stripSize best
                       end;
            piece_suffix :=
              ordinalSuffix (Z.of_nat i + 1) (stripCount best) |})
      (seq 0 (Z.to_nat (stripCount best))).

Definition stripResult (best : StripLayout) (splitAxis : SplitAxis)
    : SplitResult :=
  {| fits := false;
     pieces := stripPieces best splitAxis;
     res_stripCount := stripCount best;
     warning := Some ("will be split into " ++ showZ (stripCount best)
                        ++ " pieces")%string;
     noSplit := false |}.

(** The pieces of a grid split, row by row; [idx] is [r * cols + c + 1]. *)
Definition gridPieces (grid : GridLayout) : list Piece :=
  flat_map (fun r : nat =>
    map (fun c : nat =>
           {| piece_w := pieceW grid; piece_l := pieceL grid;
              piece_suffix :=
                ordinalSuffix (Z.of_nat r * cols grid + Z.of_nat c + 1)
                              (total grid) |})
        (seq 0 (Z.to_nat (cols grid))))
    (seq 0 (Z.to_nat (rows grid))).

Definition gridResult (grid : GridLayout) : SplitResult :=
  {| fits := false;
     pieces := gridPieces grid;
     res_stripCount := total grid;
     warning := Some ("will be split into " ++ showZ (cols grid) ++ "×"
                        ++ showZ (rows grid) ++ " grid ("
                        ++ showZ (total grid) ++ " pieces)")%string;
     noSplit := false |}.

(** The single unsplit piece, with the warning given. *)
Definition wholeResult (partW partL : Q) (fits : bool)
    (warning : option string) (noSplit : bool) : SplitResult :=
  {| fits := fits;
     pieces := [ {| piece_w := partW; piece_l := partL;
                    piece_suffix := "" |} ];
     res_stripCount := 1;
     warning := warning;
     noSplit := noSplit |}.

(** [seamGap || 0] is [seamGap] for every rational. *)
Definition fitOrSplit (partW partL stockW stockL seamGap : Q)
    (canSplit : bool) : SplitResult :=
  if partFitsStock partW partL stockW stockL then
    wholeResult partW partL true None false
  else if negb canSplit then
    wholeResult partW partL false
      (Some "exceeds stock (seams not allowed)"%string) true
  else
    let optA := calcStripLayout partW partL stockW stockL seamGap in
    let optB := calcStripLayout partL partW stockW stockL seamGap in
    match chooseStrip optA optB with
    | Some (best, splitAxis) => stripResult best splitAxis
    | None =>
        match calcGridLayout partW partL stockW stockL seamGap with
        | Some grid => gridResult grid
        | None =>
            wholeResult partW partL false
              (Some "cannot be split to fit stock"%string) true
        end
    end.

End Estimate.

(** ** Geometric vocabulary of the specification and invariants *)

Module Geometry.
Import Optimize.

(** The half-open rectangles [[x, x+w) x [y, y+h)] of [a] and [b] share a
    point. *)
Definition rectsOverlap (a b : FreeRect) : bool :=
  Qltb (Qmax (fx a) (fx b)) (Qmin (fx a + fw a) (fx b + fw b)) &&
  Qltb (Qmax (fy a) (fy b)) (Qmin (fy a + fh a) (fy b + fh b)).

(** The point [(u, v)] lies in the half-open rectangle of [f]. *)
Definition covers (f : FreeRect) (u v : Q) : Prop :=
  fx f <= u /\ u < fx f + fw f /\ fy f <= v /\ v < fy f + fh f.

(** The occupied-plus-kerf rectangle of a placement:
    [[x, x+w+kerf) x [y, y+h+kerf)]. *)
Definition occupiedPlusKerf (kerf : Q) (p : Placement) : FreeRect :=
  {| fx := p_x p; fy := p_y p; fw := p_w p + kerf; fh := p_h p + kerf |}.

(** The rectangle a placement covers, without kerf. *)
Definition occupied (p : Placement) : FreeRect :=
  {| fx := p_x p; fy := p_y p; fw := p_w p; fh := p_h p |}.

(** Identical [x], [y], [w] and [h]. *)
Definition sameRect (a b : FreeRect) : Prop :=
  fx a == fx b /\ fy a == fy b /\ fw a == fw b /\ fh a == fh b.

(** [f] lies within the sheet [[0, sheetW] x [0, sheetL]]. *)
Definition withinSheet (sheetW sheetL : Q) (f : FreeRect) : Prop :=
  0 <= fx f /\ 0 <= fy f /\ fx f + fw f <= sheetW /\ fy f + fh f <= sheetL.

(** [a] lies within [b] (the proposition decided by [containedIn]). *)
Definition within (a b : FreeRect) : Prop :=
  fx b <= fx a /\ fy b <= fy a /\
  fx a + fw a <= fx b + fw b /\ fy a + fh a <= fy b + fh b.

(** The rectangles [a] and [o] are apart along one axis: the test by which
    [updateFreeRects] keeps a free rectangle untouched. *)
Definition clearOf (a o : FreeRect) : Prop :=
  fx o + fw o <= fx a \/ fx a + fw a <= fx o \/
  fy o + fh o <= fy a \/ fy a + fh a <= fy o.

(** What the free-rectangle bookkeeping guarantees on a sheet: every free
    rectangle is clear of the occupied-plus-kerf rectangle of every
    placement, and every placement is clear of the occupied-plus-kerf
    rectangles of the placements made before it. *)
Definition kerfClear (kerf : Q) (sh : Sheet) : Prop :=
  s_kerf sh = kerf /\
  (forall f p, In f (freeRects sh) -> In p (placements sh) ->
     clearOf f (occupiedPlusKerf kerf p)) /\
  (forall i j pi pj, (i < j)%nat ->
     nth_error (placements sh) i = Some pi ->
     nth_error (placements sh) j = Some pj ->
     clearOf (occupied pj) (occupiedPlusKerf kerf pi)).

(** What the outer loop keeps: the rectangle at position [i] of [rects]
    has no container elsewhere in [rects] and has positive extent. *)
Definition kept (rects : list FreeRect) (i : nat) (r : FreeRect) : Prop :=
  nth_error rects i = Some r /\
  containedInOther i r 0 rects = false /\
  0 < fw r /\ 0 < fh r.

(** The invariant: the free rectangles and the placements of a sheet lie
    on the sheet. *)
Definition onSheet (sheetW sheetL : Q) (sh : Sheet) : Prop :=
  Forall (withinSheet sheetW sheetL) (freeRects sh) /\
  Forall (fun p => withinSheet sheetW sheetL (occupied p)) (placements sh).

End Geometry.

(** ** optimize.js: the helper functions *)

Module OptimizeAux.
Import Optimize.

(** [wide + '×' + long + ' layout (' + count + ' full sheets)'] *)
Definition layoutDesc (wide long count : Z) : string :=
  (Estimate.showZ wide ++ "×" ++ Estimate.showZ long ++ " layout ("
     ++ Estimate.showZ count ++ " full sheets)")%string.

(** [createFullSheetViz]: a sheet holding one rectangle of the size of the
    sheet, put at the origin. *)
Definition createFullSheetViz (sheetW sheetL : Q) (index : nat) (kerf : Q)
    (partName : string) (category : option string) : Sheet :=
  let sheet := newSheet sheetW sheetL index kerf in
  let rect := newRectangle sheetW sheetL 0 partName category None None in
  addPlacement sheet rect 0 0 false.

End OptimizeAux.

(** ** estimate.js: rib plans, part lists and the calculators *)

Module EstimateCalc.
Import Optimize Estimate.

(** The value returned by [ribPlan]: [{ bays, ribs, clear }]. *)
Record RibPlan := mkRibPlan {
  bays : Z;
  ribs : Z;
  clear : Q
}.

Definition ribPlan (D S T : Q) : RibPlan :=
  let bays0 := Qceiling ((D + T) / (S + T)) in
  let bays := if (bays0 <? 1)%Z then 1%Z else bays0 in
  let ribs := Z.max 0 (bays - 1) in
  let clear := (D - inject_Z ribs * T) / inject_Z bays in
  {| bays := bays; ribs := ribs; clear := clear |}.

Definition allowsSeams (materialName : string) : bool := true.

(** The value returned by [calcSkinPanels]:
    [{ count, pieceW, pieceL, fullSheets, wide, long, desc }]; the last
    three are absent when the skin fits one sheet. *)
Record SkinPanels := mkSkinPanels {
  sk_count : Z;
  sk_pieceW : Q;
  sk_pieceL : Q;
  sk_fullSheets : bool;
  sk_wide : option Z;
  sk_long : option Z;
  sk_desc : option string
}.

Definition calcSkinPanels (skinW skinL sheetW sheetL : Q) : SkinPanels :=
  let fitsNormal := Qleb skinW sheetW && Qleb skinL sheetL in
  let fitsRotated := Qleb skinL sheetW && Qleb skinW sheetL in
  if fitsNormal || fitsRotated then
    {| sk_count := 1; sk_pieceW := skinW; sk_pieceL := skinL;
       sk_fullSheets := false; sk_wide := None; sk_long := None;
       sk_desc := None |}
  else
    let wide1 := Qceiling (skinW / sheetW) in
    let long1 := Qceiling (skinL / sheetL) in
    let count1 := (wide1 * long1)%Z in
    let wide2 := Qceiling (skinW / sheetL) in
    let long2 := Qceiling (skinL / sheetW) in
    let count2 := (wide2 * long2)%Z in
    let useOpt1 := (count1 <=? count2)%Z in
    let count := if useOpt1 then count1 else count2 in
    let wide := if useOpt1 then wide1 else wide2 in
    let long := if useOpt1 then long1 else long2 in
    {| sk_count := count;
       sk_pieceW := if useOpt1 then sheetW else sheetL;
       sk_pieceL := if useOpt1 then sheetL else sheetW;
       sk_fullSheets := true; sk_wide := Some wide; sk_long := Some long;
       sk_desc := Some (OptimizeAux.layoutDesc wide long count) |}.

(** An entry of the part lists built in estimate.js:
    [{ name, qty, w, l, category, material, fullSheet }]; [fullSheet] is
    absent from the entries built here. *)
Record CutPart := mkCutPart {
  cp_name : string;
  cp_qty : Z;
  cp_w : Q;
  cp_l : Q;
  cp_category : string;
  cp_material : string;
  cp_fullSheet : option bool
}.

Definition multiplyParts (parts : list CutPart) (qty : Z) : list CutPart :=
  map (fun p =>
         {| cp_name := cp_name p; cp_qty := (cp_qty p * qty)%Z;
            cp_w := cp_w p; cp_l := cp_l p; cp_category := cp_category p;
            cp_material := cp_material p; cp_fullSheet := cp_fullSheet p |})
      parts.

(** What [Optimize.nestParts] reads of such an entry: [qty] bounds the
    loop [for (j = 0; j < p.qty; j++)], and the source-item fields are
    absent. *)
Definition asNestPart (p : CutPart) : Part :=
  {| part_name := cp_name p; part_qty := Z.to_nat (cp_qty p);
     part_w := cp_w p; part_l := cp_l p;
     part_category := Some (cp_category p);
     part_sourceItemId := None; part_sourceItemName := None |}.

Definition nestCutParts (parts : list CutPart) (sheetW sheetL kerf : Q)
    : NestResult :=
  nestParts (map asNestPart parts) sheetW sheetL kerf.

(** The double quote character of the warnings. *)
Definition dquote : string := String "034"%char EmptyString.

(** [Number.prototype.toFixed(2)] on an exact rational: the nearest
    multiple of 1/100, a tie going away from zero.  The functions below
    take the formatting of numbers as a parameter; this instance runs
    them. *)
Definition toFixed2Q (x : Q) : string :=
  let n := Qfloor (Qabs x * 100 + (1#2)) in
  let frac := (n mod 100)%Z in
  ((if Qltb x 0 then "-" else EmptyString)
     ++ showZ (n / 100) ++ "."
     ++ (if (frac <? 10)%Z then "0" else EmptyString) ++ showZ frac)%string.

Section Formatting.

(** [x.toFixed(2)] *)
Variable toFixed2 : Q -> string.

(** [label + ' ' + w.toFixed(2) + '"×' + l.toFixed(2) + '" ' + warning];
    a null warning is rendered as [null]. *)
Definition splitWarning (label : string) (partW partL : Q)
    (warning : option string) : string :=
  (label ++ " " ++ toFixed2 partW ++ dquote ++ "×" ++ toFixed2 partL
     ++ dquote ++ " "
     ++ match warning with Some s => s | None => "null" end)%string.

(** The three-way push on the result of [fitOrSplit] that [splitAndPush],
    [calcSheet] and the skin blocks of [calcPlatform] share: the part as
    it is when it fits, the part as it is with a warning when it cannot be
    split, one entry per piece with a warning otherwise.  [label] names
    the part in the warning, [partName] in the entries.  The state is
    [(partsArr, warningsArr)]. *)
Definition pushSplitResult (label partName : string) (qty : Z)
    (partW partL : Q) (result : SplitResult)
    (category materialName : string)
    (st : list CutPart * list string) : list CutPart * list string :=
  let whole := {| cp_name := partName; cp_qty := qty; cp_w := partW;
                  cp_l := partL; cp_category := category;
                  cp_material := materialName; cp_fullSheet := None |} in
  if fits result then (fst st ++ [whole], snd st)
  else if noSplit result then
    (fst st ++ [whole],
     snd st ++ [splitWarning label partW partL (warning result)])
  else
    (fst st ++
       map (fun piece =>
              {| cp_name := (partName ++ piece_suffix piece)%string;
                 cp_qty := qty; cp_w := piece_w piece;
                 cp_l := piece_l piece; cp_category := category;
                 cp_material := materialName; cp_fullSheet := None |})
           (pieces result),
     snd st ++ [splitWarning label partW partL (warning result)]).

Definition splitAndPush (partName : string) (qty : Z)
    (partW partL stockW stockL kerf : Q) (canSplit : bool)
    (category materialName : string)
    (st : list CutPart * list string) : list CutPart * list string :=
  pushSplitResult partName partName qty partW partL
    (fitOrSplit partW partL stockW stockL kerf canSplit)
    category materialName st.

(** A material: [{ name, w, l, t }]. *)
Record Material := mkMaterial {
  mat_name : string;
  mat_w : Q;
  mat_l : Q;
  mat_t : Q
}.

(** The [params] of [calcSheet]: [{ qty, w, l, name }].  A missing number
    is 0: the source reads these fields only through [!x] and [x || d],
    which treat [undefined] and 0 alike. *)
Record SheetParams := mkSheetParams {
  sp_qty : Z;
  sp_w : Q;
  sp_l : Q;
  sp_name : option string
}.

(** The result object of [calcSheet]. *)
Record SheetCalc := mkSheetCalc {
  sc_parts : list CutPart;
  sc_nestedSheets : list Sheet;
  sc_unplaced : list Rectangle;
  sc_warnings : list string;
  sc_sheetW : Q;
  sc_sheetL : Q;
  sc_quantity : Z;
  sc_totalSheets : nat
}.

(** [x || d] on a number *)
Definition orQ (x d : Q) : Q := if Qeq_bool x 0 then d else x.
Definition orZ (x d : Z) : Z := if (x =? 0)%Z then d else x.

(** [calcSheet] returns [{ error }] ([inl]) or the result object. *)
Definition calcSheet (params : SheetParams) (mat : Material) (kerf : Q)
    : string + SheetCalc :=
  let qty := orZ (sp_qty params) 1 in
  let w := sp_w params in
  let l := sp_l params in
  if Qeq_bool w 0 || Qeq_bool l 0 then inl "Enter width and length"%string
  else
    let canSplit := allowsSeams (mat_name mat) in
    let splitResult := fitOrSplit w l (mat_w mat) (mat_l mat) kerf canSplit in
    let baseName := orElse (sp_name params) "Sheet" in
    let st := pushSplitResult baseName baseName 1 w l splitResult
                "panel" (mat_name mat) ([], []) in
    let nestResult := nestCutParts (fst st) (mat_w mat) (mat_l mat) kerf in
    inr {| sc_parts := fst st;
           sc_nestedSheets := sheets nestResult;
           sc_unplaced := unplaced nestResult;
           sc_warnings := snd st;
           sc_sheetW := mat_w mat;
           sc_sheetL := mat_l mat;
           sc_quantity := qty;
           sc_totalSheets := List.length (sheets nestResult) |}.

(** The [params] of [calcPlatform]:
    [{ qty, o1, o2, oh, w1, w2, topLayers, botLayers }]; the wall and layer
    counts are integers, and a missing number is 0. *)
Record PlatformParams := mkPlatformParams {
  pp_qty : Z;
  pp_o1 : Q;
  pp_o2 : Q;
  pp_oh : Q;
  pp_w1 : Z;
  pp_w2 : Z;
  pp_topLayers : Z;
  pp_botLayers : Z
}.

(** The [settings]: [{ maxSpan, ribThickness, kerf, caseInset }]; a
    missing number is 0. *)
Record Settings := mkSettings {
  set_maxSpan : Q;
  set_ribThickness : Q;
  set_kerf : Q;
  set_caseInset : Q
}.

(** The result object of [calcPlatform]; [ribPlan] is
    [{ dim1, dim2, maxSpan }] and [interior] is [{ i1, i2, ih }]. *)
Record PlatformCalc := mkPlatformCalc {
  pc_parts : list CutPart;
  pc_nestedSheets : list Sheet;
  pc_nestedCount : nat;
  pc_unplaced : list Rectangle;
  pc_sheetW : Q;
  pc_sheetL : Q;
  pc_quantity : Z;
  pc_totalSheets : nat;
  pc_warnings : list string;
  pc_ribPlan_dim1 : RibPlan;
  pc_ribPlan_dim2 : RibPlan;
  pc_ribPlan_maxSpan : Q;
  pc_i1 : Q;
  pc_i2 : Q;
  pc_ih : Q
}.

(** ['OVERSIZED: ' + up.name + ' (' + up.w.toFixed(2) + '"×'
    + up.h.toFixed(2) + '") cannot fit on sheet'] *)
Definition oversizedWarning (up : Rectangle) : string :=
  ("OVERSIZED: " ++ rect_name up ++ " (" ++ toFixed2 (rect_w up) ++ dquote
     ++ "×" ++ toFixed2 (rect_h up) ++ dquote ++ ") cannot fit on sheet")%string.

(** The parts and warnings of [calcPlatform] before nesting, for interior
    dimensions [i1], [i2], [ih] and rib plans [p1], [p2]. *)
Definition platformParts (o1 o2 oh i1 i2 ih : Q)
    (w1 w2 topLayers botLayers : Z) (p1 p2 : RibPlan)
    (sheetW sheetL kerf : Q) (canSplit : bool) (matName : string)
    : list CutPart * list string :=
  let st0 : list CutPart * list string := ([], []) in
  let st1 :=
    if (0 <? topLayers)%Z then
      pushSplitResult "Top skin" "Top Skin" topLayers o1 o2
        (fitOrSplit o1 o2 sheetW sheetL kerf canSplit) "skin" matName st0
    else st0 in
  let st2 :=
    if (0 <? botLayers)%Z then
      pushSplitResult "Bottom skin" "Bottom Skin" botLayers o1 o2
        (fitOrSplit o1 o2 sheetW sheetL kerf canSplit) "skin" matName st1
    else st1 in
  let st3 :=
    if (0 <? w2)%Z then
      splitAndPush "Wall (Dim1)" (w2 * 2) o1 oh sheetW sheetL kerf canSplit
        "wall" matName st2
    else st2 in
  let st4 :=
    if (0 <? w1)%Z then
      splitAndPush "Wall (Dim2)" (w1 * 2) o2 oh sheetW sheetL kerf canSplit
        "wall" matName st3
    else st3 in
  let st5 :=
    if (0 <? ribs p1)%Z then
      splitAndPush "Rib (Dim2)" (ribs p1) ih i2 sheetW sheetL kerf canSplit
        "rib" matName st4
    else st4 in
  if (0 <? ribs p2)%Z then
    splitAndPush "Rib (Dim1)" (ribs p2) ih i1 sheetW sheetL kerf canSplit
      "rib" matName st5
  else st5.

(** [calcPlatform] returns [{ error }] ([inl]) or the result object. *)
Definition calcPlatform (params : PlatformParams) (mat : Material)
    (settings : Settings) : string + PlatformCalc :=
  let qty := orZ (pp_qty params) 1 in
  let o1 := pp_o1 params in
  let o2 := pp_o2 params in
  let oh := pp_oh params in
  let w1 := pp_w1 params in
  let w2 := pp_w2 params in
  let topLayers := pp_topLayers params in
  let botLayers := pp_botLayers params in
  let t := mat_t mat in
  let S := orQ (set_maxSpan settings) 24 in
  let ribT := orQ (set_ribThickness settings) (3#4) in
  let kerf := orQ (set_kerf settings) (1#8) in
  let sheetW := mat_w mat in
  let sheetL := mat_l mat in
  if Qeq_bool o1 0 || Qeq_bool o2 0 || Qeq_bool oh 0 then
    inl "Enter all dimensions"%string
  else
    let layers := (topLayers + botLayers)%Z in
    let i1 := o1 - (t * inject_Z w1 * 2) in
    let i2 := o2 - (t * inject_Z w2 * 2) in
    let ih := oh - (t * inject_Z layers) in
    if Qleb i1 0 || Qleb i2 0 || Qleb ih 0 then
      inl "Dimensions too small for walls/layers"%string
    else
      let p1 := ribPlan i1 S ribT in
      let p2 := ribPlan i2 S ribT in
      let canSplit := allowsSeams (mat_name mat) in
      let st := platformParts o1 o2 oh i1 i2 ih w1 w2 topLayers botLayers
                  p1 p2 sheetW sheetL kerf canSplit (mat_name mat) in
      let nestResult := nestCutParts (fst st) sheetW sheetL kerf in
      inr {| pc_parts := fst st;
             pc_nestedSheets := sheets nestResult;
             pc_nestedCount := List.length (sheets nestResult);
             pc_unplaced := unplaced nestResult;
             pc_sheetW := sheetW;
             pc_sheetL := sheetL;
             pc_quantity := qty;
             pc_totalSheets := List.length (sheets nestResult);
             pc_warnings :=
               snd st ++ map oversizedWarning (unplaced nestResult);
             pc_ribPlan_dim1 := p1;
             pc_ribPlan_dim2 := p2;
             pc_ribPlan_maxSpan := S;
             pc_i1 := i1; pc_i2 := i2; pc_ih := ih |}.

(** [Materials.SHEET_SIZES] of app.js: [{ w, l, name }] for the two
    special materials. *)
Record SheetSize := mkSheetSize {
  ss_w : Q;
  ss_l : Q;
  ss_name : string
}.

Definition SHEET_SIZES_obo : SheetSize :=
  {| ss_w := 20; ss_l := 80;
     ss_name := ("Obomodulan 20" ++ dquote ++ "×80" ++ dquote)%string |}.

Definition SHEET_SIZES_hdpe : SheetSize :=
  {| ss_w := 48; ss_l := 96; ss_name := "HDPE 4'×8'" |}.

(** The [params] of [calcCase]; a missing number is 0 and a missing
    [hasChamber] is [false]. *)
Record CaseParams := mkCaseParams {
  cq_qty : Z;
  cq_o1 : Q;
  cq_o2 : Q;
  cq_oh : Q;
  cq_wallThickness : Q;
  cq_hasChamber : bool;
  cq_chamberHeight : Q;
  cq_wallCountDim1A : Z;
  cq_wallCountDim1B : Z;
  cq_wallCountDim2A : Z;
  cq_wallCountDim2B : Z
}.

(** One of the three entries of [materialNesting]:
    [{ sheets, w, l, name, unplaced }]. *)
Record MaterialNest := mkMaterialNest {
  mn_sheets : list Sheet;
  mn_w : Q;
  mn_l : Q;
  mn_name : string;
  mn_unplaced : list Rectangle
}.

(** The result object of [calcCase]; [unplaced] pairs each rectangle with
    its material tag, and [dimensions] is flattened. *)
Record CaseCalc := mkCaseCalc {
  cc_parts : list CutPart;
  cc_mdo : MaterialNest;
  cc_hdpe : MaterialNest;
  cc_obo : MaterialNest;
  cc_nestedSheets : list Sheet;
  cc_unplaced : list (Rectangle * string);
  cc_sheetW : Q;
  cc_sheetL : Q;
  cc_quantity : Z;
  cc_warnings : list string;
  cc_o1 : Q; cc_o2 : Q; cc_oh : Q;
  cc_i1 : Q; cc_i2 : Q; cc_ih : Q;
  cc_pw : Q; cc_pl : Q
}.

(** A warning string is truthy when it is present and not empty. *)
Definition truthy (w : option string) : bool :=
  match w with
  | Some EmptyString => false
  | Some _ => true
  | None => false
  end.

(** The panel blocks of [calcCase]: the panel itself when it fits, one
    entry per piece otherwise, all of quantity 1. *)
Definition panelEntries (partName : string) (pw pl : Q) (split : SplitResult)
    (category materialName : string) : list CutPart :=
  if fits split then
    [ {| cp_name := partName; cp_qty := 1; cp_w := pw; cp_l := pl;
         cp_category := category; cp_material := materialName;
         cp_fullSheet := None |} ]
  else
    map (fun piece =>
           {| cp_name := (partName ++ piece_suffix piece)%string;
              cp_qty := 1; cp_w := piece_w piece; cp_l := piece_l piece;
              cp_category := category; cp_material := materialName;
              cp_fullSheet := None |})
        (pieces split).

(** ['OVERSIZED (' + material + '): ' + name + ' (' + w.toFixed(2) + '"×'
    + h.toFixed(2) + '") cannot fit'] *)
Definition oversizedCaseWarning (up : Rectangle * string) : string :=
  ("OVERSIZED (" ++ snd up ++ "): " ++ rect_name (fst up) ++ " ("
     ++ toFixed2 (rect_w (fst up)) ++ dquote ++ "×"
     ++ toFixed2 (rect_h (fst up)) ++ dquote ++ ") cannot fit")%string.

(** [calcCase] returns [{ error }] ([inl]) or the result object. *)
Definition calcCase (params : CaseParams) (mat : Material)
    (settings : Settings) : string + CaseCalc :=
  let qty := orZ (cq_qty params) 1 in
  let o1 := cq_o1 params in
  let o2 := cq_o2 params in
  let oh := cq_oh params in
  let wt := orQ (cq_wallThickness params) (3#4) in
  let inset := orQ (set_caseInset settings) (1#4) in
  let hasChamber := cq_hasChamber params in
  let chamberH := orQ (cq_chamberHeight params) 5 in
  let kerf := orQ (set_kerf settings) (1#8) in
  let wcDim1A := orZ (cq_wallCountDim1A params) 1 in
  let wcDim1B := orZ (cq_wallCountDim1B params) 1 in
  let wcDim2A := orZ (cq_wallCountDim2A params) 1 in
  let wcDim2B := orZ (cq_wallCountDim2B params) 1 in
  if Qeq_bool o1 0 || Qeq_bool o2 0 || Qeq_bool oh 0 then
    inl "Enter overall dimensions"%string
  else
    let i1 := o1 - (wt * 2) in
    let i2 := o2 - (wt * 2) in
    let ih := oh - wt in
    let pw := i1 - (inset * 2) in
    let pl := i2 - (inset * 2) in
    let oboSheet := SHEET_SIZES_obo in
    let hdpeSheet := SHEET_SIZES_hdpe in
    let oboSplit :=
      fitOrSplit pw pl (ss_w oboSheet) (ss_l oboSheet) kerf true in
    let hdpeSplit :=
      fitOrSplit pw pl (ss_w hdpeSheet) (ss_l hdpeSheet) kerf true in
    let warnings0 : list string := [] in
    let warnings1 :=
      if negb (fits oboSplit) && truthy (warning oboSplit)
      then warnings0 ++ [splitWarning "Obo panel" pw pl (warning oboSplit)]
      else warnings0 in
    let warnings2 :=
      if negb (fits hdpeSplit) && truthy (warning hdpeSplit)
      then warnings1 ++ [splitWarning "HDPE panel" pw pl (warning hdpeSplit)]
      else warnings1 in
    let mdoCanSplit := allowsSeams (mat_name mat) in
    let m1 := splitAndPush "Bottom" 1 o1 o2 (mat_w mat) (mat_l mat) kerf
                mdoCanSplit "case" "MDO" ([], warnings2) in
    let wallDim1Count := (wcDim1A + wcDim1B)%Z in
    let m2 := splitAndPush "Wall (Dim1)" wallDim1Count o1 oh (mat_w mat)
                (mat_l mat) kerf mdoCanSplit "wall" "MDO" m1 in
    let wallDim2Count := (wcDim2A + wcDim2B)%Z in
    let m3 := splitAndPush "Wall (Dim2)" wallDim2Count i2 oh (mat_w mat)
                (mat_l mat) kerf mdoCanSplit "wall" "MDO" m2 in
    let mdoParts := fst m3 in
    let oboParts :=
      panelEntries "Obo Panel" pw pl oboSplit "obo" "Obomodulan" in
    let hdpeParts0 :=
      panelEntries "HDPE Panel" pw pl hdpeSplit "hdpe" "HDPE" in
    let h :=
      if hasChamber then
        let chamberBottomSplit :=
          fitOrSplit pw pl (ss_w hdpeSheet) (ss_l hdpeSheet) kerf true in
        let h1 : list CutPart * list string :=
          (hdpeParts0 ++
             panelEntries "Chamber Bottom" pw pl chamberBottomSplit
               "hdpe" "HDPE",
           if fits chamberBottomSplit then snd m3
           else snd m3 ++ [splitWarning "Chamber bottom" pw pl
                             (warning chamberBottomSplit)]) in
        let h2 := splitAndPush "Chamber Wall (W)" 2 pw chamberH
                    (ss_w hdpeSheet) (ss_l hdpeSheet) kerf true
                    "hdpe" "HDPE" h1 in
        splitAndPush "Chamber Wall (L)" 2 (pl - 1) chamberH
          (ss_w hdpeSheet) (ss_l hdpeSheet) kerf true "hdpe" "HDPE" h2
      else (hdpeParts0, snd m3) in
    let hdpeParts := fst h in
    let mdoPartsQty := multiplyParts mdoParts qty in
    let oboPartsQty := multiplyParts oboParts qty in
    let hdpePartsQty := multiplyParts hdpeParts qty in
    let mdoNest := nestCutParts mdoPartsQty (mat_w mat) (mat_l mat) kerf in
    let hdpeNest :=
      nestCutParts hdpePartsQty (ss_w hdpeSheet) (ss_l hdpeSheet) kerf in
    let oboNest :=
      nestCutParts oboPartsQty (ss_w oboSheet) (ss_l oboSheet) kerf in
    let allUnplaced :=
      map (fun u => (u, "MDO"%string)) (unplaced mdoNest) ++
      map (fun u => (u, "HDPE"%string)) (unplaced hdpeNest) ++
      map (fun u => (u, "Obo"%string)) (unplaced oboNest) in
    let warnings := snd h ++ map oversizedCaseWarning allUnplaced in
    let allParts := mdoParts ++ oboParts ++ hdpeParts in
    inr {| cc_parts := allParts;
           cc_mdo := {| mn_sheets := sheets mdoNest; mn_w := mat_w mat;
                        mn_l := mat_l mat; mn_name := mat_name mat;
                        mn_unplaced := unplaced mdoNest |};
           cc_hdpe := {| mn_sheets := sheets hdpeNest;
                         mn_w := ss_w hdpeSheet; mn_l := ss_l hdpeSheet;
                         mn_name := ss_name hdpeSheet;
                         mn_unplaced := unplaced hdpeNest |};
           cc_obo := {| mn_sheets := sheets oboNest;
                        mn_w := ss_w oboSheet; mn_l := ss_l oboSheet;
                        mn_name := ss_name oboSheet;
                        mn_unplaced := unplaced oboNest |};
           cc_nestedSheets := sheets mdoNest;
           cc_unplaced := allUnplaced;
           cc_sheetW := mat_w mat;
           cc_sheetL := mat_l mat;
           cc_quantity := qty;
           cc_warnings := warnings;
           cc_o1 := o1; cc_o2 := o2; cc_oh := oh;
           cc_i1 := i1; cc_i2 := i2; cc_ih := ih;
           cc_pw := pw; cc_pl := pl |}.

End Formatting.

End EstimateCalc.

(** ** Vocabulary for the nesting run *)

Module NestingVocabulary.
Import Optimize.

(** The rectangle [rectW x rectH] fits the free rectangle [f] in the
    orientation given: the eligibility tests of [findBestPosition]. *)
Definition fitsOriented (rectW rectH : Q) (rotated : bool) (f : FreeRect)
    : Prop :=
  if rotated then rectH <= fw f /\ rectW <= fh f
  else rectW <= fw f /\ rectH <= fh f.

(** The score of [findBestPosition]: the smaller leftover margin. *)
Definition shortSide (rectW rectH : Q) (rotated : bool) (f : FreeRect) : Q :=
  if rotated then Qmin (fw f - rectH) (fh f - rectW)
  else Qmin (fw f - rectW) (fh f - rectH).

(** One of the two [if] blocks of the loop of [findBestPosition]: its
    test, its score and the position it would record. *)
Definition Candidate : Type := bool * Q * Position.

Definition candidate (rectW rectH : Q) (rotated : bool) (f : FreeRect)
    : Candidate :=
  (if rotated then Qleb rectH (fw f) && Qleb rectW (fh f)
   else Qleb rectW (fw f) && Qleb rectH (fh f),
   shortSide rectW rectH rotated f,
   {| pos_x := fx f; pos_y := fy f; pos_rotated := rotated |}).

Definition consider (st : option Position * option Q) (c : Candidate)
    : option Position * option Q :=
  if fst (fst c) then
    if scoreBelow (snd (fst c)) (snd st) then (Some (snd c), Some (snd (fst c)))
    else st
  else st.

Definition candidates (rectW rectH : Q) (fs : list FreeRect)
    : list Candidate :=
  flat_map (fun f => [candidate rectW rectH false f;
                      candidate rectW rectH true f]) fs.

(** The loop state [(best, bestScore)] is the best of the candidates seen:
    nothing when none passed its test, otherwise a passing candidate whose
    score no passing candidate beats. *)
Definition bestOf (seen : list Candidate)
    (st : option Position * option Q) : Prop :=
  match st with
  | (None, None) => forall c, In c seen -> fst (fst c) = false
  | (Some pos, Some sc) =>
      In (true, sc, pos) seen /\
      forall c, In c seen -> fst (fst c) = true -> sc <= snd (fst c)
  | _ => False
  end.

(** The rectangles placed on the sheets, sheet by sheet. *)
Definition placedRects (shs : list Sheet) : list Rectangle :=
  flat_map (fun sh => map p_rect (placements sh)) shs.

(** The raw-fit test of [nestParts] fails. *)
Definition cannotFit (sheetW sheetL : Q) (r : Rectangle) : bool :=
  negb (partFits (rect_w r) (rect_h r) sheetW sheetL).

End NestingVocabulary.

(** ** Vocabulary for the part lists *)

Module CalcVocabulary.
Import Estimate EstimateCalc.

(** The entry pushed for one piece of a result of [fitOrSplit]:
    [{ name: partName + piece.suffix, qty, w: piece.w, l: piece.l,
       category, material }]. *)
Definition pieceEntry (partName : string) (qty : Z)
    (category materialName : string) (piece : Piece) : CutPart :=
  {| cp_name := (partName ++ piece_suffix piece)%string;
     cp_qty := qty; cp_w := piece_w piece; cp_l := piece_l piece;
     cp_category := category; cp_material := materialName;
     cp_fullSheet := None |}.

(** A cut-list entry passes the raw-fit test for the stock. *)
Definition entryFits (stockW stockL : Q) (p : CutPart) : Prop :=
  partFitsStock (cp_w p) (cp_l p) stockW stockL = true.

(** Inputs on which the calculators are run below: a 48 x 96 sheet of
    MDO of thickness 3/4, a 48 x 36 x 12 platform with one wall per side
    and one top layer, and the default settings. *)
Definition mdo4x8 : Material :=
  {| mat_name := "MDO"; mat_w := 48; mat_l := 96; mat_t := 3#4 |}.

Definition platform48x36 : PlatformParams :=
  {| pp_qty := 1; pp_o1 := 48; pp_o2 := 36; pp_oh := 12;
     pp_w1 := 1; pp_w2 := 1; pp_topLayers := 1; pp_botLayers := 0 |}.

Definition shopSettings : Settings :=
  {| set_maxSpan := 24; set_ribThickness := 3#4; set_kerf := 1#8;
     set_caseInset := 1#4 |}.

(** Two 30 x 24 x 20 cases with a desiccant chamber and one wall per
    side. *)
Definition case30x24 : CaseParams :=
  {| cq_qty := 2; cq_o1 := 30; cq_o2 := 24; cq_oh := 20;
     cq_wallThickness := 3#4; cq_hasChamber := true; cq_chamberHeight := 5;
     cq_wallCountDim1A := 1; cq_wallCountDim1B := 1;
     cq_wallCountDim2A := 1; cq_wallCountDim2B := 1 |}.

End CalcVocabulary.

(** ** Double-precision arithmetic *)

(** JavaScript numbers are IEEE 754 binary64: every sum, difference,
    product and quotient is rounded to the nearest number with a 53-bit
    significand, ties to the even significand.  [fl] is that rounding on
    the rationals; the exponent range is not modelled (no overflow to
    [Infinity], no gradual underflow below 2^-1022). *)

Module Binary64.

(** A rational that in lowest terms has a power of two as denominator and
    a numerator below 2^53 is a double. *)
Definition exact53 (x : Q) : bool :=
  let r := Qred x in
  let q := Zpos (Qden r) in
  (q =? 2 ^ Z.log2 q)%Z && (Z.abs (Qnum r) <? 2 ^ 53)%Z.

(** [floor (log2 (p / q))]: the exponent [e] with [2^e <= p/q < 2^(e+1)]. *)
Definition ilog2 (p q : positive) : Z :=
  let e0 := (Z.log2 (Zpos p) - Z.log2 (Zpos q))%Z in
  if Qleb (2 ^ e0) (Zpos p # q) then e0 else (e0 - 1)%Z.

(** The integer nearest to [t], the even one of two equally near. *)
Definition roundEven (t : Q) : Z :=
  let n := Qfloor t in
  let r := t - inject_Z n in
  if Qltb r (1#2) then n
  else if Qltb (1#2) r then (n + 1)%Z
  else if Z.even n then n else (n + 1)%Z.

(** The double nearest to [p / q]: a multiple of the unit in the last
    place [2^(e - 52)]. *)
Definition nearestPos (p q : positive) : Q :=
  let ulp := 2 ^ (ilog2 p q - 52) in
  Qred (inject_Z (roundEven ((Zpos p # q) / ulp)) * ulp).

Definition nearest (x : Q) : Q :=
  match Qnum x with
  | Z0 => 0
  | Zpos p => nearestPos p (Qden x)
  | Zneg p => - nearestPos p (Qden x)
  end.

(** The result of a double operation whose exact result is [x]; a double
    is left as it is. *)
Definition fl (x : Q) : Q := if exact53 x then x else nearest x.

(** The double a decimal literal [n / d] denotes. *)
Definition literal (n : Z) (d : positive) : Q := fl (n # d).

End Binary64.

(** ** optimize.js in double precision *)

(** The functions of [Optimize] whose results depend on computed sums,
    differences and products, with every operation rounded as the source
    computes it.  Comparisons are exact on doubles.  The records and the
    functions without arithmetic are those of [Optimize]. *)

Module Rounded.
Import Optimize Binary64.

(** [r.x + r.w <= o.x + o.w] compares two computed sums. *)
Definition containedIn (r o : FreeRect) : bool :=
  Qleb (fx o) (fx r) && Qleb (fy o) (fy r) &&
  Qleb (fl (fx r + fw r)) (fl (fx o + fw o)) &&
  Qleb (fl (fy r + fh r)) (fl (fy o + fh o)).

Fixpoint containedInOther (i : nat) (r : FreeRect) (j : nat)
    (os : list FreeRect) : bool :=
  match os with
  | [] => false
  | o :: os' =>
      if Nat.eqb i j then containedInOther i r (S j) os'
      else if containedIn r o then true
      else containedInOther i r (S j) os'
  end.

Fixpoint removeDuplicateRectsFrom (rects : list FreeRect) (i : nat)
    (rest : list FreeRect) : list FreeRect :=
  match rest with
  | [] => []
  | r :: rest' =>
      let contained := containedInOther i r 0 rects in
      if negb contained && Qltb 0 (fw r) && Qltb 0 (fh r)
      then r :: removeDuplicateRectsFrom rects (S i) rest'
      else removeDuplicateRectsFrom rects (S i) rest'
  end.

Definition removeDuplicateRects (rects : list FreeRect) : list FreeRect :=
  removeDuplicateRectsFrom rects 0 rects.

(** The body of the loop of [updateFreeRects]; [occW] and [occH] are the
    computed [placement.w + kerf] and [placement.h + kerf]. *)
Definition splitFree (occX occY occW occH : Q) (f : FreeRect)
    : list FreeRect :=
  if Qleb (fl (fx f + fw f)) occX || Qleb (fl (occX + occW)) (fx f) ||
     Qleb (fl (fy f + fh f)) occY || Qleb (fl (occY + occH)) (fy f)
  then [f]
  else
    (if Qltb (fx f) occX
     then [ {| fx := fx f; fy := fy f; fw := fl (occX - fx f); fh := fh f |} ]
     else []) ++
    (if Qltb (fl (occX + occW)) (fl (fx f + fw f))
     then [ {| fx := fl (occX + occW); fy := fy f;
               fw := fl (fl (fx f + fw f) - fl (occX + occW));
               fh := fh f |} ]
     else []) ++
    (if Qltb (fy f) occY
     then [ {| fx := fx f; fy := fy f; fw := fw f; fh := fl (occY - fy f) |} ]
     else []) ++
    (if Qltb (fl (occY + occH)) (fl (fy f + fh f))
     then [ {| fx := fx f; fy := fl (occY + occH); fw := fw f;
               fh := fl (fl (fy f + fh f) - fl (occY + occH)) |} ]
     else []).

Definition updateFreeRects (s : Sheet) (placement : Placement) : Sheet :=
  let kerf := s_kerf s in
  let occX := p_x placement in
  let occY := p_y placement in
  let occW := fl (p_w placement + kerf) in
  let occH := fl (p_h placement + kerf) in
  let newFree := flat_map (splitFree occX occY occW occH) (freeRects s) in
  withFreeRects s (removeDuplicateRects newFree).

Definition addPlacement (s : Sheet) (rect : Rectangle) (x y : Q)
    (rotated : bool) : Sheet :=
  let p := makePlacement rect x y rotated in
  let s1 := {| s_w := s_w s; s_h := s_h s; s_index := s_index s;
               s_kerf := s_kerf s; placements := placements s ++ [p];
               freeRects := freeRects s |} in
  updateFreeRects s1 p.

(** [Math.min(f.w - rectW, f.h - rectH)] on the computed differences. *)
Definition tryFreeRect (rectW rectH : Q)
    (st : option Position * option Q) (f : FreeRect)
    : option Position * option Q :=
  let st1 :=
    if Qleb rectW (fw f) && Qleb rectH (fh f) then
      let score := Qmin (fl (fw f - rectW)) (fl (fh f - rectH)) in
      if scoreBelow score (snd st)
      then (Some {| pos_x := fx f; pos_y := fy f; pos_rotated := false |},
            Some score)
      else st
    else st in
  if Qleb rectH (fw f) && Qleb rectW (fh f) then
    let score2 := Qmin (fl (fw f - rectH)) (fl (fh f - rectW)) in
    if scoreBelow score2 (snd st1)
    then (Some {| pos_x := fx f; pos_y := fy f; pos_rotated := true |},
          Some score2)
    else st1
  else st1.

Definition findBestPosition (s : Sheet) (rectW rectH kerf : Q)
    : option Position :=
  fst (fold_left (tryFreeRect rectW rectH) (freeRects s) (None, None)).

(** The comparator of the sort, on the computed areas. *)
Definition compareRects (a b : Rectangle) : Q :=
  let areaA := fl (rect_w a * rect_h a) in
  let areaB := fl (rect_w b * rect_h b) in
  if negb (Qeq_bool areaB areaA) then fl (areaB - areaA)
  else fl (Qmax (rect_w b) (rect_h b) - Qmax (rect_w a) (rect_h a)).

Fixpoint insertRect (x : Rectangle) (l : list Rectangle) : list Rectangle :=
  match l with
  | [] => [x]
  | y :: l' =>
      if Qleb (compareRects x y) 0 then x :: y :: l'
      else y :: insertRect x l'
  end.

Definition sortRects (l : list Rectangle) : list Rectangle :=
  fold_right insertRect [] l.

Fixpoint placeOnExisting (rect : Rectangle) (kerf : Q) (sheets : list Sheet)
    : option (list Sheet) :=
  match sheets with
  | [] => None
  | sh :: rest =>
      match findBestPosition sh (rect_w rect) (rect_h rect) kerf with
      | Some pos =>
          Some (addPlacement sh rect (pos_x pos) (pos_y pos) (pos_rotated pos)
                  :: rest)
      | None =>
          match placeOnExisting rect kerf rest with
          | Some rest' => Some (sh :: rest')
          | None => None
          end
      end
  end.

Definition placeRect (sheetW sheetL kerf : Q) (st : NestResult)
    (rect : Rectangle) : NestResult :=
  if negb (partFits (rect_w rect) (rect_h rect) sheetW sheetL) then
    {| sheets := sheets st; unplaced := unplaced st ++ [rect] |}
  else
    match placeOnExisting rect kerf (sheets st) with
    | Some sheets' => {| sheets := sheets'; unplaced := unplaced st |}
    | None =>
        let newSh :=
          newSheet sheetW sheetL (List.length (sheets st) + 1) kerf in
        match findBestPosition newSh (rect_w rect) (rect_h rect) kerf with
        | Some pos2 =>
            {| sheets := sheets st ++
                 [ addPlacement newSh rect (pos_x pos2) (pos_y pos2)
                     (pos_rotated pos2) ];
               unplaced := unplaced st |}
        | None => st
        end
    end.

Definition nestParts (parts : list Part) (sheetW sheetL kerf : Q)
    : NestResult :=
  let rects := sortRects (expandParts parts) in
  fold_left (placeRect sheetW sheetL kerf) rects
            {| sheets := []; unplaced := [] |}.

End Rounded.

(** ** Vocabulary for the double-precision run *)

Module DyadicVocabulary.
Import Optimize Binary64.

(** The area the comparator of the sort computes. *)
Definition computedArea (r : Rectangle) : Q := fl (rect_w r * rect_h r).

Definition longerSide (r : Rectangle) : Q := Qmax (rect_w r) (rect_h r).

(** The order of the sort of [nestParts]: larger computed area first, and
    among equal computed areas the longer side first. *)
Definition sortsAhead (a b : Rectangle) : Prop :=
  computedArea b < computedArea a \/
  (computedArea b == computedArea a /\ longerSide b <= longerSide a).

(** [x] is a multiple of [2^-g]. *)
Definition onGrid (g : nat) (x : Q) : Prop :=
  exists n : Z, x == inject_Z n / inject_Z (2 ^ Z.of_nat g).

(** The largest dimension of a range, [2^b]. *)
Definition top (b : nat) : Q := inject_Z (2 ^ Z.of_nat b).

(** [x] is a multiple of [2^-g] between 0 and [2^b]. *)
Definition dyadic (g b : nat) (x : Q) : Prop :=
  onGrid g x /\ 0 <= x /\ x <= top b.

(** A rectangle with grid coordinates and non-negative extent that lies on
    the sheet. *)
Definition gridRect (g : nat) (sheetW sheetL : Q) (f : FreeRect) : Prop :=
  (onGrid g (fx f) /\ onGrid g (fy f) /\ onGrid g (fw f) /\ onGrid g (fh f))
  /\ (0 <= fx f /\ 0 <= fy f /\ 0 <= fw f /\ 0 <= fh f)
  /\ (fx f + fw f <= sheetW /\ fy f + fh f <= sheetL).

(** The free rectangles of a sheet are grid rectangles and the sheet has
    the kerf of the run. *)
Definition gridSheet (g : nat) (sheetW sheetL kerf : Q) (sh : Sheet) : Prop :=
  s_kerf sh = kerf /\ Forall (gridRect g sheetW sheetL) (freeRects sh).

(** The dimensions of a part or rectangle are dyadic. *)
Definition dyadicPart (g b : nat) (p : Part) : Prop :=
  dyadic g b (part_w p) /\ dyadic g b (part_l p).

Definition dyadicRect (g b : nat) (r : Rectangle) : Prop :=
  dyadic g b (rect_w r) /\ dyadic g b (rect_h r).

(** A call of [nestParts] whose sheet, kerf and part dimensions are all
    multiples of [2^-g] between 0 and [2^b], with [g] and [b] small enough
    for sums, differences and areas to need at most 53 bits. *)
Definition dyadicCall (g b : nat) (parts : list Part)
    (sheetW sheetL kerf : Q) : Prop :=
  (2 * (b + g) <= 52)%nat /\
  dyadic g b sheetW /\ dyadic g b sheetL /\ dyadic g b kerf /\
  Forall (dyadicPart g b) parts.

(** The free rectangles and the placements of a sheet start at
    non-negative coordinates, and the sheet has the kerf of the run. *)
Definition fromOrigin (kerf : Q) (sh : Sheet) : Prop :=
  s_kerf sh = kerf /\
  Forall (fun f => 0 <= fx f /\ 0 <= fy f) (freeRects sh) /\
  Forall (fun p => 0 <= p_x p /\ 0 <= p_y p) (placements sh).

Definition nonNegative (r : Rectangle) : Prop :=
  0 <= rect_w r /\ 0 <= rect_h r.

End DyadicVocabulary.

(** * Properties *)

(** ** The boolean comparisons decide the rational order *)

Lemma Qleb_true a b : Qleb a b = true <-> a <= b.
Proof. apply Qle_bool_iff. Qed.

Lemma Qleb_false a b : Qleb a b = false <-> b < a.
Proof.
  unfold Qleb. split; intros H.
  - apply Qnot_le_lt. intros Hle. apply Qle_bool_iff in Hle. congruence.
  - destruct (Qle_bool a b) eqn:E; [|reflexivity].
    apply Qle_bool_iff in E. exfalso. apply (Qlt_not_le _ _ H E).
Qed.

Lemma Qltb_true a b : Qltb a b = true <-> a < b.
Proof.
  unfold Qltb. rewrite negb_true_iff. apply (Qleb_false b a).
Qed.

Lemma Qltb_false a b : Qltb a b = false <-> b <= a.
Proof.
  unfold Qltb. rewrite negb_false_iff. apply Qle_bool_iff.
Qed.

(** Turns every boolean comparison of the context and goal into its
    proposition, ready for [lra]. *)
Ltac qbool :=
  repeat match goal with
  | H : _ && _ = true |- _ => apply andb_true_iff in H; destruct H
  | H : _ || _ = false |- _ => apply orb_false_iff in H; destruct H
  | H : Qleb _ _ = true |- _ => apply Qleb_true in H
  | H : Qleb _ _ = false |- _ => apply Qleb_false in H
  | H : Qltb _ _ = true |- _ => apply Qltb_true in H
  | H : Qltb _ _ = false |- _ => apply Qltb_false in H
  end.

(** ** The oversize splitter *)

Module EstimateFacts.
Import Estimate.

(** The count only grows in the refinement loop, by one per failed
    attempt, and [tries] counts the failed attempts. *)
Lemma refineCount_steps fuel : forall tries dim maxDim seamGap count,
  let r := refineCount fuel tries dim maxDim seamGap count in
  (tries <= snd r <= tries + fuel)%nat /\
  fst r = (count + Z.of_nat (snd r - tries))%Z.
Proof.
  induction fuel as [|fuel IH]; intros tries dim maxDim seamGap count; simpl.
  - split; [lia|]. replace (tries - tries)%nat with 0%nat by lia. lia.
  - destruct (Qleb (pieceSize dim seamGap count) maxDim &&
              Qltb (1#2) (pieceSize dim seamGap count)); simpl.
    + split; [lia|]. replace (tries - tries)%nat with 0%nat by lia. lia.
    + destruct (IH (S tries) dim maxDim seamGap (count + 1)%Z) as [Hb He].
      split; [lia|]. rewrite He. lia.
Qed.

(** Leaving the loop before the cap means the last attempt succeeded. *)
Lemma refineCount_converged fuel : forall tries dim maxDim seamGap count,
  let r := refineCount fuel tries dim maxDim seamGap count in
  (snd r < tries + fuel)%nat ->
  pieceSize dim seamGap (fst r) <= maxDim /\
  1#2 < pieceSize dim seamGap (fst r).
Proof.
  induction fuel as [|fuel IH]; intros tries dim maxDim seamGap count; simpl.
  - lia.
  - destruct (Qleb (pieceSize dim seamGap count) maxDim &&
              Qltb (1#2) (pieceSize dim seamGap count)) eqn:E; simpl.
    + intros _. qbool. split; assumption.
    + intros H. apply IH. lia.
Qed.

(** The initial estimate [Math.ceil(splitDim / maxStripDim)] is at least 1
    for a positive dimension, so no count of the loop is zero. *)
Lemma initial_count_pos (splitDim maxDim : Q) :
  0 < splitDim -> 0 < maxDim -> (1 <= Qceiling (splitDim / maxDim))%Z.
Proof.
  intros Hs Hm.
  assert (Hq : 0 < splitDim / maxDim).
  { apply Qlt_shift_div_l; [assumption | lra]. }
  pose proof (Qle_ceiling (splitDim / maxDim)) as Hc.
  assert (Hz : inject_Z 0 < inject_Z (Qceiling (splitDim / maxDim))).
  { change (inject_Z 0) with 0. lra. }
  rewrite <- Zlt_Qlt in Hz. lia.
Qed.

(** [count] pieces of size [pieceSize dim seamGap count] and the gaps
    between them add up to [dim]. *)
Lemma pieceSize_reconstructs (dim seamGap : Q) (count : Z) :
  (count <> 0)%Z ->
  inject_Z count * pieceSize dim seamGap count
    + inject_Z (count - 1) * seamGap == dim.
Proof.
  intros Hc. unfold pieceSize.
  assert (Hq : ~ inject_Z count == 0).
  { intros H. apply Hc. apply inject_Z_injective. exact H. }
  field. exact Hq.
Qed.

(** Inversion of a non-null result of [calcStripLayout]. *)
Lemma calcStripLayout_Some splitDim keepDim stockW stockL seamGap r :
  calcStripLayout splitDim keepDim stockW stockL seamGap = Some r ->
  let maxStripDim := maxStripDimFor keepDim stockW stockL in
  let n := fst (stripRefinement splitDim keepDim stockW stockL seamGap) in
  (keepDim <= stockW \/ keepDim <= stockL) /\
  0 < maxStripDim /\
  r = {| stripSize := pieceSize splitDim seamGap n; keepDim := keepDim;
         stripCount := n |} /\
  0 < pieceSize splitDim seamGap n <= maxStripDim.
Proof.
  unfold calcStripLayout. intros H.
  destruct (negb (Qleb keepDim stockW) && negb (Qleb keepDim stockL)) eqn:Ek;
    [discriminate|].
  destruct (Qleb (maxStripDimFor keepDim stockW stockL) 0) eqn:Em;
    [discriminate|].
  match type of H with
  | (if ?c then _ else _) = _ => destruct c eqn:Es; [discriminate|]
  end.
  injection H as <-. qbool.
  repeat split; try assumption; try reflexivity.
  apply andb_false_iff in Ek.
  destruct Ek as [Ek|Ek]; apply negb_false_iff in Ek; qbool; auto.
Qed.

(** The embedding on the scenarios of the specification. *)
Example scenarioB_fits :
  fitOrSplit 48 96 48 96 (1#8) true = wholeResult 48 96 true None false.
Proof. reflexivity. Qed.

Example scenarioD_no_split :
  fitOrSplit 60 110 48 96 (1#8) false
    = wholeResult 60 110 false
        (Some "exceeds stock (seams not allowed)"%string) true.
Proof. reflexivity. Qed.

Example grid_split_100_by_110 :
  let res := fitOrSplit 100 110 48 96 (1#8) true in
  calcStripLayout 100 110 48 96 (1#8) = None /\
  calcStripLayout 110 100 48 96 (1#8) = None /\
  res_stripCount res = 6%Z /\
  warning res = Some "will be split into 3×2 grid (6 pieces)"%string /\
  map piece_suffix (pieces res)
    = [" [1/6]"; " [2/6]"; " [3/6]"; " [4/6]"; " [5/6]"; " [6/6]"]%string.
Proof. repeat split; reflexivity. Qed.

(** C6.  Split reconstruction: for every non-null result of
    [calcStripLayout] on a positive split dimension, with strip count [N]
    and strip size [s], [N * s + (N - 1) * seamGap] equals [splitDim]
    (exactly, in rational arithmetic), and [s] is at most the maximum strip
    dimension derived from [keepDim] and the stock rectangle. *)
Theorem calcStripLayout_reconstructs
    (splitDim keepDim stockW stockL seamGap : Q) (r : StripLayout) :
  0 < splitDim ->
  calcStripLayout splitDim keepDim stockW stockL seamGap = Some r ->
  inject_Z (stripCount r) * stripSize r
    + inject_Z (stripCount r - 1) * seamGap == splitDim /\
  stripSize r <= maxStripDimFor keepDim stockW stockL.
Proof.
  intros Hpos H.
  destruct (calcStripLayout_Some _ _ _ _ _ _ H) as (_ & Hm & -> & Hs).
  cbn [stripCount stripSize]. split; [|apply Hs].
  apply pieceSize_reconstructs.
  unfold stripRefinement.
  pose proof (refineCount_steps 10 0 splitDim
                (maxStripDimFor keepDim stockW stockL) seamGap
                (Qceiling (splitDim / maxStripDimFor keepDim stockW stockL)))
    as [_ He].
  pose proof (initial_count_pos splitDim _ Hpos Hm).
  cbv zeta in He. lia.
Qed.

(** The reconstruction at the 200-inch split of a 96 x 200 part on
    48 x 96 stock with kerf 1/8. *)
Lemma calcStripLayout_reconstructs_witness :
  exists r,
    calcStripLayout 200 96 48 96 (1#8) = Some r /\
    inject_Z (stripCount r) * stripSize r
      + inject_Z (stripCount r - 1) * (1#8) == 200 /\
    stripSize r <= maxStripDimFor 96 48 96.
Proof.
  eexists. split; [reflexivity|].
  apply (calcStripLayout_reconstructs 200 96 48 96 (1#8)).
  - reflexivity.
  - reflexivity.
Defined.

(** C7.  For an oversized part for which both strip options exist (and
    splitting is requested), [fitOrSplit] returns the strip split with the
    smaller strip count; when the two counts are equal it returns the
    width-axis split. *)
Theorem fitOrSplit_fewer_strips
    (partW partL stockW stockL seamGap : Q) (a b : StripLayout) :
  partFitsStock partW partL stockW stockL = false ->
  calcStripLayout partW partL stockW stockL seamGap = Some a ->
  calcStripLayout partL partW stockW stockL seamGap = Some b ->
  res_stripCount (fitOrSplit partW partL stockW stockL seamGap true)
    = Z.min (stripCount a) (stripCount b) /\
  ((stripCount a < stripCount b)%Z ->
   fitOrSplit partW partL stockW stockL seamGap true
     = stripResult a AxisWidth) /\
  ((stripCount b < stripCount a)%Z ->
   fitOrSplit partW partL stockW stockL seamGap true
     = stripResult b AxisLength) /\
  (stripCount a = stripCount b ->
   fitOrSplit partW partL stockW stockL seamGap true
     = stripResult a AxisWidth).
Proof.
  intros Hfit Ha Hb. unfold fitOrSplit.
  rewrite Hfit, Ha, Hb. cbn [negb chooseStrip].
  destruct (Z.leb_spec (stripCount a) (stripCount b)) as [Hle|Hlt];
    cbn [res_stripCount stripResult].
  - repeat split; intros; try reflexivity; lia.
  - repeat split; intros; try reflexivity; lia.
Qed.

(** A 60 x 90 part on 48 x 96 stock: both options need two strips, and the
    width-axis split is returned. *)
Lemma fitOrSplit_fewer_strips_witness :
  exists a b,
    calcStripLayout 60 90 48 96 (1#8) = Some a /\
    calcStripLayout 90 60 48 96 (1#8) = Some b /\
    stripCount a = stripCount b /\
    fitOrSplit 60 90 48 96 (1#8) true = stripResult a AxisWidth.
Proof.
  eexists. eexists.
  split; [reflexivity|]. split; [reflexivity|]. split; [reflexivity|].
  apply (proj2 (proj2 (proj2
           (fitOrSplit_fewer_strips 60 90 48 96 (1#8) _ _
              eq_refl eq_refl eq_refl)))).
  reflexivity.
Defined.

(** C4 does not hold as stated: on the part 96 x 200 with stock
    48 x 96 and kerf 1/8, [fitOrSplit] does not produce 3 strips of width
    96 and length about 66.583. *)
Lemma scenarioA_not_three_strips :
  let res := fitOrSplit 96 200 48 96 (1#8) true in
  ~ (res_stripCount res = 3%Z /\
     List.length (pieces res) = 3%nat /\
     Forall (fun p => piece_w p == 96 /\
                      Qabs (piece_l p - (200 - 2 * (1#8)) / 3) <= 1#1000)
            (pieces res)).
Proof.
  intros res [H _]. vm_compute in H. discriminate.
Qed.

(** C4, amended.  On the part 96 x 200 with stock 48 x 96, kerf 1/8 and
    splitting allowed, [fitOrSplit] returns a strip split along the
    200-inch (length) axis into exactly 5 strips: the kept 96-inch side
    takes the 96-inch stock axis, which leaves 48 inches for a strip, so
    each piece has width 96 and length (200 - 4 * 0.125) / 5 = 39.9. *)
Theorem scenarioA_five_strips :
  let res := fitOrSplit 96 200 48 96 (1#8) true in
  calcStripLayout 96 200 48 96 (1#8) = None /\
  res = stripResult {| stripSize := pieceSize 200 (1#8) 5; keepDim := 96;
                       stripCount := 5 |} AxisLength /\
  res_stripCount res = 5%Z /\
  List.length (pieces res) = 5%nat /\
  Forall (fun p => piece_w p == 96 /\ piece_l p == 399 # 10) (pieces res) /\
  map piece_suffix (pieces res)
    = [" [1/5]"; " [2/5]"; " [3/5]"; " [4/5]"; " [5/5]"]%string /\
  warning res = Some "will be split into 5 pieces"%string.
Proof.
  cbv zeta.
  split; [reflexivity|]. split; [reflexivity|]. split; [reflexivity|].
  split; [reflexivity|]. split; [|split; reflexivity].
  repeat constructor.
Qed.




(** [calcGridLayout] keeps an orientation only when both final piece sizes
    are above 0.5 and fit the stock in that orientation. *)
Lemma gridOrientation_valid partW partL seamGap best o g :
  gridOrientation partW partL seamGap best o = Some g ->
  best = Some g \/
  (1#2 < pieceW g /\ 1#2 < pieceL g /\
   pieceW g <= fst o /\ pieceL g <= snd o).
Proof.
  unfold gridOrientation.
  set (c := fst (refineCount 10 0 partW (fst o) seamGap _)).
  set (r := fst (refineCount 10 0 partL (snd o) seamGap _)).
  destruct (Qltb (1#2) (pieceSize partW seamGap c) &&
            Qltb (1#2) (pieceSize partL seamGap r) &&
            Qleb (pieceSize partW seamGap c) (fst o) &&
            Qleb (pieceSize partL seamGap r) (snd o)) eqn:E.
  - qbool. destruct best as [b|].
    + destruct (c * r <? total b)%Z; intros Hg.
      * injection Hg as <-. right. cbn [pieceW pieceL]. tauto.
      * left. exact Hg.
    + intros Hg. injection Hg as <-. right. cbn [pieceW pieceL]. tauto.
  - intros Hg. left. exact Hg.
Qed.

Lemma calcGridLayout_valid partW partL stockW stockL seamGap g :
  calcGridLayout partW partL stockW stockL seamGap = Some g ->
  1#2 < pieceW g /\ 1#2 < pieceL g /\
  ((pieceW g <= stockW /\ pieceL g <= stockL) \/
   (pieceW g <= stockL /\ pieceL g <= stockW)).
Proof.
  unfold calcGridLayout. cbn [fold_left]. intros H.
  apply gridOrientation_valid in H. cbn [fst snd] in H.
  destruct H as [H|H]; [|tauto].
  apply gridOrientation_valid in H. cbn [fst snd] in H.
  destruct H as [H|H]; [discriminate|tauto].
Qed.

End EstimateFacts.

(** ** Pruning of contained free rectangles *)

Module OptimizeFacts.
Import Optimize Geometry.

Lemma containedIn_within r o : containedIn r o = true <-> within r o.
Proof.
  unfold containedIn, within. split.
  - intros H. qbool. tauto.
  - intros (H1 & H2 & H3 & H4).
    apply Qleb_true in H1, H2, H3, H4. rewrite H1, H2, H3, H4. reflexivity.
Qed.

(** [rectsOverlap] decides whether two rectangles share a point. *)
Lemma rectsOverlap_covers a b :
  rectsOverlap a b = true <-> exists u v, covers a u v /\ covers b u v.
Proof.
  unfold rectsOverlap, covers. split.
  - intros H. qbool.
    match goal with
    | Hx : Qmax (fx a) _ < _, Hy : Qmax (fy a) _ < _ |- _ =>
        apply Q.min_glb_lt_iff in Hx, Hy;
        destruct Hx as [Hx1 Hx2], Hy as [Hy1 Hy2]
    end.
    exists (Qmax (fx a) (fx b)), (Qmax (fy a) (fy b)).
    pose proof (Q.le_max_l (fx a) (fx b)).
    pose proof (Q.le_max_r (fx a) (fx b)).
    pose proof (Q.le_max_l (fy a) (fy b)).
    pose proof (Q.le_max_r (fy a) (fy b)).
    tauto.
  - intros (u & v & (A1 & A2 & A3 & A4) & (B1 & B2 & B3 & B4)).
    assert (Hx : Qmax (fx a) (fx b) < Qmin (fx a + fw a) (fx b + fw b)).
    { apply Q.min_glb_lt_iff. split; apply Q.max_lub_lt_iff; split; lra. }
    assert (Hy : Qmax (fy a) (fy b) < Qmin (fy a + fh a) (fy b + fh b)).
    { apply Q.min_glb_lt_iff. split; apply Q.max_lub_lt_iff; split; lra. }
    apply Qltb_true in Hx, Hy. rewrite Hx, Hy. reflexivity.
Qed.

Lemma sameRect_containedIn a b : sameRect a b -> containedIn a b = true.
Proof.
  intros (Hx & Hy & Hw & Hh). apply containedIn_within.
  unfold within. repeat split; lra.
Qed.

(** When the inner loop finds no container, no rectangle at another
    position contains [r]. *)
Lemma containedInOther_false i r : forall os j,
  containedInOther i r j os = false ->
  forall k o, nth_error os k = Some o -> (j + k)%nat <> i ->
  containedIn r o = false.
Proof.
  induction os as [|o' os IH]; intros j H k o Hk Hne.
  - destruct k; discriminate.
  - cbn [containedInOther] in H.
    destruct k as [|k].
    + injection Hk as ->.
      destruct (Nat.eqb_spec i j) as [->|_]; [lia|].
      destruct (containedIn r o); [discriminate|reflexivity].
    + cbn [nth_error] in Hk.
      assert (H' : containedInOther i r (S j) os = false).
      { destruct (i =? j)%nat; [exact H|].
        destruct (containedIn r o'); [discriminate|exact H]. }
      apply (IH (S j) H' k o Hk). lia.
Qed.

(** Every output rectangle is a kept input rectangle, at a position that
    is not before its output position. *)
Lemma removeDuplicateRectsFrom_nth rects : forall rest i a r,
  (forall k, nth_error rest k = nth_error rects (i + k)) ->
  nth_error (removeDuplicateRectsFrom rects i rest) a = Some r ->
  exists k, (a <= k)%nat /\ kept rects (i + k) r.
Proof.
  induction rest as [|r0 rest IH]; intros i a r Hrest H.
  - destruct a; discriminate.
  - cbn [removeDuplicateRectsFrom] in H.
    assert (Hrest' : forall k, nth_error rest k = nth_error rects (S i + k)).
    { intros k. specialize (Hrest (S k)). cbn [nth_error] in Hrest.
      rewrite Hrest. f_equal. lia. }
    assert (Hhead : nth_error rects i = Some r0).
    { specialize (Hrest 0%nat). rewrite Nat.add_0_r in Hrest.
      symmetry. exact Hrest. }
    destruct (negb (containedInOther i r0 0 rects) && Qltb 0 (fw r0)
              && Qltb 0 (fh r0)) eqn:E.
    + destruct a as [|a].
      * injection H as <-. exists 0%nat. split; [lia|].
        qbool. unfold kept. rewrite Nat.add_0_r.
        repeat split; try assumption.
        match goal with
        | Hn : negb _ = true |- _ => apply negb_true_iff in Hn; exact Hn
        end.
      * cbn [nth_error] in H.
        destruct (IH (S i) a r Hrest' H) as (k & Hk & Hkept).
        exists (S k). split; [lia|].
        replace (i + S k)%nat with (S i + k)%nat by lia. exact Hkept.
    + destruct (IH (S i) a r Hrest' H) as (k & Hk & Hkept).
      exists (S k). split; [lia|].
      replace (i + S k)%nat with (S i + k)%nat by lia. exact Hkept.
Qed.

(** Two output positions come from two input positions in the same
    order. *)
Lemma removeDuplicateRectsFrom_pair rects : forall rest i a b ra rb,
  (forall k, nth_error rest k = nth_error rects (i + k)) ->
  (a < b)%nat ->
  nth_error (removeDuplicateRectsFrom rects i rest) a = Some ra ->
  nth_error (removeDuplicateRectsFrom rects i rest) b = Some rb ->
  exists ka kb, (ka < kb)%nat /\ kept rects ka ra /\ kept rects kb rb.
Proof.
  induction rest as [|r0 rest IH]; intros i a b ra rb Hrest Hab Ha Hb.
  - destruct a; discriminate.
  - assert (Hrest' : forall k, nth_error rest k = nth_error rects (S i + k)).
    { intros k. specialize (Hrest (S k)). cbn [nth_error] in Hrest.
      rewrite Hrest. f_equal. lia. }
    assert (Hhead : nth_error rects i = Some r0).
    { specialize (Hrest 0%nat). rewrite Nat.add_0_r in Hrest.
      symmetry. exact Hrest. }
    pose proof (removeDuplicateRectsFrom_nth rects (r0 :: rest) i a ra
                  Hrest Ha) as Hfirst.
    cbn [removeDuplicateRectsFrom] in Ha, Hb.
    destruct (negb (containedInOther i r0 0 rects) && Qltb 0 (fw r0)
              && Qltb 0 (fh r0)) eqn:E.
    + destruct b as [|b]; [lia|]. cbn [nth_error] in Hb.
      destruct a as [|a].
      * injection Ha as <-.
        destruct (removeDuplicateRectsFrom_nth rects rest (S i) b rb
                    Hrest' Hb) as (kb & _ & Hkb).
        exists i, (S i + kb)%nat. split; [lia|]. split; [|exact Hkb].
        qbool. unfold kept.
        repeat split; try assumption.
        match goal with
        | Hn : negb _ = true |- _ => apply negb_true_iff in Hn; exact Hn
        end.
      * cbn [nth_error] in Ha.
        apply (IH (S i) a b ra rb Hrest'); [lia|assumption|assumption].
    + apply (IH (S i) a b ra rb Hrest'); assumption.
Qed.

Lemma removeDuplicateRects_nth rects a r :
  nth_error (removeDuplicateRects rects) a = Some r ->
  exists k, kept rects k r.
Proof.
  intros H.
  destruct (removeDuplicateRectsFrom_nth rects rects 0 a r
              (fun k => eq_refl) H) as (k & _ & Hk).
  exists k. exact Hk.
Qed.

Lemma removeDuplicateRects_In rects r :
  In r (removeDuplicateRects rects) -> In r rects /\ 0 < fw r /\ 0 < fh r.
Proof.
  intros H. apply In_nth_error in H. destruct H as [a Ha].
  destruct (removeDuplicateRects_nth rects a r Ha) as (k & Hk & _ & Hw & Hh).
  split; [|split; assumption]. eapply nth_error_In. exact Hk.
Qed.

(** A kept rectangle is not contained in a kept rectangle of another
    position. *)
Lemma kept_not_contained rects ka kb ra rb :
  ka <> kb -> kept rects ka ra -> kept rects kb rb ->
  containedIn ra rb = false.
Proof.
  intros Hne (_ & Ha & _) (Hb & _).
  apply (containedInOther_false ka ra rects 0%nat Ha kb rb Hb). lia.
Qed.

(** C9.  When the input of [removeDuplicateRects] holds two rectangles
    with identical [x], [y], [w] and [h] at two positions, no rectangle
    with these coordinates is in the output: each copy is contained in the
    other.  The output can therefore cover less than the input: for a
    rectangle of positive area listed twice, it is empty. *)
Theorem removeDuplicateRects_drops_twins :
  (forall (rects : list FreeRect) (i j : nat) (r1 r2 : FreeRect),
     i <> j ->
     nth_error rects i = Some r1 ->
     nth_error rects j = Some r2 ->
     sameRect r1 r2 ->
     forall r, In r (removeDuplicateRects rects) -> ~ sameRect r r1) /\
  (forall r : FreeRect, removeDuplicateRects [r; r] = []).
Proof.
  split.
  - intros rects i j r1 r2 Hne Hi Hj Hsame r Hin Hr.
    apply In_nth_error in Hin. destruct Hin as [a Ha].
    destruct (removeDuplicateRects_nth rects a r Ha) as (k & Hk & Hno & _).
    destruct (Nat.eq_dec k i) as [->|Hki].
    + assert (Hc : containedIn r r2 = false).
      { apply (containedInOther_false i r rects 0%nat Hno j r2 Hj). lia. }
      rewrite sameRect_containedIn in Hc; [discriminate|].
      destruct Hr as (? & ? & ? & ?), Hsame as (? & ? & ? & ?).
      unfold sameRect. repeat split; lra.
    + assert (Hc : containedIn r r1 = false).
      { apply (containedInOther_false k r rects 0%nat Hno i r1 Hi). lia. }
      rewrite sameRect_containedIn in Hc; [discriminate|exact Hr].
  - intros r. unfold removeDuplicateRects.
    cbn [removeDuplicateRectsFrom containedInOther Nat.eqb].
    assert (Hc : containedIn r r = true).
    { apply sameRect_containedIn. unfold sameRect. repeat split; lra. }
    rewrite Hc. reflexivity.
Qed.

(** The whole 10 x 10 sheet listed twice: both copies go, nothing is
    left. *)
Lemma removeDuplicateRects_drops_twins_witness :
  let r := {| fx := 0; fy := 0; fw := 10; fh := 10 |} in
  (forall r', In r' (removeDuplicateRects [r; r]) -> ~ sameRect r' r) /\
  removeDuplicateRects [r; r] = [].
Proof.
  intros r. split.
  - apply (proj1 removeDuplicateRects_drops_twins [r; r] 0%nat 1%nat r r).
    + discriminate.
    + reflexivity.
    + reflexivity.
    + unfold sameRect. repeat split; reflexivity.
  - reflexivity.
Defined.

(** C3 does not hold as stated: after the first placement of
    [nestParts] (a 4 x 4 part on a 10 x 10 sheet, no kerf), the sheet has
    the free rectangles right of the part and below it, and they share the
    square [[4, 10) x [4, 10)]. *)
Lemma free_rects_overlap_after_update :
  exists sh f g,
    sheets (nestParts [ mkPart "a" 1 4 4 None None None ] 10 10 0) = [sh] /\
    nth_error (freeRects sh) 0 = Some f /\
    nth_error (freeRects sh) 1 = Some g /\
    rectsOverlap f g = true /\
    rectsOverlap f {| fx := 4; fy := 4; fw := 6; fh := 6 |} = true /\
    within {| fx := 4; fy := 4; fw := 6; fh := 6 |} f /\
    within {| fx := 4; fy := 4; fw := 6; fh := 6 |} g.
Proof.
  eexists. eexists. eexists.
  split; [reflexivity|]. split; [reflexivity|]. split; [reflexivity|].
  split; [reflexivity|]. split; [reflexivity|].
  split; vm_compute; repeat split; discriminate.
Qed.

(** C3, amended.  After every placement update ([updateFreeRects], which
    ends with [removeDuplicateRects]), every free rectangle of the sheet
    has positive width and height, and it does not lie within the free
    rectangle at any other position of the list.  (Free rectangles may
    overlap.) *)
Theorem updateFreeRects_no_containment
    (s : Sheet) (p : Placement) (a : nat) (fa : FreeRect) :
  nth_error (freeRects (updateFreeRects s p)) a = Some fa ->
  0 < fw fa /\ 0 < fh fa /\
  forall (b : nat) (fb : FreeRect),
    a <> b ->
    nth_error (freeRects (updateFreeRects s p)) b = Some fb ->
    ~ within fa fb.
Proof.
  unfold updateFreeRects. cbn [freeRects withFreeRects].
  set (newFree := flat_map _ (freeRects s)).
  intros Ha.
  assert (Hpos : 0 < fw fa /\ 0 < fh fa).
  { destruct (removeDuplicateRects_nth newFree a fa Ha) as (k & _ & _ & H).
    exact H. }
  split; [apply Hpos|]. split; [apply Hpos|].
  intros b fb Hne Hb.
  rewrite <- containedIn_within.
  assert (Hc : containedIn fa fb = false); [|rewrite Hc; discriminate].
  destruct (Nat.lt_total a b) as [Hlt|[Heq|Hlt]]; [|contradiction|].
  - destruct (removeDuplicateRectsFrom_pair newFree newFree 0 a b fa fb
                (fun k => eq_refl) Hlt Ha Hb) as (ka & kb & Hk & Hka & Hkb).
    apply (kept_not_contained newFree ka kb); [lia|assumption|assumption].
  - destruct (removeDuplicateRectsFrom_pair newFree newFree 0 b a fb fa
                (fun k => eq_refl) Hlt Hb Ha) as (kb & ka & Hk & Hkb & Hka).
    apply (kept_not_contained newFree ka kb); [lia|assumption|assumption].
Qed.

(** Two updates of a fresh 10 x 10 sheet.  A 10 x 4 part at the origin
    leaves one free rectangle, which is positive; a 4 x 4 part leaves two,
    and the first does not lie within the second. *)
Lemma updateFreeRects_no_containment_witness :
  let wide := newRectangle 10 4 0 "a" None None None in
  let small := newRectangle 4 4 0 "a" None None None in
  let s1 := updateFreeRects (newSheet 10 10 1 0)
              (makePlacement wide 0 0 false) in
  let s2 := updateFreeRects (newSheet 10 10 1 0)
              (makePlacement small 0 0 false) in
  (exists fa,
     freeRects s1 = [fa] /\ 0 < fw fa /\ 0 < fh fa) /\
  (exists fa fb,
     nth_error (freeRects s2) 0 = Some fa /\
     nth_error (freeRects s2) 1 = Some fb /\
     0 < fw fa /\ 0 < fh fa /\ ~ within fa fb).
Proof.
  intros wide small s1 s2. split.
  - eexists. split; [reflexivity|].
    destruct (updateFreeRects_no_containment (newSheet 10 10 1 0)
                (makePlacement wide 0 0 false) 0 _ eq_refl)
      as (Hw & Hh & _).
    split; assumption.
  - eexists. eexists.
    split; [reflexivity|]. split; [reflexivity|].
    destruct (updateFreeRects_no_containment (newSheet 10 10 1 0)
                (makePlacement small 0 0 false) 0 _ eq_refl)
      as (Hw & Hh & Hno).
    split; [exact Hw|]. split; [exact Hh|].
    apply (Hno 1%nat); [discriminate|reflexivity].
Defined.

(** The embedding on the scenarios of the specification. *)
Example scenarioC_one_sheet :
  let res := nestParts [ mkPart "a" 5 20 30 None None None ] 48 96 (1#8) in
  List.length (sheets res) = 1%nat /\
  map (fun sh => List.length (placements sh)) (sheets res) = [5%nat] /\
  unplaced res = [].
Proof. vm_compute. repeat split; reflexivity. Qed.

Example rotation_90_by_40 :
  let res := nestParts [ mkPart "a" 1 90 40 None None None ] 48 96 (1#8) in
  map (fun sh => map (fun p => (p_rotated p, Qred (p_w p), Qred (p_h p)))
                     (placements sh)) (sheets res)
    = [[(true, 40, 90)]].
Proof. vm_compute. reflexivity. Qed.

Example oversized_is_unplaced :
  let res := nestParts [ mkPart "a" 1 60 110 None None None ] 48 96 (1#8) in
  sheets res = [] /\ map rect_id (unplaced res) = [0%nat].
Proof. vm_compute. split; reflexivity. Qed.

(** ** The position search *)

(** One step of the search keeps a property of [best] that holds of the
    corner of [f] in each orientation in which the rectangle fits [f]. *)
Lemma tryFreeRect_best (G : Position -> Prop) rectW rectH st f :
  (forall pos, fst st = Some pos -> G pos) ->
  (rectW <= fw f -> rectH <= fh f ->
   G {| pos_x := fx f; pos_y := fy f; pos_rotated := false |}) ->
  (rectH <= fw f -> rectW <= fh f ->
   G {| pos_x := fx f; pos_y := fy f; pos_rotated := true |}) ->
  forall pos, fst (tryFreeRect rectW rectH st f) = Some pos -> G pos.
Proof.
  intros Hst Hn Hr pos. unfold tryFreeRect.
  destruct (Qleb rectH (fw f) && Qleb rectW (fh f)) eqn:Er;
    destruct (Qleb rectW (fw f) && Qleb rectH (fh f)) eqn:En;
    repeat match goal with
    | |- context [if scoreBelow ?a ?b then _ else _] =>
        destruct (scoreBelow a b)
    end;
    cbn [fst snd]; intros H; try (apply Hst; exact H);
    injection H as <-; qbool; auto.
Qed.

(** A position returned by [findBestPosition] is the corner of a free
    rectangle of the sheet in which the rectangle fits in the orientation
    returned. *)
Lemma findBestPosition_Some s rectW rectH kerf pos :
  findBestPosition s rectW rectH kerf = Some pos ->
  exists f, In f (freeRects s) /\
    pos_x pos = fx f /\ pos_y pos = fy f /\
    (if pos_rotated pos then rectH <= fw f /\ rectW <= fh f
     else rectW <= fw f /\ rectH <= fh f).
Proof.
  unfold findBestPosition.
  set (G := fun pos => exists f, In f (freeRects s) /\
    pos_x pos = fx f /\ pos_y pos = fy f /\
    (if pos_rotated pos then rectH <= fw f /\ rectW <= fh f
     else rectW <= fw f /\ rectH <= fh f)).
  assert (Hgen : forall l st,
    incl l (freeRects s) ->
    (forall p, fst st = Some p -> G p) ->
    forall p, fst (fold_left (tryFreeRect rectW rectH) l st) = Some p ->
              G p).
  { induction l as [|f l IH]; intros st Hincl Hst p; cbn [fold_left].
    - apply Hst.
    - apply IH.
      + intros x Hx. apply Hincl. right. exact Hx.
      + apply tryFreeRect_best; [exact Hst| |];
          intros H1 H2; exists f; cbn;
          (split; [apply Hincl; left; reflexivity|auto]). }
  apply (Hgen (freeRects s) (None, None)).
  - apply incl_refl.
  - intros p H. discriminate.
Qed.

(** On a sheet whose only free rectangle is the whole sheet, a rectangle
    that passes [partFits] gets the origin. *)
Lemma findBestPosition_fresh sheetW sheetL index kerf rectW rectH :
  partFits rectW rectH sheetW sheetL = true ->
  exists rotated,
    findBestPosition (newSheet sheetW sheetL index kerf) rectW rectH kerf
      = Some {| pos_x := 0; pos_y := 0; pos_rotated := rotated |}.
Proof.
  unfold partFits, findBestPosition, newSheet.
  cbn [freeRects fold_left]. unfold tryFreeRect.
  cbn [fw fh fx fy fst snd].
  intros H.
  destruct (Qleb rectW sheetW && Qleb rectH sheetL) eqn:En;
    destruct (Qleb rectH sheetW && Qleb rectW sheetL) eqn:Er;
    cbn [scoreBelow fst snd orb] in *.
  - match goal with
    | |- context [if ?c then _ else _] => destruct c
    end; eexists; reflexivity.
  - eexists; reflexivity.
  - eexists; reflexivity.
  - discriminate.
Qed.

(** ** The placing loop *)

Lemma placements_addPlacement s rect x y rotated :
  placements (addPlacement s rect x y rotated)
    = placements s ++ [makePlacement rect x y rotated].
Proof. reflexivity. Qed.

Lemma freeRects_addPlacement s rect x y rotated :
  freeRects (addPlacement s rect x y rotated)
    = removeDuplicateRects
        (flat_map (splitFree x y
                     (p_w (makePlacement rect x y rotated) + s_kerf s)
                     (p_h (makePlacement rect x y rotated) + s_kerf s))
                  (freeRects s)).
Proof. reflexivity. Qed.

(** C2.  In the placing loop of [nestParts], when a piece passes the
    raw-fit check and no existing sheet accepts it, [findBestPosition] on
    the freshly created sheet returns a position (the origin), the piece is
    placed on the new sheet and the new sheet is appended to the result;
    the branch that neither places nor records the piece is not taken. *)
Theorem fresh_sheet_accepts
    (sheetW sheetL kerf : Q) (st : NestResult) (rect : Rectangle) :
  partFits (rect_w rect) (rect_h rect) sheetW sheetL = true ->
  placeOnExisting rect kerf (sheets st) = None ->
  let newSh := newSheet sheetW sheetL (List.length (sheets st) + 1) kerf in
  exists rotated,
    findBestPosition newSh (rect_w rect) (rect_h rect) kerf
      = Some {| pos_x := 0; pos_y := 0; pos_rotated := rotated |} /\
    placeRect sheetW sheetL kerf st rect
      = {| sheets := sheets st ++ [addPlacement newSh rect 0 0 rotated];
           unplaced := unplaced st |} /\
    placements (addPlacement newSh rect 0 0 rotated)
      = [makePlacement rect 0 0 rotated].
Proof.
  intros Hfit Hnone newSh. subst newSh.
  destruct (findBestPosition_fresh sheetW sheetL
              (List.length (sheets st) + 1) kerf _ _ Hfit) as [rotated Hpos].
  exists rotated. split; [exact Hpos|]. split; [|reflexivity].
  unfold placeRect. rewrite Hfit, Hnone. cbn [negb].
  rewrite Hpos. reflexivity.
Qed.

(** The first rectangle of a run: a 20 x 30 piece on 48 x 96 stock goes
    to the new sheet 1. *)
Lemma fresh_sheet_accepts_witness :
  let rect := newRectangle 20 30 0 "a" None None None in
  let st := {| sheets := []; unplaced := [] |} in
  exists rotated,
    findBestPosition (newSheet 48 96 1 (1#8)) 20 30 (1#8)
      = Some {| pos_x := 0; pos_y := 0; pos_rotated := rotated |} /\
    placeRect 48 96 (1#8) st rect
      = {| sheets := [addPlacement (newSheet 48 96 1 (1#8)) rect 0 0 rotated];
           unplaced := [] |} /\
    placements (addPlacement (newSheet 48 96 1 (1#8)) rect 0 0 rotated)
      = [makePlacement rect 0 0 rotated].
Proof.
  intros rect st.
  exact (fresh_sheet_accepts 48 96 (1#8) st rect eq_refl eq_refl).
Defined.

(** A property of sheets that every placement made by the loop establishes
    or keeps holds of every sheet of the result. *)
Section SheetInvariant.

Variables sheetW sheetL kerf : Q.
Variable P : Sheet -> Prop.

Hypothesis P_existing : forall sh rect pos,
  P sh ->
  findBestPosition sh (rect_w rect) (rect_h rect) kerf = Some pos ->
  P (addPlacement sh rect (pos_x pos) (pos_y pos) (pos_rotated pos)).

Hypothesis P_fresh : forall index rect pos,
  findBestPosition (newSheet sheetW sheetL index kerf)
    (rect_w rect) (rect_h rect) kerf = Some pos ->
  P (addPlacement (newSheet sheetW sheetL index kerf) rect
       (pos_x pos) (pos_y pos) (pos_rotated pos)).

Lemma placeOnExisting_invariant rect : forall shs shs',
  Forall P shs ->
  placeOnExisting rect kerf shs = Some shs' ->
  Forall P shs'.
Proof.
  induction shs as [|sh shs IH]; intros shs' Hall H; cbn in H.
  - discriminate.
  - inversion Hall as [|? ? Hsh Hrest]; subst.
    destruct (findBestPosition sh (rect_w rect) (rect_h rect) kerf)
      as [pos|] eqn:Epos.
    + injection H as <-. constructor; [|exact Hrest].
      apply P_existing; assumption.
    + destruct (placeOnExisting rect kerf shs) as [rest'|] eqn:Erest;
        [|discriminate].
      injection H as <-. constructor; [exact Hsh|].
      apply IH; [exact Hrest|reflexivity].
Qed.

Lemma placeRect_invariant st rect :
  Forall P (sheets st) ->
  Forall P (sheets (placeRect sheetW sheetL kerf st rect)).
Proof.
  intros Hall. unfold placeRect.
  destruct (negb (partFits (rect_w rect) (rect_h rect) sheetW sheetL));
    [exact Hall|].
  destruct (placeOnExisting rect kerf (sheets st)) as [shs'|] eqn:Eex.
  - cbn [sheets]. eapply placeOnExisting_invariant; eassumption.
  - destruct (findBestPosition _ (rect_w rect) (rect_h rect) kerf)
      as [pos2|] eqn:Epos; [|exact Hall].
    cbn [sheets]. apply Forall_app. split; [exact Hall|].
    constructor; [|constructor]. apply P_fresh. exact Epos.
Qed.

Lemma placing_loop_invariant : forall rects st,
  Forall P (sheets st) ->
  Forall P (sheets (fold_left (placeRect sheetW sheetL kerf) rects st)).
Proof.
  induction rects as [|rect rects IH]; intros st Hall; cbn [fold_left].
  - exact Hall.
  - apply IH. apply placeRect_invariant. exact Hall.
Qed.

Lemma nestParts_invariant parts :
  Forall P (sheets (nestParts parts sheetW sheetL kerf)).
Proof.
  unfold nestParts. apply placing_loop_invariant. constructor.
Qed.

End SheetInvariant.

(** C10.  Every sheet in the list returned by [nestParts] holds at least
    one placement. *)
Theorem nestParts_sheets_nonempty
    (parts : list Part) (sheetW sheetL kerf : Q) (sh : Sheet) :
  In sh (sheets (nestParts parts sheetW sheetL kerf)) ->
  placements sh <> [].
Proof.
  intros Hin.
  assert (Hadd : forall s rect x y rotated,
            placements (addPlacement s rect x y rotated) <> []).
  { intros s rect x y rotated. rewrite placements_addPlacement.
    intros H. apply app_eq_nil in H. destruct H as [_ H]. discriminate. }
  pose proof (nestParts_invariant sheetW sheetL kerf
                (fun sh => placements sh <> [])
                (fun sh rect pos _ _ => Hadd sh rect _ _ _)
                (fun index rect pos _ => Hadd _ rect _ _ _)
                parts) as Hinv.
  rewrite Forall_forall in Hinv. apply Hinv. exact Hin.
Qed.

(** Five 20 x 30 pieces on 48 x 96 stock: the first sheet returned is not
    empty. *)
Lemma nestParts_sheets_nonempty_witness :
  exists sh,
    nth_error (sheets (nestParts [ mkPart "a" 5 20 30 None None None ]
                         48 96 (1#8))) 0 = Some sh /\
    placements sh <> [].
Proof.
  eexists. split; [vm_compute; reflexivity|].
  apply (nestParts_sheets_nonempty [ mkPart "a" 5 20 30 None None None ]
           48 96 (1#8)).
  vm_compute. left. reflexivity.
Defined.

(** ** Free rectangles and placements stay on the sheet *)

Lemma within_refl f : within f f.
Proof. unfold within. repeat split; lra. Qed.

Lemma within_withinSheet sheetW sheetL a b :
  within a b -> withinSheet sheetW sheetL b -> withinSheet sheetW sheetL a.
Proof.
  unfold within, withinSheet.
  intros (? & ? & ? & ?) (? & ? & ? & ?). repeat split; lra.
Qed.

(** Every rectangle pushed for [f] by the loop of [updateFreeRects] lies
    within [f]. *)
Lemma splitFree_within occX occY occW occH f f' :
  In f' (splitFree occX occY occW occH f) -> within f' f.
Proof.
  unfold splitFree.
  destruct (Qleb (fx f + fw f) occX || Qleb (occX + occW) (fx f) ||
            Qleb (fy f + fh f) occY || Qleb (occY + occH) (fy f)) eqn:Esep.
  - intros [<-|[]]. apply within_refl.
  - qbool.
    destruct (Qltb (fx f) occX) eqn:E1;
      destruct (Qltb (occX + occW) (fx f + fw f)) eqn:E2;
      destruct (Qltb (fy f) occY) eqn:E3;
      destruct (Qltb (occY + occH) (fy f + fh f)) eqn:E4;
      cbn [app In]; qbool; intros Hin;
      repeat (destruct Hin as [<-|Hin];
              [unfold within; cbn; repeat split; lra|]);
      destruct Hin.
Qed.

Lemma freeRects_addPlacement_within s rect x y rotated f' :
  In f' (freeRects (addPlacement s rect x y rotated)) ->
  exists f, In f (freeRects s) /\ within f' f.
Proof.
  rewrite freeRects_addPlacement. intros H.
  apply removeDuplicateRects_In in H. destruct H as [H _].
  apply in_flat_map in H. destruct H as (f & Hf & Hin).
  exists f. split; [exact Hf|]. eapply splitFree_within. exact Hin.
Qed.

Lemma onSheet_newSheet sheetW sheetL index kerf :
  onSheet sheetW sheetL (newSheet sheetW sheetL index kerf).
Proof.
  split; cbn.
  - constructor; [|constructor]. unfold withinSheet; cbn. repeat split; lra.
  - constructor.
Qed.

Lemma onSheet_addPlacement sheetW sheetL kerf sh rect pos :
  Forall (withinSheet sheetW sheetL) (freeRects sh) ->
  Forall (fun p => withinSheet sheetW sheetL (occupied p)) (placements sh) ->
  findBestPosition sh (rect_w rect) (rect_h rect) kerf = Some pos ->
  onSheet sheetW sheetL
    (addPlacement sh rect (pos_x pos) (pos_y pos) (pos_rotated pos)).
Proof.
  intros Hfree Hpl Hpos. rewrite Forall_forall in Hfree. split.
  - apply Forall_forall. intros f' Hf'.
    apply freeRects_addPlacement_within in Hf'.
    destruct Hf' as (f & Hf & Hw).
    eapply within_withinSheet; [exact Hw|]. apply Hfree. exact Hf.
  - rewrite placements_addPlacement. apply Forall_app. split; [exact Hpl|].
    constructor; [|constructor].
    apply findBestPosition_Some in Hpos.
    destruct Hpos as (f & Hf & Hx & Hy & Hfit).
    specialize (Hfree f Hf). destruct Hfree as (? & ? & ? & ?).
    unfold withinSheet, occupied, makePlacement. cbn.
    rewrite Hx, Hy.
    destruct (pos_rotated pos); destruct Hfit; repeat split; lra.
Qed.

(** In the exact run, every placement on every sheet returned by
    [nestParts] lies within the sheet: [0 <= x], [0 <= y],
    [x + w <= sheetW] and [y + h <= sheetL], with [w] and [h] the placed
    (possibly rotated) dimensions. *)
Lemma nestParts_placements_within_sheet
    (parts : list Part) (sheetW sheetL kerf : Q) (sh : Sheet)
    (p : Placement) :
  In sh (sheets (nestParts parts sheetW sheetL kerf)) ->
  In p (placements sh) ->
  0 <= p_x p /\ 0 <= p_y p /\
  p_x p + p_w p <= sheetW /\ p_y p + p_h p <= sheetL.
Proof.
  intros Hsh Hp.
  assert (Hinv : Forall (onSheet sheetW sheetL)
                   (sheets (nestParts parts sheetW sheetL kerf))).
  { apply nestParts_invariant.
    - intros s rect pos [Hfree Hpl] Hpos.
      eapply onSheet_addPlacement; eassumption.
    - intros index rect pos Hpos.
      destruct (onSheet_newSheet sheetW sheetL index kerf) as [Hfree Hpl].
      eapply onSheet_addPlacement; eassumption. }
  rewrite Forall_forall in Hinv. destruct (Hinv sh Hsh) as [_ Hpl].
  rewrite Forall_forall in Hpl. exact (Hpl p Hp).
Qed.

(** C1 is broken by the code.  Parts 10 x 10, 8 x 12 and 11 x 8 (one
    each) on a 20 x 20 sheet with kerf 1 all go to one sheet: the first at
    (0, 0), the second at (11, 0), the third at (0, 11) in the free
    rectangle left of the second, which is exactly 11 wide.  The third
    piece ends at [x = 11], where the second begins, while both cover [11 <= y < 12]:
    no kerf is left between them, and their occupied-plus-kerf rectangles
    [[0, 12) x [11, 20)] and [[11, 20) x [0, 13)] intersect. *)
Theorem kerf_rectangles_intersect :
  let res := nestParts [ mkPart "a" 1 10 10 None None None;
                         mkPart "b" 1 8 12 None None None;
                         mkPart "c" 1 11 8 None None None ] 20 20 1 in
  exists sh p q,
    sheets res = [sh] /\ unplaced res = [] /\
    nth_error (placements sh) 1 = Some p /\
    nth_error (placements sh) 2 = Some q /\
    (p_x p == 11 /\ p_y p == 0 /\ p_w p == 8 /\ p_h p == 12) /\
    (p_x q == 0 /\ p_y q == 11 /\ p_w q == 11 /\ p_h q == 8) /\
    rectsOverlap (occupiedPlusKerf 1 p) (occupiedPlusKerf 1 q) = true /\
    p_x q + p_w q == p_x p.
Proof.
  cbv zeta. eexists. eexists. eexists.
  split; [vm_compute; reflexivity|]. split; [vm_compute; reflexivity|].
  split; [vm_compute; reflexivity|]. split; [vm_compute; reflexivity|].
  repeat split; reflexivity.
Qed.

(** ** What the kerf bookkeeping does guarantee *)

Lemma clearOf_within a b o : within a b -> clearOf b o -> clearOf a o.
Proof.
  unfold within, clearOf. intros (W1 & W2 & W3 & W4) [C|[C|[C|C]]];
    [left|right; left|right; right; left|right; right; right]; lra.
Qed.

Lemma clearOf_no_overlap a o : clearOf a o -> rectsOverlap a o = false.
Proof.
  unfold clearOf, rectsOverlap. intros H.
  destruct (Qltb (Qmax (fx a) (fx o)) (Qmin (fx a + fw a) (fx o + fw o)))
    eqn:Ex; [|reflexivity].
  destruct (Qltb (Qmax (fy a) (fy o)) (Qmin (fy a + fh a) (fy o + fh o)))
    eqn:Ey; [|reflexivity].
  exfalso. qbool.
  apply Q.max_lub_lt_iff in Ex, Ey. destruct Ex as [Ex1 Ex2], Ey as [Ey1 Ey2].
  apply Q.min_glb_lt_iff in Ex1, Ex2, Ey1, Ey2.
  destruct H as [H|[H|[H|H]]]; lra.
Qed.

(** Every rectangle pushed by the loop of [updateFreeRects] is clear of
    the occupied area. *)
Lemma splitFree_clear occX occY occW occH f f' :
  In f' (splitFree occX occY occW occH f) ->
  clearOf f' {| fx := occX; fy := occY; fw := occW; fh := occH |}.
Proof.
  unfold splitFree, clearOf. cbn [fx fy fw fh].
  destruct (Qleb (fx f + fw f) occX || Qleb (occX + occW) (fx f) ||
            Qleb (fy f + fh f) occY || Qleb (occY + occH) (fy f)) eqn:Esep.
  - intros [<-|[]].
    repeat (apply orb_true_iff in Esep; destruct Esep as [Esep|Esep]);
      qbool; lra.
  - destruct (Qltb (fx f) occX) eqn:E1;
      destruct (Qltb (occX + occW) (fx f + fw f)) eqn:E2;
      destruct (Qltb (fy f) occY) eqn:E3;
      destruct (Qltb (occY + occH) (fy f + fh f)) eqn:E4;
      cbn [app In]; intros Hin;
      repeat (destruct Hin as [<-|Hin]; [cbn; lra|]);
      destruct Hin.
Qed.

Lemma kerfClear_addPlacement kerf sh rect pos :
  kerfClear kerf sh ->
  findBestPosition sh (rect_w rect) (rect_h rect) kerf = Some pos ->
  kerfClear kerf
    (addPlacement sh rect (pos_x pos) (pos_y pos) (pos_rotated pos)).
Proof.
  intros (Hk & Hfree & Hpairs) Hpos.
  set (q := makePlacement rect (pos_x pos) (pos_y pos) (pos_rotated pos)).
  assert (Hq : forall p, In p (placements sh) ->
                 clearOf (occupied q) (occupiedPlusKerf kerf p)).
  { intros p Hp. apply findBestPosition_Some in Hpos.
    destruct Hpos as (f & Hf & Hx & Hy & Hfit).
    apply (clearOf_within _ f); [|apply Hfree; assumption].
    unfold within, occupied, q, makePlacement. cbn. rewrite Hx, Hy.
    destruct (pos_rotated pos); destruct Hfit; repeat split; lra. }
  split; [exact Hk|]. split.
  - intros f' p Hf' Hp. rewrite placements_addPlacement in Hp.
    rewrite freeRects_addPlacement in Hf'.
    apply removeDuplicateRects_In in Hf'. destruct Hf' as [Hf' _].
    apply in_flat_map in Hf'. destruct Hf' as (f & Hf & Hin).
    apply in_app_or in Hp. destruct Hp as [Hp|[<-|[]]].
    + apply (clearOf_within _ f); [|apply Hfree; assumption].
      eapply splitFree_within. exact Hin.
    + apply splitFree_clear in Hin. rewrite Hk in Hin. exact Hin.
  - intros i j pi pj Hij Hi Hj. rewrite placements_addPlacement in Hi, Hj.
    destruct (Nat.lt_ge_cases j (List.length (placements sh))) as [Hlt|Hge].
    + rewrite nth_error_app1 in Hi, Hj by lia.
      exact (Hpairs i j pi pj Hij Hi Hj).
    + assert (Hj' : (j < List.length (placements sh ++ [q]))%nat).
      { apply nth_error_Some. fold q in Hj. rewrite Hj. discriminate. }
      rewrite length_app in Hj'. cbn [List.length] in Hj'.
      assert (Ej : j = List.length (placements sh)) by lia. subst j.
      rewrite nth_error_app1 in Hi by lia.
      rewrite nth_error_app2, Nat.sub_diag in Hj by lia.
      cbn [nth_error] in Hj. injection Hj as <-.
      apply Hq. eapply nth_error_In. exact Hi.
Qed.

Lemma kerfClear_newSheet sheetW sheetL index kerf :
  kerfClear kerf (newSheet sheetW sheetL index kerf).
Proof.
  split; [reflexivity|]. split.
  - intros f p _ [].
  - intros i j pi pj _ Hi. destruct i; discriminate.
Qed.

Lemma nestParts_kerfClear parts sheetW sheetL kerf :
  Forall (kerfClear kerf) (sheets (nestParts parts sheetW sheetL kerf)).
Proof.
  apply nestParts_invariant.
  - intros sh rect pos Hsh Hpos. apply kerfClear_addPlacement; assumption.
  - intros index rect pos Hpos.
    apply kerfClear_addPlacement; [apply kerfClear_newSheet|exact Hpos].
Qed.

Lemma clearOf_sym a o : clearOf a o -> clearOf o a.
Proof. unfold clearOf. tauto. Qed.

(** The one-sided guarantee of the bookkeeping, in the exact run: on
    every sheet returned by [nestParts], a placement does not reach into
    the occupied-plus-kerf rectangle of a placement made before it on that
    sheet. *)
Lemma later_placement_clear_of_earlier_kerf
    (parts : list Part) (sheetW sheetL kerf : Q) (sh : Sheet)
    (i j : nat) (pi pj : Placement) :
  In sh (sheets (nestParts parts sheetW sheetL kerf)) ->
  (i < j)%nat ->
  nth_error (placements sh) i = Some pi ->
  nth_error (placements sh) j = Some pj ->
  clearOf (occupied pj) (occupiedPlusKerf kerf pi) /\
  rectsOverlap (occupied pj) (occupiedPlusKerf kerf pi) = false.
Proof.
  intros Hsh Hij Hi Hj.
  pose proof (nestParts_kerfClear parts sheetW sheetL kerf) as Hinv.
  rewrite Forall_forall in Hinv.
  destruct (Hinv sh Hsh) as (_ & _ & Hpairs).
  assert (Hc := Hpairs i j pi pj Hij Hi Hj).
  split; [exact Hc|]. apply clearOf_no_overlap. exact Hc.
Qed.

(** In the exact run with a non-negative kerf, the rectangles covered by
    two placements of a sheet (without kerf) never overlap. *)
Lemma placements_do_not_overlap
    (parts : list Part) (sheetW sheetL kerf : Q) (sh : Sheet)
    (i j : nat) (pi pj : Placement) :
  0 <= kerf ->
  In sh (sheets (nestParts parts sheetW sheetL kerf)) ->
  i <> j ->
  nth_error (placements sh) i = Some pi ->
  nth_error (placements sh) j = Some pj ->
  rectsOverlap (occupied pi) (occupied pj) = false.
Proof.
  intros Hk Hsh Hne Hi Hj.
  assert (Hdrop : forall a b : Placement,
            clearOf (occupied b) (occupiedPlusKerf kerf a) ->
            clearOf (occupied b) (occupied a)).
  { intros a b. unfold clearOf. cbn.
    intros [H|[H|[H|H]]];
      [left|right; left|right; right; left|right; right; right]; lra. }
  pose proof (nestParts_kerfClear parts sheetW sheetL kerf) as Hinv.
  rewrite Forall_forall in Hinv.
  destruct (Hinv sh Hsh) as (_ & _ & Hpairs).
  apply clearOf_no_overlap.
  destruct (Nat.lt_total i j) as [Hlt|[Heq|Hlt]]; [|contradiction|].
  - apply clearOf_sym, Hdrop. exact (Hpairs i j pi pj Hlt Hi Hj).
  - apply Hdrop. exact (Hpairs j i pj pi Hlt Hj Hi).
Qed.

End OptimizeFacts.

(** ** More on the position search and the nesting run *)

Module NestingFacts.
Import Optimize Geometry NestingVocabulary OptimizeFacts.

Lemma tryFreeRect_consider rectW rectH st f :
  tryFreeRect rectW rectH st f
    = consider (consider st (candidate rectW rectH false f))
               (candidate rectW rectH true f).
Proof. reflexivity. Qed.

Lemma fold_tryFreeRect_consider rectW rectH : forall fs st,
  fold_left (tryFreeRect rectW rectH) fs st
    = fold_left consider (candidates rectW rectH fs) st.
Proof.
  induction fs as [|f fs IH]; intros st; [reflexivity|].
  cbn [fold_left candidates flat_map app].
  rewrite IH, tryFreeRect_consider. reflexivity.
Qed.

Lemma consider_bestOf seen st c :
  bestOf seen st -> bestOf (c :: seen) (consider st c).
Proof.
  destruct c as [[ok sc] pos], st as [[best|] [bsc|]];
    unfold consider; cbn [fst snd bestOf scoreBelow]; intros H;
    try contradiction.
  - destruct H as [Hin Hmin]. destruct ok.
    + destruct (Qltb sc bsc) eqn:E; cbn [bestOf]; qbool.
      * split; [left; reflexivity|].
        intros c [Hc|Hc] Hok; [subst c; cbn [fst snd]; lra|].
        specialize (Hmin c Hc Hok). lra.
      * split; [right; exact Hin|].
        intros c [Hc|Hc] Hok; [subst c; cbn [fst snd]; lra|].
        apply Hmin; assumption.
    + cbn [bestOf]. split; [right; exact Hin|].
      intros c [Hc|Hc] Hok; [subst c; discriminate|].
      apply Hmin; assumption.
  - destruct ok; cbn [bestOf].
    + split; [left; reflexivity|].
      intros c [Hc|Hc] Hok; [subst c; cbn [fst snd]; lra|].
      rewrite (H c Hc) in Hok. discriminate.
    + intros c [Hc|Hc]; [subst c; reflexivity|]. apply H. exact Hc.
Qed.

Lemma fold_consider_bestOf : forall cands seen st,
  bestOf seen st ->
  bestOf (rev cands ++ seen) (fold_left consider cands st).
Proof.
  induction cands as [|c cands IH]; intros seen st H; cbn [fold_left rev].
  - exact H.
  - rewrite <- app_assoc. cbn [app]. apply IH, consider_bestOf, H.
Qed.

Lemma findBestPosition_bestOf s rectW rectH kerf :
  exists st,
    findBestPosition s rectW rectH kerf = fst st /\
    bestOf (rev (candidates rectW rectH (freeRects s))) st.
Proof.
  unfold findBestPosition. rewrite fold_tryFreeRect_consider.
  eexists. split; [reflexivity|].
  pose proof (fold_consider_bestOf
                (candidates rectW rectH (freeRects s)) [] (None, None)) as H.
  rewrite app_nil_r in H. apply H. intros c [].
Qed.

Lemma In_candidates rectW rectH fs c :
  In c (candidates rectW rectH fs) <->
  exists f rotated, In f fs /\ c = candidate rectW rectH rotated f.
Proof.
  unfold candidates. rewrite in_flat_map. split.
  - intros (f & Hf & [<-|[<-|[]]]); [exists f, false|exists f, true]; auto.
  - intros (f & rotated & Hf & ->). exists f. split; [exact Hf|].
    destruct rotated; cbn; auto.
Qed.

Lemma In_rev_candidates rectW rectH fs c :
  In c (rev (candidates rectW rectH fs)) <->
  exists f rotated, In f fs /\ c = candidate rectW rectH rotated f.
Proof. rewrite <- in_rev. apply In_candidates. Qed.

Lemma candidate_ok rectW rectH rotated f :
  fst (fst (candidate rectW rectH rotated f)) = true <->
  fitsOriented rectW rectH rotated f.
Proof.
  unfold candidate, fitsOriented. destruct rotated; cbn [fst];
    rewrite andb_true_iff, !Qleb_true; reflexivity.
Qed.

(** X1.  [findBestPosition] returns null exactly when the rectangle fits
    no free rectangle of the sheet in either orientation. *)
Theorem findBestPosition_None_iff
    (s : Sheet) (rectW rectH kerf : Q) :
  findBestPosition s rectW rectH kerf = None <->
  forall f rotated, In f (freeRects s) ->
    ~ fitsOriented rectW rectH rotated f.
Proof.
  destruct (findBestPosition_bestOf s rectW rectH kerf)
    as ([best bsc] & -> & Hbest).
  cbn [fst]. split.
  - intros ->. destruct bsc as [sc|]; cbn [bestOf] in Hbest;
      [contradiction|].
    intros f rotated Hf Hfit. apply candidate_ok in Hfit.
    rewrite Hbest in Hfit; [discriminate|].
    apply In_rev_candidates. exists f, rotated. auto.
  - intros Hnone. destruct best as [pos|]; [|reflexivity].
    destruct bsc as [sc|]; cbn [bestOf] in Hbest; [|contradiction].
    destruct Hbest as [Hin _]. apply In_rev_candidates in Hin.
    destruct Hin as (f & rotated & Hf & Hc).
    exfalso. apply (Hnone f rotated Hf). apply candidate_ok.
    rewrite <- Hc. reflexivity.
Qed.


(** *** Which pieces end up unplaced *)

Lemma placeOnExisting_length rect kerf : forall shs shs',
  placeOnExisting rect kerf shs = Some shs' ->
  List.length shs' = List.length shs.
Proof.
  induction shs as [|sh shs IH]; intros shs' H; cbn in H; [discriminate|].
  destruct (findBestPosition sh (rect_w rect) (rect_h rect) kerf).
  - injection H as <-. reflexivity.
  - destruct (placeOnExisting rect kerf shs) as [rest|]; [|discriminate].
    injection H as <-. cbn. f_equal. apply IH. reflexivity.
Qed.

Lemma placeRect_unplaced sheetW sheetL kerf st rect :
  unplaced (placeRect sheetW sheetL kerf st rect)
    = unplaced st ++ (if cannotFit sheetW sheetL rect then [rect] else []).
Proof.
  unfold placeRect, cannotFit.
  destruct (negb (partFits (rect_w rect) (rect_h rect) sheetW sheetL)).
  - reflexivity.
  - rewrite app_nil_r.
    destruct (placeOnExisting rect kerf (sheets st)); [reflexivity|].
    destruct (findBestPosition _ _ _ _); reflexivity.
Qed.

Lemma placing_loop_unplaced sheetW sheetL kerf : forall rects st,
  unplaced (fold_left (placeRect sheetW sheetL kerf) rects st)
    = unplaced st ++ filter (cannotFit sheetW sheetL) rects.
Proof.
  induction rects as [|rect rects IH]; intros st; cbn [fold_left filter].
  - rewrite app_nil_r. reflexivity.
  - rewrite IH, placeRect_unplaced.
    destruct (cannotFit sheetW sheetL rect).
    + rewrite <- app_assoc. reflexivity.
    + rewrite app_nil_r. reflexivity.
Qed.


(** *** No piece is lost *)

Lemma insertRect_perm x : forall l, Permutation (insertRect x l) (x :: l).
Proof.
  induction l as [|y l IH]; cbn [insertRect].
  - apply Permutation_refl.
  - destruct (Qleb (compareRects x y) 0).
    + apply Permutation_refl.
    + eapply perm_trans; [apply perm_skip, IH|apply perm_swap].
Qed.

Lemma sortRects_perm : forall l, Permutation (sortRects l) l.
Proof.
  induction l as [|x l IH]; cbn [sortRects fold_right].
  - apply perm_nil.
  - eapply perm_trans; [apply insertRect_perm|].
    apply perm_skip, IH.
Qed.

Lemma placedRects_app shs1 shs2 :
  placedRects (shs1 ++ shs2) = placedRects shs1 ++ placedRects shs2.
Proof. unfold placedRects. apply flat_map_app. Qed.

Lemma placedRects_addPlacement sh rect x y rotated :
  map p_rect (placements (addPlacement sh rect x y rotated))
    = map p_rect (placements sh) ++ [rect].
Proof.
  rewrite placements_addPlacement, map_app. reflexivity.
Qed.

Lemma placeOnExisting_placed rect kerf : forall shs shs',
  placeOnExisting rect kerf shs = Some shs' ->
  Permutation (placedRects shs') (rect :: placedRects shs).
Proof.
  induction shs as [|sh shs IH]; intros shs' H; cbn in H; [discriminate|].
  destruct (findBestPosition sh (rect_w rect) (rect_h rect) kerf) as [pos|].
  - injection H as <-. unfold placedRects. cbn [flat_map].
    rewrite placedRects_addPlacement, <- app_assoc. cbn [app].
    apply Permutation_sym, Permutation_middle.
  - destruct (placeOnExisting rect kerf shs) as [rest|]; [|discriminate].
    injection H as <-. unfold placedRects. cbn [flat_map].
    specialize (IH rest eq_refl). unfold placedRects in IH.
    eapply perm_trans; [apply Permutation_app_head, IH|].
    apply Permutation_sym, Permutation_middle.
Qed.

Lemma placeRect_conserves sheetW sheetL kerf st rect :
  Permutation
    (placedRects (sheets (placeRect sheetW sheetL kerf st rect))
       ++ unplaced (placeRect sheetW sheetL kerf st rect))
    (rect :: placedRects (sheets st) ++ unplaced st).
Proof.
  unfold placeRect.
  destruct (partFits (rect_w rect) (rect_h rect) sheetW sheetL) eqn:Hfit;
    cbn [negb sheets unplaced].
  - destruct (placeOnExisting rect kerf (sheets st)) as [shs'|] eqn:Eex;
      cbn [sheets unplaced].
    + change (rect :: placedRects (sheets st) ++ unplaced st)
        with ((rect :: placedRects (sheets st)) ++ unplaced st).
      apply Permutation_app_tail. eapply placeOnExisting_placed. exact Eex.
    + destruct (findBestPosition_fresh sheetW sheetL
                  (List.length (sheets st) + 1) kerf _ _ Hfit)
        as [rotated Hpos].
      rewrite Hpos. cbn [sheets unplaced pos_x pos_y pos_rotated].
      rewrite placedRects_app. unfold placedRects at 2. cbn [flat_map].
      rewrite placedRects_addPlacement. cbn [newSheet placements map app].
      rewrite <- app_assoc. cbn [app].
      apply Permutation_sym, Permutation_middle.
  - rewrite app_assoc. apply Permutation_sym, Permutation_cons_append.
Qed.

Lemma placing_loop_conserves sheetW sheetL kerf : forall rects st,
  Permutation
    (placedRects (sheets (fold_left (placeRect sheetW sheetL kerf) rects st))
       ++ unplaced (fold_left (placeRect sheetW sheetL kerf) rects st))
    (rects ++ placedRects (sheets st) ++ unplaced st).
Proof.
  induction rects as [|rect rects IH]; intros st; cbn [fold_left app].
  - apply Permutation_refl.
  - eapply perm_trans; [apply IH|].
    eapply perm_trans;
      [apply Permutation_app_head, placeRect_conserves|].
    apply Permutation_sym, Permutation_middle.
Qed.

Lemma nestParts_perm (parts : list Part) (sheetW sheetL kerf : Q) :
  Permutation
    (placedRects (sheets (nestParts parts sheetW sheetL kerf))
       ++ unplaced (nestParts parts sheetW sheetL kerf))
    (expandParts parts).
Proof.
  unfold nestParts.
  eapply perm_trans; [apply placing_loop_conserves|].
  cbn [sheets unplaced placedRects flat_map app]. rewrite app_nil_r.
  apply sortRects_perm.
Qed.

(** X4.  No piece is lost or duplicated: the rectangles placed on the
    sheets returned by [nestParts], together with the unplaced ones, are
    the expanded pieces, each exactly once. *)
Theorem nestParts_conserves
    (parts : list Part) (sheetW sheetL kerf : Q) :
  Permutation
    (placedRects (sheets (nestParts parts sheetW sheetL kerf))
       ++ unplaced (nestParts parts sheetW sheetL kerf))
    (expandParts parts).
Proof. apply nestParts_perm. Qed.

(** *** The sheets of the result *)

Lemma placeOnExisting_headers rect kerf (h : Sheet -> Q * Q * nat * Q) :
  (forall sh r x y rotated, h (addPlacement sh r x y rotated) = h sh) ->
  forall shs shs',
  placeOnExisting rect kerf shs = Some shs' -> map h shs' = map h shs.
Proof.
  intros Hh. induction shs as [|sh shs IH]; intros shs' H; cbn in H;
    [discriminate|].
  destruct (findBestPosition sh (rect_w rect) (rect_h rect) kerf).
  - injection H as <-. cbn [map]. rewrite Hh. reflexivity.
  - destruct (placeOnExisting rect kerf shs) as [rest|]; [|discriminate].
    injection H as <-. cbn [map]. f_equal. apply IH. reflexivity.
Qed.

(** X5.  The sheets returned by [nestParts] are numbered 1, 2, ... in list
    order, and each has the stock dimensions and the kerf of the call. *)
Theorem nestParts_sheet_headers
    (parts : list Part) (sheetW sheetL kerf : Q) :
  map (fun sh => (s_w sh, s_h sh, s_index sh, s_kerf sh))
      (sheets (nestParts parts sheetW sheetL kerf))
    = map (fun i => (sheetW, sheetL, i, kerf))
          (seq 1 (List.length (sheets (nestParts parts sheetW sheetL kerf)))).
Proof.
  unfold nestParts.
  set (h := fun sh => (s_w sh, s_h sh, s_index sh, s_kerf sh)).
  set (g := fun i : nat => (sheetW, sheetL, i, kerf)).
  assert (Hloop : forall rects st,
    map h (sheets st) = map g (seq 1 (List.length (sheets st))) ->
    map h (sheets (fold_left (placeRect sheetW sheetL kerf) rects st))
      = map g (seq 1 (List.length
           (sheets (fold_left (placeRect sheetW sheetL kerf) rects st))))).
  { induction rects as [|rect rects IH]; intros st Hst; cbn [fold_left];
      [exact Hst|].
    apply IH. unfold placeRect.
    destruct (negb (partFits (rect_w rect) (rect_h rect) sheetW sheetL));
      [exact Hst|].
    destruct (placeOnExisting rect kerf (sheets st)) as [shs'|] eqn:Eex;
      cbn [sheets].
    - rewrite (placeOnExisting_headers rect kerf h (fun _ _ _ _ _ => eq_refl)
                 _ _ Eex).
      rewrite (placeOnExisting_length _ _ _ _ Eex). exact Hst.
    - destruct (findBestPosition _ _ _ _) as [pos2|]; [|exact Hst].
      cbn [sheets]. rewrite map_app, length_app, Hst. cbn [List.length map].
      rewrite Nat.add_1_r, seq_S, map_app. cbn [map]. f_equal. }
  apply Hloop. reflexivity.
Qed.

(** X6.  Every placement on a sheet returned by [nestParts] records the
    dimensions of its rectangle, swapped exactly when [rotated] is set. *)
Theorem nestParts_placement_dimensions
    (parts : list Part) (sheetW sheetL kerf : Q) (sh : Sheet)
    (p : Placement) :
  In sh (sheets (nestParts parts sheetW sheetL kerf)) ->
  In p (placements sh) ->
  p_w p = (if p_rotated p then rect_h (p_rect p) else rect_w (p_rect p)) /\
  p_h p = (if p_rotated p then rect_w (p_rect p) else rect_h (p_rect p)).
Proof.
  intros Hsh Hp.
  set (ok := fun q : Placement =>
    p_w q = (if p_rotated q then rect_h (p_rect q) else rect_w (p_rect q)) /\
    p_h q = (if p_rotated q then rect_w (p_rect q) else rect_h (p_rect q))).
  assert (Hinv : Forall (fun s => Forall ok (placements s))
                   (sheets (nestParts parts sheetW sheetL kerf))).
  { apply nestParts_invariant.
    - intros s rect pos Hs _. rewrite placements_addPlacement.
      apply Forall_app. split; [exact Hs|].
      constructor; [|constructor]. split; reflexivity.
    - intros index rect pos _. rewrite placements_addPlacement.
      constructor; [|constructor]. split; reflexivity. }
  rewrite Forall_forall in Hinv. specialize (Hinv sh Hsh).
  rewrite Forall_forall in Hinv. exact (Hinv p Hp).
Qed.

(** *** Expansion of the parts *)

Lemma iter_pushRect_ids p : forall n rects,
  map rect_id rects = seq 0 (List.length rects) ->
  map rect_id (Nat.iter n (pushRect p) rects)
    = seq 0 (List.length rects + n) /\
  List.length (Nat.iter n (pushRect p) rects) = (List.length rects + n)%nat.
Proof.
  induction n as [|n IH]; intros rects H.
  - cbn. rewrite Nat.add_0_r. auto.
  - destruct (IH rects H) as [Hids Hlen].
    change (Nat.iter (S n) (pushRect p) rects)
      with (pushRect p (Nat.iter n (pushRect p) rects)).
    set (it := Nat.iter n (pushRect p) rects) in *. unfold pushRect.
    rewrite map_app, length_app, Hids, Hlen. cbn [map List.length rect_id
      newRectangle].
    split; [|lia].
    replace (List.length rects + S n)%nat
      with (S (List.length rects + n)) by lia.
    rewrite seq_S. reflexivity.
Qed.

(** X7.  [nestParts] expands the parts into as many rectangles as the
    quantities add up to, and numbers them 0, 1, 2, ... in part order. *)
Theorem expandParts_ids (parts : list Part) :
  map rect_id (expandParts parts)
    = seq 0 (list_sum (map part_qty parts)).
Proof.
  unfold expandParts.
  assert (H : forall ps rects,
    map rect_id rects = seq 0 (List.length rects) ->
    map rect_id
      (fold_left (fun rects p => Nat.iter (part_qty p) (pushRect p) rects)
                 ps rects)
      = seq 0 (List.length rects + list_sum (map part_qty ps))).
  { induction ps as [|p ps IH]; intros rects Hr; cbn [fold_left map list_sum].
    - rewrite Nat.add_0_r. exact Hr.
    - destruct (iter_pushRect_ids p (part_qty p) rects Hr) as [Hids Hlen].
      rewrite IH; [|rewrite Hlen; exact Hids].
      rewrite Hlen. f_equal. unfold list_sum. cbn [fold_right]. lia. }
  apply (H parts []). reflexivity.
Qed.

Lemma iter_pushRect_In p r : forall n rects,
  In r (Nat.iter n (pushRect p) rects) ->
  In r rects \/
  (rect_w r = part_w p /\ rect_h r = part_l p /\ rect_name r = part_name p).
Proof.
  induction n as [|n IH]; intros rects H.
  - left. exact H.
  - change (Nat.iter (S n) (pushRect p) rects)
      with (pushRect p (Nat.iter n (pushRect p) rects)) in H.
    set (it := Nat.iter n (pushRect p) rects) in *. unfold pushRect in H.
    apply in_app_or in H.
    destruct H as [H|[<-|[]]]; [apply IH; exact H|].
    right. repeat split.
Qed.

Lemma expandParts_from_part (parts : list Part) (r : Rectangle) :
  In r (expandParts parts) ->
  exists p, In p parts /\ (0 < part_qty p)%nat /\
    rect_w r = part_w p /\ rect_h r = part_l p /\ rect_name r = part_name p.
Proof.
  unfold expandParts.
  assert (H : forall ps rects,
    In r (fold_left (fun rects p => Nat.iter (part_qty p) (pushRect p) rects)
                    ps rects) ->
    In r rects \/
    exists p, In p ps /\ (0 < part_qty p)%nat /\
      rect_w r = part_w p /\ rect_h r = part_l p /\
      rect_name r = part_name p).
  { induction ps as [|p ps IH]; intros rects Hin; cbn [fold_left] in Hin.
    - left. exact Hin.
    - destruct (IH _ Hin) as [Hhere|(q & Hq & Hrest)].
      + destruct (part_qty p) as [|n] eqn:En.
        * left. exact Hhere.
        * apply iter_pushRect_In in Hhere.
          destruct Hhere as [Hold|Hnew]; [left; exact Hold|].
          right. exists p. split; [left; reflexivity|].
          split; [lia|exact Hnew].
      + right. exists q. split; [right; exact Hq|exact Hrest]. }
  intros Hin. destruct (H parts [] Hin) as [[]|Hp]. exact Hp.
Qed.

(** X8.  Every rectangle of the expansion carries the width, the length
    and the name of one of the parts, whose quantity is not zero. *)
Theorem expandParts_provenance (parts : list Part) (r : Rectangle) :
  In r (expandParts parts) ->
  exists p, In p parts /\ (0 < part_qty p)%nat /\
    rect_w r = part_w p /\ rect_h r = part_l p /\ rect_name r = part_name p.
Proof. apply expandParts_from_part. Qed.

(** *** When nothing is left unplaced *)

Lemma iter_pushRect_incl p r : forall n rects,
  In r rects -> In r (Nat.iter n (pushRect p) rects).
Proof.
  induction n as [|n IH]; intros rects H; [exact H|].
  change (Nat.iter (S n) (pushRect p) rects)
    with (pushRect p (Nat.iter n (pushRect p) rects)).
  unfold pushRect at 1. apply in_or_app. left. apply IH, H.
Qed.

Lemma expand_fold_incl r : forall ps rects,
  In r rects ->
  In r (fold_left (fun rects p => Nat.iter (part_qty p) (pushRect p) rects)
                  ps rects).
Proof.
  induction ps as [|p ps IH]; intros rects H; cbn [fold_left]; [exact H|].
  apply IH, iter_pushRect_incl, H.
Qed.

(** A part of non-zero quantity has a rectangle in the expansion. *)
Lemma expandParts_has_part (parts : list Part) (p : Part) :
  In p parts -> (0 < part_qty p)%nat ->
  exists r, In r (expandParts parts) /\
    rect_w r = part_w p /\ rect_h r = part_l p.
Proof.
  unfold expandParts. generalize (@nil Rectangle).
  induction parts as [|q parts IH]; intros rects Hin Hq;
    [destruct Hin|].
  destruct Hin as [<-|Hin]; cbn [fold_left].
  - destruct (part_qty q) as [|n] eqn:En; [lia|].
    change (Nat.iter (S n) (pushRect q) rects)
      with (pushRect q (Nat.iter n (pushRect q) rects)).
    set (it := Nat.iter n (pushRect q) rects).
    exists (newRectangle (part_w q) (part_l q) (List.length it) (part_name q)
              (part_category q) (part_sourceItemId q)
              (part_sourceItemName q)).
    split; [|split; reflexivity].
    apply expand_fold_incl. unfold pushRect. apply in_or_app. right.
    left. reflexivity.
  - apply IH; assumption.
Qed.

Lemma unplaced_empty_iff (parts : list Part) (sheetW sheetL kerf : Q) :
  unplaced (nestParts parts sheetW sheetL kerf) = [] <->
  forall p, In p parts -> (0 < part_qty p)%nat ->
    partFits (part_w p) (part_l p) sheetW sheetL = true.
Proof.
  unfold nestParts. rewrite placing_loop_unplaced. cbn [unplaced app].
  split.
  - intros Hnil p Hp Hq.
    destruct (expandParts_has_part parts p Hp Hq) as (r & Hr & Hw & Hh).
    destruct (partFits (part_w p) (part_l p) sheetW sheetL) eqn:Hfit;
      [reflexivity|].
    assert (Hin : In r (filter (cannotFit sheetW sheetL)
                               (sortRects (expandParts parts)))).
    { apply filter_In. split.
      - apply (Permutation_in _ (Permutation_sym (sortRects_perm _))), Hr.
      - unfold cannotFit. rewrite Hw, Hh, Hfit. reflexivity. }
    rewrite Hnil in Hin. destruct Hin.
  - intros Hall.
    destruct (filter (cannotFit sheetW sheetL)
                     (sortRects (expandParts parts))) as [|r rest] eqn:E;
      [reflexivity|].
    assert (Hin : In r (filter (cannotFit sheetW sheetL)
                               (sortRects (expandParts parts))))
      by (rewrite E; left; reflexivity).
    apply filter_In in Hin. destruct Hin as [Hr Hno].
    apply (Permutation_in _ (sortRects_perm _)) in Hr.
    destruct (expandParts_from_part parts r Hr)
      as (p & Hp & Hq & Hw & Hh & _).
    unfold cannotFit in Hno. rewrite Hw, Hh, (Hall p Hp Hq) in Hno.
    discriminate.
Qed.

(** X11.  [nestParts] leaves nothing unplaced exactly when every part of
    non-zero quantity passes the raw-fit test [partFits]. *)
Theorem nestParts_unplaced_empty_iff
    (parts : list Part) (sheetW sheetL kerf : Q) :
  unplaced (nestParts parts sheetW sheetL kerf) = [] <->
  forall p, In p parts -> (0 < part_qty p)%nat ->
    partFits (part_w p) (part_l p) sheetW sheetL = true.
Proof. apply unplaced_empty_iff. Qed.

(** *** Free space is free *)

Lemma nestParts_onSheet parts sheetW sheetL kerf :
  Forall (onSheet sheetW sheetL)
         (sheets (nestParts parts sheetW sheetL kerf)).
Proof.
  apply nestParts_invariant.
  - intros s rect pos [Hfree Hpl] Hpos.
    eapply onSheet_addPlacement; eassumption.
  - intros index rect pos Hpos.
    destruct (onSheet_newSheet sheetW sheetL index kerf) as [Hfree Hpl].
    eapply onSheet_addPlacement; eassumption.
Qed.

(** In the exact run, each free rectangle of a sheet returned by
    [nestParts] lies on the sheet, has positive width and height, and is
    clear of the occupied-plus-kerf rectangle of every placement of the
    sheet. *)
Lemma nestParts_free_rects_are_free
    (parts : list Part) (sheetW sheetL kerf : Q) (sh : Sheet)
    (f : FreeRect) :
  In sh (sheets (nestParts parts sheetW sheetL kerf)) ->
  In f (freeRects sh) ->
  withinSheet sheetW sheetL f /\
  0 < fw f /\ 0 < fh f /\
  forall p, In p (placements sh) ->
    rectsOverlap f (occupiedPlusKerf kerf p) = false.
Proof.
  intros Hsh Hf.
  pose proof (nestParts_onSheet parts sheetW sheetL kerf) as Hon.
  pose proof (nestParts_kerfClear parts sheetW sheetL kerf) as Hclear.
  assert (Hpos : Forall (fun s => Forall (fun g => 0 < fw g /\ 0 < fh g)
                                         (freeRects s))
                   (sheets (nestParts parts sheetW sheetL kerf))).
  { apply nestParts_invariant.
    - intros s rect pos _ _. apply Forall_forall. intros g Hg.
      rewrite freeRects_addPlacement in Hg.
      apply removeDuplicateRects_In in Hg. tauto.
    - intros index rect pos _. apply Forall_forall. intros g Hg.
      rewrite freeRects_addPlacement in Hg.
      apply removeDuplicateRects_In in Hg. tauto. }
  rewrite Forall_forall in Hon, Hclear, Hpos.
  destruct (Hon sh Hsh) as [Hfree _].
  destruct (Hclear sh Hsh) as (_ & Hfc & _).
  specialize (Hpos sh Hsh).
  rewrite Forall_forall in Hfree, Hpos.
  split; [apply Hfree, Hf|].
  split; [apply (Hpos f Hf)|]. split; [apply (Hpos f Hf)|].
  intros p Hp. apply clearOf_no_overlap. apply Hfc; assumption.
Qed.

(** *** The theorems above at concrete inputs *)

(** A 60 x 110 rectangle on an empty 48 x 96 sheet fits nowhere. *)
Lemma findBestPosition_None_iff_witness :
  findBestPosition (newSheet 48 96 1 (1#8)) 60 110 (1#8) = None /\
  (forall f rotated,
     In f (freeRects (newSheet 48 96 1 (1#8))) ->
     ~ fitsOriented 60 110 rotated f).
Proof.
  split; [reflexivity|].
  exact (proj1 (findBestPosition_None_iff (newSheet 48 96 1 (1#8))
                  60 110 (1#8)) eq_refl).
Defined.


(** Five 20 x 30 pieces on 48 x 96 stock: the second placement of the
    first sheet. *)
Lemma nestParts_placement_dimensions_witness :
  exists sh p,
    nth_error (sheets (nestParts [ mkPart "a" 5 20 30 None None None ]
                         48 96 (1#8))) 0 = Some sh /\
    nth_error (placements sh) 1 = Some p /\
    p_w p = (if p_rotated p then rect_h (p_rect p) else rect_w (p_rect p)) /\
    p_h p = (if p_rotated p then rect_w (p_rect p) else rect_h (p_rect p)).
Proof.
  eexists. eexists.
  split; [vm_compute; reflexivity|]. split; [vm_compute; reflexivity|].
  eapply (nestParts_placement_dimensions
            [ mkPart "a" 5 20 30 None None None ] 48 96 (1#8)).
  - vm_compute. left. reflexivity.
  - vm_compute. right. left. reflexivity.
Defined.

Lemma expandParts_provenance_witness :
  exists r p,
    nth_error (expandParts [ mkPart "a" 5 20 30 None None None ]) 2
      = Some r /\
    In p [ mkPart "a" 5 20 30 None None None ] /\ (0 < part_qty p)%nat /\
    rect_w r = part_w p /\ rect_h r = part_l p /\ rect_name r = part_name p.
Proof.
  eexists.
  assert (Hin : In (newRectangle 20 30 2 "a" None None None)
                   (expandParts [ mkPart "a" 5 20 30 None None None ])).
  { vm_compute. right. right. left. reflexivity. }
  destruct (expandParts_provenance _ _ Hin) as (p & Hp).
  exists p. split; [reflexivity|exact Hp].
Defined.

Lemma nestParts_unplaced_empty_iff_witness :
  unplaced (nestParts [ mkPart "a" 5 20 30 None None None ] 48 96 (1#8))
    = [].
Proof.
  apply (proj2 (nestParts_unplaced_empty_iff
                  [ mkPart "a" 5 20 30 None None None ] 48 96 (1#8))).
  intros p [<-|[]] _. reflexivity.
Defined.

End NestingFacts.

(** ** Doubles that are computed exactly *)

Module Binary64Facts.
Import Binary64 DyadicVocabulary.

Lemma fl_exact x : exact53 x = true -> fl x = x.
Proof. unfold fl. intros ->. reflexivity. Qed.

(** A positive divisor of a power of two is a power of two. *)
Lemma divisor_of_pow2 (k : nat) : forall d : Z,
  (0 < d)%Z -> (d | 2 ^ Z.of_nat k)%Z ->
  exists j : Z, (0 <= j)%Z /\ d = (2 ^ j)%Z.
Proof.
  induction k as [|k IH]; intros d Hd Hdiv.
  - exists 0%Z. split; [lia|].
    change (2 ^ Z.of_nat 0)%Z with 1%Z in Hdiv.
    apply Z.divide_1_r_nonneg in Hdiv; lia.
  - rewrite Nat2Z.inj_succ, Z.pow_succ_r in Hdiv by lia.
    destruct (Z.even d) eqn:Ev.
    + apply Z.even_spec in Ev. destruct Ev as [d' ->].
      apply Z.mul_divide_cancel_l in Hdiv; [|lia].
      destruct (IH d' ltac:(lia) Hdiv) as (j & Hj & ->).
      exists (j + 1)%Z. split; [lia|].
      rewrite Z.pow_add_r by lia. lia.
    + apply IH; [exact Hd|].
      apply Z.gauss with (m := 2%Z); [exact Hdiv|].
      assert (Hodd : Z.odd d = true) by (rewrite <- Z.negb_even, Ev; reflexivity).
      apply Z.odd_spec in Hodd. destruct Hodd as [m ->].
      pose proof (Z.gcd_nonneg (2 * m + 1) 2) as Hnn.
      pose proof (Z.gcd_divide_l (2 * m + 1) 2) as [u Hu].
      pose proof (Z.gcd_divide_r (2 * m + 1) 2) as [v Hv].
      set (c := Z.gcd (2 * m + 1) 2) in *.
      assert (Hc0 : c <> 0%Z) by (intros E; rewrite E in Hv; lia).
      assert (Hc2 : (c <= 2)%Z).
      { apply Z.divide_pos_le; [lia|]. exists v. exact Hv. }
      assert (Hc : (c = 1 \/ c = 2)%Z) by lia.
      destruct Hc as [Hc|Hc]; [exact Hc|]. rewrite Hc in Hu. lia.
Qed.

(** A multiple of [2^-g] whose numerator is below [2^53] is a double. *)
Lemma exact53_grid (g : nat) (n : Z) (x : Q) :
  x == inject_Z n / inject_Z (2 ^ Z.of_nat g) ->
  (Z.abs n < 2 ^ 53)%Z ->
  exact53 x = true.
Proof.
  intros Hx Hn. unfold exact53. cbv zeta.
  set (r := Qred x).
  assert (Hr : r == inject_Z n / inject_Z (2 ^ Z.of_nat g)).
  { unfold r. rewrite Qred_correct. exact Hx. }
  assert (Hg : Z.gcd (Qnum r) (QDen r) = 1%Z).
  { unfold r. apply gcd_Qred. }
  assert (Hpow : (0 < 2 ^ Z.of_nat g)%Z) by (apply Z.pow_pos_nonneg; lia).
  assert (Hcross : (Qnum r * 2 ^ Z.of_nat g = n * QDen r)%Z).
  { assert (H1 : r * inject_Z (2 ^ Z.of_nat g) == inject_Z n).
    { rewrite Hr. field. intros H0.
      unfold Qeq in H0. cbn in H0. lia. }
    unfold Qeq, Qmult, inject_Z in H1. cbn [Qnum Qden] in H1.
    rewrite Z.mul_1_r in H1. rewrite Pos.mul_1_r in H1. exact H1. }
  assert (Hdiv : (QDen r | 2 ^ Z.of_nat g)%Z).
  { apply Z.gauss with (m := Qnum r).
    - exists n. lia.
    - rewrite Z.gcd_comm. exact Hg. }
  destruct (divisor_of_pow2 g (QDen r) ltac:(lia) Hdiv) as (j & Hj & Hden).
  apply andb_true_iff. split.
  - apply Z.eqb_eq. rewrite Hden, Z.log2_pow2 by lia. reflexivity.
  - apply Z.ltb_lt.
    assert (Hle : (QDen r <= 2 ^ Z.of_nat g)%Z).
    { apply Z.divide_pos_le; [lia|exact Hdiv]. }
    assert (Habs : (Z.abs (Qnum r) * 2 ^ Z.of_nat g
                    = Z.abs n * QDen r)%Z).
    { pose proof (f_equal Z.abs Hcross) as Ha.
      rewrite !Z.abs_mul in Ha.
      rewrite (Z.abs_eq (2 ^ Z.of_nat g)), (Z.abs_eq (QDen r)) in Ha by lia.
      exact Ha. }
    nia.
Qed.

(** *** Rounding keeps the sign *)

Lemma roundEven_floor t : (Qfloor t <= roundEven t)%Z.
Proof.
  unfold roundEven. cbv zeta.
  destruct (Qltb (t - inject_Z (Qfloor t)) (1#2)); [lia|].
  destruct (Qltb (1#2) (t - inject_Z (Qfloor t))); [lia|].
  destruct (Z.even (Qfloor t)); lia.
Qed.

Lemma two_pow_Z (n : Z) : (0 <= n)%Z -> (2 : Q) ^ n == inject_Z (2 ^ n).
Proof. intros H. rewrite Zpower_Qpower by exact H. reflexivity. Qed.

(** The unit in the last place is below the number. *)
Lemma ulp_below (p q : positive) :
  2 ^ (ilog2 p q - 52) <= Zpos p # q.
Proof.
  set (lp := Z.log2 (Zpos p)). set (lq := Z.log2 (Zpos q)).
  assert (Hlp : (0 <= lp)%Z) by apply Z.log2_nonneg.
  assert (Hlq : (0 <= lq)%Z) by apply Z.log2_nonneg.
  assert (Hp : (2 ^ lp <= Zpos p)%Z) by (apply Z.log2_spec; lia).
  assert (Hq : (Zpos q < 2 ^ (lq + 1))%Z).
  { replace (lq + 1)%Z with (Z.succ lq) by lia. apply Z.log2_spec. lia. }
  assert (He : (ilog2 p q - 52 <= lp - (lq + 1))%Z).
  { unfold ilog2. fold lp lq. cbv zeta.
    destruct (Qleb (2 ^ (lp - lq)) (Zpos p # q)); lia. }
  apply Qle_trans with (2 ^ (lp - (lq + 1))).
  - apply Qpower_le_compat_l; [exact He|discriminate].
  - rewrite Qpower_minus by discriminate.
    rewrite !two_pow_Z by lia.
    rewrite (Qmake_Qdiv (Zpos p) q).
    assert (H1 : 0 < inject_Z (2 ^ lp)).
    { change 0 with (inject_Z 0). rewrite <- Zlt_Qlt.
      apply Z.pow_pos_nonneg; lia. }
    assert (H2 : inject_Z (2 ^ lp) <= inject_Z (Zpos p))
      by (rewrite <- Zle_Qle; exact Hp).
    assert (H3 : inject_Z (Zpos q) <= inject_Z (2 ^ (lq + 1)))
      by (rewrite <- Zle_Qle; lia).
    assert (H4 : 0 < inject_Z (Zpos q)) by reflexivity.
    apply Qle_shift_div_r; [lra|].
    assert (Hr : inject_Z (Zpos p) / inject_Z (Zpos q) * inject_Z (Zpos q)
                 == inject_Z (Zpos p)) by (field; lra).
    assert (Hr0 : 0 < inject_Z (Zpos p) / inject_Z (Zpos q))
      by (apply Qlt_shift_div_l; lra).
    revert Hr Hr0.
    generalize (inject_Z (Zpos p) / inject_Z (Zpos q)). intros r Hr Hr0.
    nra.
Qed.

Lemma nearestPos_pos (p q : positive) : 0 < nearestPos p q.
Proof.
  unfold nearestPos. cbv zeta. rewrite Qred_correct.
  set (ulp := 2 ^ (ilog2 p q - 52)).
  assert (Hu : 0 < ulp) by (apply Qpower_0_lt; reflexivity).
  pose proof (ulp_below p q) as Hb. fold ulp in Hb.
  assert (Ht : 1 <= (Zpos p # q) / ulp).
  { apply Qle_shift_div_l; [exact Hu|lra]. }
  assert (Hf : (1 <= Qfloor ((Zpos p # q) / ulp))%Z).
  { change 1%Z with (Qfloor 1). apply Qfloor_resp_le. exact Ht. }
  pose proof (roundEven_floor ((Zpos p # q) / ulp)) as Hr.
  assert (Hi : 1 <= inject_Z (roundEven ((Zpos p # q) / ulp))).
  { change 1 with (inject_Z 1). rewrite <- Zle_Qle. lia. }
  nra.
Qed.

(** Rounding keeps the sign. *)
Lemma fl_nonpos x : fl x <= 0 <-> x <= 0.
Proof.
  unfold fl. destruct (exact53 x); [reflexivity|].
  unfold nearest. destruct x as [n d]. cbn [Qnum Qden].
  destruct n as [|p|p].
  - split; intros _; [|apply Qle_refl]. unfold Qle. cbn. lia.
  - pose proof (nearestPos_pos p d) as H.
    split; intros H'; [lra|]. unfold Qle in H'. cbn in H'. lia.
  - pose proof (nearestPos_pos p d) as H.
    split; intros _; [|lra]. unfold Qle. cbn. lia.
Qed.

Lemma fl_nonneg x : 0 <= x -> 0 <= fl x.
Proof.
  intros Hx. unfold fl. destruct (exact53 x); [exact Hx|].
  unfold nearest. destruct x as [n d]. cbn [Qnum Qden].
  destruct n as [|p|p].
  - apply Qle_refl.
  - apply Qlt_le_weak, nearestPos_pos.
  - unfold Qle in Hx. cbn in Hx. lia.
Qed.

End Binary64Facts.

(** ** Sums, differences and products on a grid *)

Module DyadicFacts.
Import Optimize Binary64 DyadicVocabulary Binary64Facts.

Lemma pow2_pos (k : nat) : 0 < inject_Z (2 ^ Z.of_nat k).
Proof.
  change 0 with (inject_Z 0). rewrite <- Zlt_Qlt.
  apply Z.pow_pos_nonneg; lia.
Qed.

Lemma top_pos b : 0 < top b.
Proof. apply pow2_pos. Qed.

Lemma onGrid_0 g : onGrid g 0.
Proof. exists 0%Z. unfold Qdiv. rewrite Qmult_0_l. reflexivity. Qed.

Lemma onGrid_plus g x y : onGrid g x -> onGrid g y -> onGrid g (x + y).
Proof.
  intros [n Hn] [m Hm]. exists (n + m)%Z.
  pose proof (pow2_pos g). rewrite Hn, Hm, inject_Z_plus. field. lra.
Qed.

Lemma onGrid_minus g x y : onGrid g x -> onGrid g y -> onGrid g (x - y).
Proof.
  intros [n Hn] [m Hm]. exists (n - m)%Z.
  pose proof (pow2_pos g). rewrite Hn, Hm.
  unfold Z.sub. rewrite inject_Z_plus, inject_Z_opp. field. lra.
Qed.

Lemma onGrid_mult g x y :
  onGrid g x -> onGrid g y -> onGrid (g + g) (x * y).
Proof.
  intros [n Hn] [m Hm]. exists (n * m)%Z.
  pose proof (pow2_pos g).
  rewrite Hn, Hm, inject_Z_mult, Nat2Z.inj_add, Z.pow_add_r by lia.
  rewrite inject_Z_mult. field. lra.
Qed.

Lemma onGrid_max g x y : onGrid g x -> onGrid g y -> onGrid g (Qmax x y).
Proof.
  intros Hx Hy. destruct (Q.max_spec x y) as [[_ E]|[_ E]];
    destruct Hx as [n Hn], Hy as [m Hm]; [exists m|exists n];
    rewrite E; assumption.
Qed.

(** The numerator of a grid value between [-c] and [c]. *)
Lemma grid_numerator g n x (c : Z) :
  x == inject_Z n / inject_Z (2 ^ Z.of_nat g) ->
  - inject_Z c <= x -> x <= inject_Z c ->
  (Z.abs n <= c * 2 ^ Z.of_nat g)%Z.
Proof.
  intros Hx Hlo Hup. pose proof (pow2_pos g) as Hp.
  assert (Hn : inject_Z n == x * inject_Z (2 ^ Z.of_nat g)).
  { rewrite Hx. field. lra. }
  assert (H1 : inject_Z n <= inject_Z (c * 2 ^ Z.of_nat g)).
  { rewrite Hn, inject_Z_mult. apply Qmult_le_compat_r; lra. }
  assert (H2 : inject_Z (- (c * 2 ^ Z.of_nat g)) <= inject_Z n).
  { rewrite Hn, inject_Z_opp, inject_Z_mult.
    setoid_replace (- (inject_Z c * inject_Z (2 ^ Z.of_nat g)))
      with ((- inject_Z c) * inject_Z (2 ^ Z.of_nat g)) by ring.
    apply Qmult_le_compat_r; lra. }
  rewrite <- Zle_Qle in H1, H2. lia.
Qed.

Section Range.

Variables g b : nat.
Hypothesis range : (2 * (b + g) <= 52)%nat.

(** A grid value between [-2 * 2^b] and [2 * 2^b] is a double: it is the
    exact result of the sum or difference that computes it. *)
Lemma fl_sum x :
  onGrid g x -> - (2 * top b) <= x -> x <= 2 * top b -> fl x = x.
Proof.
  intros [n Hn] Hlo Hup. apply fl_exact.
  apply (exact53_grid g n x Hn).
  assert (H2 : 2 * top b == inject_Z (2 * 2 ^ Z.of_nat b)).
  { unfold top. rewrite inject_Z_mult. reflexivity. }
  rewrite H2 in Hlo, Hup.
  pose proof (grid_numerator g n x _ Hn Hlo Hup) as Hb.
  assert (Hp : (2 * 2 ^ Z.of_nat b * 2 ^ Z.of_nat g
                = 2 ^ Z.of_nat (b + g + 1))%Z).
  { rewrite !Nat2Z.inj_add, !Z.pow_add_r by lia.
    change (2 ^ Z.of_nat 1)%Z with 2%Z. lia. }
  rewrite Hp in Hb.
  assert (Hm : (2 ^ Z.of_nat (b + g + 1) <= 2 ^ 27)%Z).
  { apply Z.pow_le_mono_r; lia. }
  assert (H53 : (2 ^ 27 < 2 ^ 53)%Z) by reflexivity.
  lia.
Qed.

(** A value of the doubled grid between [-(2^b)^2] and [(2^b)^2] is a
    double: it is the exact result of the product, or difference of
    products, that computes it. *)
Lemma fl_area x :
  onGrid (g + g) x -> - (top b * top b) <= x -> x <= top b * top b ->
  fl x = x.
Proof.
  intros [n Hn] Hlo Hup. apply fl_exact.
  apply (exact53_grid (g + g) n x Hn).
  assert (H2 : top b * top b
               == inject_Z (2 ^ Z.of_nat b * 2 ^ Z.of_nat b)).
  { unfold top. rewrite inject_Z_mult. reflexivity. }
  rewrite H2 in Hlo, Hup.
  pose proof (grid_numerator (g + g) n x _ Hn Hlo Hup) as Hb.
  assert (Hp : (2 ^ Z.of_nat b * 2 ^ Z.of_nat b * 2 ^ Z.of_nat (g + g)
                = 2 ^ Z.of_nat (2 * (b + g)))%Z).
  { replace (Z.of_nat (2 * (b + g)))
      with (Z.of_nat b + Z.of_nat b + Z.of_nat (g + g))%Z by lia.
    rewrite !Z.pow_add_r by lia. reflexivity. }
  rewrite Hp in Hb.
  assert (Hm : (2 ^ Z.of_nat (2 * (b + g)) <= 2 ^ 52)%Z).
  { apply Z.pow_le_mono_r; lia. }
  assert (H53 : (2 ^ 52 < 2 ^ 53)%Z) by reflexivity.
  lia.
Qed.

End Range.

End DyadicFacts.

(** ** The double-precision run of the nesting *)

Module RoundedFacts.
Import Optimize Geometry NestingVocabulary Binary64 DyadicVocabulary.
Import OptimizeFacts NestingFacts Binary64Facts DyadicFacts.

(** *** On dyadic inputs the double-precision run is the exact run *)

Create HintDb grid.

#[local] Hint Resolve onGrid_plus onGrid_minus onGrid_max onGrid_0 : grid.

Section ExactRun.

Variables g b : nat.
Hypothesis range : (2 * (b + g) <= 52)%nat.

Variables sheetW sheetL kerf : Q.
Hypothesis sheetW_dyadic : dyadic g b sheetW.
Hypothesis sheetL_dyadic : dyadic g b sheetL.
Hypothesis kerf_dyadic : dyadic g b kerf.

(** Strip the roundings of sums and differences whose operands are on the
    grid and whose result is within range. *)
Ltac exact_sums :=
  repeat match goal with
  | |- context [fl ?x] =>
      rewrite (fl_sum g b range x)
        by (try solve [auto 10 with grid]; lra)
  end.

Ltac open_rect H :=
  let G1 := fresh "Gx" in let G2 := fresh "Gy" in
  let G3 := fresh "Gw" in let G4 := fresh "Gh" in
  destruct H as [(G1 & G2 & G3 & G4) [(? & ? & ? & ?) (? & ?)]].

Ltac range_facts :=
  pose proof (top_pos b);
  destruct sheetW_dyadic as (? & ? & ?);
  destruct sheetL_dyadic as (? & ? & ?);
  destruct kerf_dyadic as (? & ? & ?).

Lemma containedIn_same r o :
  gridRect g sheetW sheetL r -> gridRect g sheetW sheetL o ->
  Rounded.containedIn r o = containedIn r o.
Proof.
  intros Hr Ho. open_rect Hr. open_rect Ho. range_facts.
  unfold Rounded.containedIn, containedIn. exact_sums. reflexivity.
Qed.

Lemma containedInOther_same i r : forall os j,
  gridRect g sheetW sheetL r -> Forall (gridRect g sheetW sheetL) os ->
  Rounded.containedInOther i r j os = containedInOther i r j os.
Proof.
  induction os as [|o os IH]; intros j Hr Hos; [reflexivity|].
  inversion Hos as [|? ? Ho Hos']; subst.
  cbn [Rounded.containedInOther containedInOther].
  rewrite containedIn_same, IH by assumption. reflexivity.
Qed.

Lemma removeDuplicateRectsFrom_same rects : forall rest i,
  Forall (gridRect g sheetW sheetL) rects ->
  Forall (gridRect g sheetW sheetL) rest ->
  Rounded.removeDuplicateRectsFrom rects i rest
    = removeDuplicateRectsFrom rects i rest.
Proof.
  induction rest as [|r rest IH]; intros i Hrects Hrest; [reflexivity|].
  inversion Hrest as [|? ? Hr Hrest']; subst.
  cbn [Rounded.removeDuplicateRectsFrom removeDuplicateRectsFrom].
  rewrite containedInOther_same, IH by assumption. reflexivity.
Qed.

Lemma removeDuplicateRects_same rects :
  Forall (gridRect g sheetW sheetL) rects ->
  Rounded.removeDuplicateRects rects = removeDuplicateRects rects.
Proof.
  intros H. apply removeDuplicateRectsFrom_same; exact H.
Qed.

(** The body of the loop of [updateFreeRects] for a placement on the grid
    and within the sheet. *)
Lemma splitFree_same (p : Placement) (f : FreeRect) :
  gridRect g sheetW sheetL (occupied p) -> gridRect g sheetW sheetL f ->
  Rounded.splitFree (p_x p) (p_y p) (p_w p + kerf) (p_h p + kerf) f
    = splitFree (p_x p) (p_y p) (p_w p + kerf) (p_h p + kerf) f.
Proof.
  intros Hp Hf. open_rect Hp. open_rect Hf. range_facts.
  cbn [occupied fx fy fw fh] in *.
  unfold Rounded.splitFree, splitFree. exact_sums. reflexivity.
Qed.

(** The residual rectangles are on the grid, on the sheet and of
    non-negative extent. *)
Lemma splitFree_grid (p : Placement) (f r : FreeRect) :
  gridRect g sheetW sheetL (occupied p) -> gridRect g sheetW sheetL f ->
  In r (splitFree (p_x p) (p_y p) (p_w p + kerf) (p_h p + kerf) f) ->
  gridRect g sheetW sheetL r.
Proof.
  intros Hp Hf. pose proof Hf as Hf'. open_rect Hp. open_rect Hf.
  range_facts. cbn [occupied fx fy fw fh] in *.
  unfold splitFree.
  destruct (Qleb (fx f + fw f) (p_x p) ||
            Qleb (p_x p + (p_w p + kerf)) (fx f) ||
            Qleb (fy f + fh f) (p_y p) ||
            Qleb (p_y p + (p_h p + kerf)) (fy f)) eqn:Esep.
  - intros [<-|[]]. exact Hf'.
  - destruct (Qltb (fx f) (p_x p)) eqn:E1;
      destruct (Qltb (p_x p + (p_w p + kerf)) (fx f + fw f)) eqn:E2;
      destruct (Qltb (fy f) (p_y p)) eqn:E3;
      destruct (Qltb (p_y p + (p_h p + kerf)) (fy f + fh f)) eqn:E4;
      cbn [app In]; qbool; intros Hin;
      repeat (destruct Hin as [<-|Hin];
              [unfold gridRect; cbn [fx fy fw fh];
               repeat split; try solve [auto 10 with grid]; lra|]);
      destruct Hin.
Qed.

Lemma flat_map_same {A B} (f1 f2 : A -> list B) (P : A -> Prop) :
  (forall a, P a -> f1 a = f2 a) ->
  forall l, Forall P l -> flat_map f1 l = flat_map f2 l.
Proof.
  intros Hf. induction l as [|a l IH]; intros Hl; [reflexivity|].
  inversion Hl; subst. cbn [flat_map]. rewrite Hf, IH by assumption.
  reflexivity.
Qed.

Lemma newFree_grid (s : Sheet) (p : Placement) :
  Forall (gridRect g sheetW sheetL) (freeRects s) ->
  gridRect g sheetW sheetL (occupied p) ->
  Forall (gridRect g sheetW sheetL)
    (flat_map (splitFree (p_x p) (p_y p) (p_w p + kerf) (p_h p + kerf))
              (freeRects s)).
Proof.
  intros Hs Hp. rewrite Forall_forall in *. intros r Hr.
  apply in_flat_map in Hr. destruct Hr as (f & Hf & Hr).
  eapply splitFree_grid; [exact Hp|apply Hs; exact Hf|exact Hr].
Qed.

Lemma updateFreeRects_same (s : Sheet) (p : Placement) :
  gridSheet g sheetW sheetL kerf s ->
  gridRect g sheetW sheetL (occupied p) ->
  Rounded.updateFreeRects s p = updateFreeRects s p.
Proof.
  intros [Hk Hs] Hp.
  unfold Rounded.updateFreeRects, updateFreeRects. cbv zeta. rewrite Hk.
  assert (Hw : fl (p_w p + kerf) = p_w p + kerf).
  { pose proof Hp as Hp'. open_rect Hp'. range_facts.
    cbn [occupied fx fy fw fh] in *.
    apply (fl_sum g b range); [auto with grid|lra|lra]. }
  assert (Hh : fl (p_h p + kerf) = p_h p + kerf).
  { pose proof Hp as Hp'. open_rect Hp'. range_facts.
    cbn [occupied fx fy fw fh] in *.
    apply (fl_sum g b range); [auto with grid|lra|lra]. }
  rewrite Hw, Hh.
  rewrite (flat_map_same _ _ _ (fun f => splitFree_same p f Hp) _ Hs).
  rewrite removeDuplicateRects_same; [reflexivity|].
  apply newFree_grid; assumption.
Qed.

Lemma addPlacement_same (s : Sheet) rect x y rotated :
  gridSheet g sheetW sheetL kerf s ->
  gridRect g sheetW sheetL (occupied (makePlacement rect x y rotated)) ->
  Rounded.addPlacement s rect x y rotated = addPlacement s rect x y rotated.
Proof.
  intros [Hk Hs] Hp. unfold Rounded.addPlacement, addPlacement. cbv zeta.
  apply updateFreeRects_same; [|exact Hp]. split; assumption.
Qed.

Lemma gridSheet_addPlacement (s : Sheet) rect x y rotated :
  gridSheet g sheetW sheetL kerf s ->
  gridRect g sheetW sheetL (occupied (makePlacement rect x y rotated)) ->
  gridSheet g sheetW sheetL kerf (addPlacement s rect x y rotated).
Proof.
  intros [Hk Hs] Hp. split; [exact Hk|].
  rewrite freeRects_addPlacement, Hk.
  pose proof (newFree_grid s _ Hs Hp) as Hnew.
  rewrite Forall_forall in *. intros r Hr.
  apply removeDuplicateRects_In in Hr. apply Hnew. apply Hr.
Qed.

Lemma gridSheet_newSheet index :
  gridSheet g sheetW sheetL kerf (newSheet sheetW sheetL index kerf).
Proof.
  range_facts. split; [reflexivity|]. cbn [newSheet freeRects].
  constructor; [|constructor].
  unfold gridRect; cbn [fx fy fw fh].
  repeat split; try solve [auto with grid]; lra.
Qed.

(** The position search. *)
Lemma tryFreeRect_same rectW rectH st f :
  dyadic g b rectW -> dyadic g b rectH ->
  gridRect g sheetW sheetL f ->
  Rounded.tryFreeRect rectW rectH st f = tryFreeRect rectW rectH st f.
Proof.
  intros (? & ? & ?) (? & ? & ?) Hf. open_rect Hf. range_facts.
  unfold Rounded.tryFreeRect, tryFreeRect.
  destruct (Qleb rectW (fw f) && Qleb rectH (fh f)) eqn:En;
    destruct (Qleb rectH (fw f) && Qleb rectW (fh f)) eqn:Er;
    qbool; exact_sums; reflexivity.
Qed.

Lemma findBestPosition_same (s : Sheet) rectW rectH k :
  dyadic g b rectW -> dyadic g b rectH ->
  gridSheet g sheetW sheetL kerf s ->
  Rounded.findBestPosition s rectW rectH k
    = findBestPosition s rectW rectH k.
Proof.
  intros Hw Hh [_ Hs]. unfold Rounded.findBestPosition, findBestPosition.
  f_equal. generalize (@None Position, @None Q).
  induction Hs as [|f fs Hf Hfs IH]; intros st; [reflexivity|].
  cbn [fold_left]. rewrite tryFreeRect_same by assumption. apply IH.
Qed.

(** A position found for a dyadic rectangle gives a placement on the grid
    and within the sheet. *)
Lemma found_position_grid (s : Sheet) (rect : Rectangle) k pos :
  dyadicRect g b rect ->
  gridSheet g sheetW sheetL kerf s ->
  findBestPosition s (rect_w rect) (rect_h rect) k = Some pos ->
  gridRect g sheetW sheetL
    (occupied (makePlacement rect (pos_x pos) (pos_y pos) (pos_rotated pos))).
Proof.
  intros [(? & ? & ?) (? & ? & ?)] [_ Hs] Hpos.
  apply findBestPosition_Some in Hpos.
  destruct Hpos as (f & Hf & Hx & Hy & Hfit).
  rewrite Forall_forall in Hs. specialize (Hs f Hf). open_rect Hs.
  unfold gridRect, occupied, makePlacement. cbn [fx fy fw fh p_x p_y p_w p_h].
  rewrite Hx, Hy.
  destruct (pos_rotated pos); destruct Hfit;
    repeat split; try assumption; lra.
Qed.

Lemma placeOnExisting_same (rect : Rectangle) : forall shs,
  dyadicRect g b rect ->
  Forall (gridSheet g sheetW sheetL kerf) shs ->
  Rounded.placeOnExisting rect kerf shs = placeOnExisting rect kerf shs /\
  forall shs', placeOnExisting rect kerf shs = Some shs' ->
               Forall (gridSheet g sheetW sheetL kerf) shs'.
Proof.
  intros shs Hrect. induction 1 as [|sh shs Hsh Hshs IH].
  - split; [reflexivity|]. intros shs' H. discriminate.
  - cbn [Rounded.placeOnExisting placeOnExisting].
    destruct Hrect as [Hw Hh].
    rewrite (findBestPosition_same sh _ _ kerf Hw Hh Hsh).
    destruct (findBestPosition sh (rect_w rect) (rect_h rect) kerf)
      as [pos|] eqn:Epos.
    + pose proof (found_position_grid sh rect kerf pos (conj Hw Hh) Hsh Epos)
        as Hp.
      rewrite (addPlacement_same sh rect _ _ _ Hsh Hp).
      split; [reflexivity|]. intros shs' H. injection H as <-.
      constructor; [|exact Hshs].
      apply gridSheet_addPlacement; assumption.
    + destruct IH as [IH1 IH2]. rewrite IH1.
      destruct (placeOnExisting rect kerf shs) as [rest'|].
      * split; [reflexivity|]. intros shs' H. injection H as <-.
        constructor; [exact Hsh|]. apply IH2. reflexivity.
      * split; [reflexivity|]. intros shs' H. discriminate.
Qed.

Lemma placeRect_same (st : NestResult) (rect : Rectangle) :
  dyadicRect g b rect ->
  Forall (gridSheet g sheetW sheetL kerf) (sheets st) ->
  Rounded.placeRect sheetW sheetL kerf st rect
    = placeRect sheetW sheetL kerf st rect /\
  Forall (gridSheet g sheetW sheetL kerf)
    (sheets (placeRect sheetW sheetL kerf st rect)).
Proof.
  intros Hrect Hst. unfold Rounded.placeRect, placeRect.
  destruct (negb (partFits (rect_w rect) (rect_h rect) sheetW sheetL)).
  - split; [reflexivity|exact Hst].
  - destruct (placeOnExisting_same rect (sheets st) Hrect Hst) as [E1 E2].
    rewrite E1.
    destruct (placeOnExisting rect kerf (sheets st)) as [shs'|].
    + split; [reflexivity|]. cbn [sheets]. apply E2. reflexivity.
    + cbv zeta. set (newSh := newSheet sheetW sheetL _ kerf).
      assert (Hnew : gridSheet g sheetW sheetL kerf newSh)
        by apply gridSheet_newSheet.
      destruct Hrect as [Hw Hh].
      rewrite (findBestPosition_same newSh _ _ kerf Hw Hh Hnew).
      destruct (findBestPosition newSh (rect_w rect) (rect_h rect) kerf)
        as [pos|] eqn:Epos.
      * pose proof (found_position_grid newSh rect kerf pos (conj Hw Hh)
                      Hnew Epos) as Hp.
        rewrite (addPlacement_same newSh rect _ _ _ Hnew Hp).
        split; [reflexivity|]. cbn [sheets].
        apply Forall_app. split; [exact Hst|].
        constructor; [|constructor].
        apply gridSheet_addPlacement; assumption.
      * split; [reflexivity|exact Hst].
Qed.

Lemma placing_loop_same : forall rects st,
  Forall (dyadicRect g b) rects ->
  Forall (gridSheet g sheetW sheetL kerf) (sheets st) ->
  fold_left (Rounded.placeRect sheetW sheetL kerf) rects st
    = fold_left (placeRect sheetW sheetL kerf) rects st.
Proof.
  induction rects as [|rect rects IH]; intros st Hrects Hst; [reflexivity|].
  inversion Hrects as [|? ? Hrect Hrects']; subst. cbn [fold_left].
  destruct (placeRect_same st rect Hrect Hst) as [E Hst'].
  rewrite E. apply IH; assumption.
Qed.

(** The sort: areas and their differences are computed exactly. *)
Lemma compareRects_same a c :
  dyadicRect g b a -> dyadicRect g b c ->
  Rounded.compareRects a c = compareRects a c.
Proof.
  intros [(Ga1 & ? & ?) (Ga2 & ? & ?)] [(Gc1 & ? & ?) (Gc2 & ? & ?)].
  pose proof (top_pos b) as Htop.
  unfold Rounded.compareRects, compareRects. cbv zeta.
  assert (Ha : 0 <= rect_w a * rect_h a <= top b * top b) by nra.
  assert (Hc : 0 <= rect_w c * rect_h c <= top b * top b) by nra.
  assert (Ea : fl (rect_w a * rect_h a) = rect_w a * rect_h a).
  { apply (fl_area g b range); [apply onGrid_mult; assumption|lra|lra]. }
  assert (Ec : fl (rect_w c * rect_h c) = rect_w c * rect_h c).
  { apply (fl_area g b range); [apply onGrid_mult; assumption|lra|lra]. }
  rewrite Ea, Ec.
  assert (Ed : fl (rect_w c * rect_h c - rect_w a * rect_h a)
               = rect_w c * rect_h c - rect_w a * rect_h a).
  { apply (fl_area g b range);
      [apply onGrid_minus; apply onGrid_mult; assumption|lra|lra]. }
  assert (Em : fl (Qmax (rect_w c) (rect_h c) - Qmax (rect_w a) (rect_h a))
               = Qmax (rect_w c) (rect_h c) - Qmax (rect_w a) (rect_h a)).
  { pose proof (Q.le_max_l (rect_w a) (rect_h a)).
    pose proof (Q.le_max_l (rect_w c) (rect_h c)).
    assert (Qmax (rect_w a) (rect_h a) <= top b)
      by (apply Q.max_lub; assumption).
    assert (Qmax (rect_w c) (rect_h c) <= top b)
      by (apply Q.max_lub; assumption).
    apply (fl_sum g b range); [auto with grid|lra|lra]. }
  rewrite Ed, Em. reflexivity.
Qed.

Lemma insertRect_same x : forall l,
  dyadicRect g b x -> Forall (dyadicRect g b) l ->
  Rounded.insertRect x l = insertRect x l.
Proof.
  induction l as [|y l IH]; intros Hx Hl; [reflexivity|].
  inversion Hl; subst. cbn [Rounded.insertRect insertRect].
  rewrite compareRects_same, IH by assumption. reflexivity.
Qed.

Lemma sortRects_same : forall l,
  Forall (dyadicRect g b) l -> Rounded.sortRects l = sortRects l.
Proof.
  induction l as [|x l IH]; intros Hl; [reflexivity|].
  inversion Hl as [|? ? Hx Hl']; subst.
  unfold Rounded.sortRects, sortRects in *. cbn [fold_right].
  rewrite IH by assumption. apply insertRect_same; [exact Hx|].
  rewrite Forall_forall in *. intros y Hy. apply Hl'.
  apply (Permutation_in _ (sortRects_perm l)). exact Hy.
Qed.

Lemma expandParts_dyadic (parts : list Part) :
  Forall (dyadicPart g b) parts ->
  Forall (dyadicRect g b) (expandParts parts).
Proof.
  intros Hparts. rewrite Forall_forall in *. intros r Hr.
  destruct (expandParts_from_part parts r Hr) as (p & Hp & _ & Ew & Eh & _).
  destruct (Hparts p Hp) as [Hw Hl].
  unfold dyadicRect. rewrite Ew, Eh. split; assumption.
Qed.

(** When the sheet, the kerf and every part dimension are multiples of
    [2^-g] between 0 and [2^b], with [2 (b + g) <= 52], no operation of
    [nestParts] rounds: the double-precision run returns what the exact
    run returns. *)
Lemma nestParts_same (parts : list Part) :
  Forall (dyadicPart g b) parts ->
  Rounded.nestParts parts sheetW sheetL kerf
    = nestParts parts sheetW sheetL kerf.
Proof.
  intros Hparts. unfold Rounded.nestParts, nestParts. cbv zeta.
  pose proof (expandParts_dyadic parts Hparts) as Hrects.
  rewrite sortRects_same by exact Hrects.
  apply placing_loop_same; [|constructor].
  rewrite Forall_forall in *. intros r Hr. apply Hrects.
  apply (Permutation_in _ (sortRects_perm (expandParts parts))). exact Hr.
Qed.

End ExactRun.

(** *** The sort *)

Lemma rounded_insertRect_perm x : forall l,
  Permutation (Rounded.insertRect x l) (x :: l).
Proof.
  induction l as [|y l IH]; cbn [Rounded.insertRect]; [reflexivity|].
  destruct (Qleb (Rounded.compareRects x y) 0); [reflexivity|].
  rewrite IH. apply perm_swap.
Qed.

Lemma rounded_sortRects_perm : forall l,
  Permutation (Rounded.sortRects l) l.
Proof.
  induction l as [|x l IH]; [reflexivity|].
  unfold Rounded.sortRects in *. cbn [fold_right].
  rewrite rounded_insertRect_perm. constructor. exact IH.
Qed.

(** The comparator is not positive exactly when its first argument sorts
    ahead of the second: the computed difference has the sign of the exact
    one. *)
Lemma rounded_compareRects_le a b :
  Rounded.compareRects a b <= 0 <-> sortsAhead a b.
Proof.
  unfold Rounded.compareRects, sortsAhead, computedArea, longerSide.
  cbv zeta.
  set (areaA := fl (rect_w a * rect_h a)).
  set (areaB := fl (rect_w b * rect_h b)).
  destruct (Qeq_bool areaB areaA) eqn:E; cbn [negb]; rewrite fl_nonpos.
  - apply Qeq_bool_iff in E. split.
    + intros H. right. split; [exact E|lra].
    + intros [H|[_ H]]; lra.
  - apply Qeq_bool_neq in E. split.
    + intros H. left.
      assert (Hle : areaB <= areaA) by lra.
      apply Qle_lteq in Hle. destruct Hle as [Hlt|Heq]; [exact Hlt|].
      contradiction.
    + intros [H|[H _]]; [lra|contradiction].
Qed.

Lemma sortsAhead_total a b : ~ sortsAhead a b -> sortsAhead b a.
Proof.
  unfold sortsAhead. intros H.
  destruct (Qlt_le_dec (computedArea b) (computedArea a)) as [Hlt|Hle];
    [tauto|].
  apply Qle_lteq in Hle. destruct Hle as [Hlt|Heq]; [left; exact Hlt|].
  right. split; [exact Heq|].
  destruct (Qlt_le_dec (longerSide b) (longerSide a)) as [Hl|Hl]; [|exact Hl].
  exfalso. apply H. right. split; lra.
Qed.

Lemma sortsAhead_trans a b c :
  sortsAhead a b -> sortsAhead b c -> sortsAhead a c.
Proof.
  unfold sortsAhead.
  intros [H1|[H1 H1']] [H2|[H2 H2']];
    [left; lra|left; lra|left; lra|right; split; lra].
Qed.

Lemma rounded_insertRect_sorted x : forall l,
  StronglySorted sortsAhead l ->
  StronglySorted sortsAhead (Rounded.insertRect x l).
Proof.
  induction l as [|y l IH]; intros Hs; cbn [Rounded.insertRect].
  - constructor; constructor.
  - inversion Hs as [|? ? Hl Hy]; subst.
    destruct (Qleb (Rounded.compareRects x y) 0) eqn:E.
    + apply Qleb_true, rounded_compareRects_le in E.
      constructor; [exact Hs|]. constructor; [exact E|].
      rewrite Forall_forall in Hy |- *. intros z Hz.
      eapply sortsAhead_trans; [exact E|apply Hy, Hz].
    + apply Qleb_false in E.
      assert (Hyx : sortsAhead y x).
      { apply sortsAhead_total. intros H.
        apply rounded_compareRects_le in H. lra. }
      constructor; [apply IH, Hl|].
      rewrite Forall_forall in Hy |- *. intros z Hz.
      apply (Permutation_in _ (rounded_insertRect_perm x l)) in Hz.
      destruct Hz as [<-|Hz]; [exact Hyx|apply Hy, Hz].
Qed.

(** X9.  The order in which [nestParts] places the pieces, in double
    precision: the sort keeps every piece, and in its result each piece
    comes before all pieces of smaller computed area (the rounded product
    [w * h]), and before the pieces of equal computed area whose longer
    side is shorter. *)
Theorem rounded_sortRects_sorted (l : list Rectangle) :
  Permutation (Rounded.sortRects l) l /\
  StronglySorted sortsAhead (Rounded.sortRects l).
Proof.
  split; [apply rounded_sortRects_perm|].
  induction l as [|x l IH]; unfold Rounded.sortRects in *; cbn [fold_right].
  - constructor.
  - apply rounded_insertRect_sorted, IH.
Qed.

(** The pieces 9.9 x 0.7 and 3.15 x 2.2 have the same area as decimals;
    the computed areas differ, 6.93 and 6.930000000000001, so the second
    goes first although its longer side is the shorter one. *)
Example computed_area_decides_order :
  let long := newRectangle (literal 99 10) (literal 7 10) 0 "long"
                None None None in
  let square := newRectangle (literal 315 100) (literal 22 10) 1 "square"
                  None None None in
  Rounded.sortRects [long; square] = [square; long] /\
  computedArea long < computedArea square /\
  longerSide square < longerSide long.
Proof. vm_compute. repeat split; reflexivity. Qed.

(** *** Invariants of the placing loop in double precision *)

Section RoundedInvariant.

Variables sheetW sheetL kerf : Q.
Variable P : Sheet -> Prop.
Variable R : Rectangle -> Prop.

Hypothesis P_existing : forall sh rect pos,
  R rect -> P sh ->
  Rounded.findBestPosition sh (rect_w rect) (rect_h rect) kerf = Some pos ->
  P (Rounded.addPlacement sh rect (pos_x pos) (pos_y pos) (pos_rotated pos)).

Hypothesis P_fresh : forall index rect pos,
  R rect ->
  Rounded.findBestPosition (newSheet sheetW sheetL index kerf)
    (rect_w rect) (rect_h rect) kerf = Some pos ->
  P (Rounded.addPlacement (newSheet sheetW sheetL index kerf) rect
       (pos_x pos) (pos_y pos) (pos_rotated pos)).

Lemma rounded_placeOnExisting_invariant rect : forall shs shs',
  R rect -> Forall P shs ->
  Rounded.placeOnExisting rect kerf shs = Some shs' ->
  Forall P shs'.
Proof.
  induction shs as [|sh shs IH]; intros shs' Hr Hall H;
    cbn [Rounded.placeOnExisting] in H.
  - discriminate.
  - inversion Hall as [|? ? Hsh Hrest]; subst.
    destruct (Rounded.findBestPosition sh (rect_w rect) (rect_h rect) kerf)
      as [pos|] eqn:Epos.
    + injection H as <-. constructor; [|exact Hrest].
      apply P_existing; assumption.
    + destruct (Rounded.placeOnExisting rect kerf shs) as [rest'|] eqn:Erest;
        [|discriminate].
      injection H as <-. constructor; [exact Hsh|].
      apply IH; [exact Hr|exact Hrest|reflexivity].
Qed.

Lemma rounded_placeRect_invariant st rect :
  R rect -> Forall P (sheets st) ->
  Forall P (sheets (Rounded.placeRect sheetW sheetL kerf st rect)).
Proof.
  intros Hr Hall. unfold Rounded.placeRect.
  destruct (negb (partFits (rect_w rect) (rect_h rect) sheetW sheetL));
    [exact Hall|].
  destruct (Rounded.placeOnExisting rect kerf (sheets st)) as [shs'|] eqn:Eex.
  - cbn [sheets]. eapply rounded_placeOnExisting_invariant; eassumption.
  - destruct (Rounded.findBestPosition _ (rect_w rect) (rect_h rect) kerf)
      as [pos2|] eqn:Epos; [|exact Hall].
    cbn [sheets]. apply Forall_app. split; [exact Hall|].
    constructor; [|constructor]. apply P_fresh; assumption.
Qed.

Lemma rounded_placing_loop_invariant : forall rects st,
  Forall R rects -> Forall P (sheets st) ->
  Forall P (sheets (fold_left (Rounded.placeRect sheetW sheetL kerf)
                      rects st)).
Proof.
  induction rects as [|rect rects IH]; intros st Hrs Hall; cbn [fold_left].
  - exact Hall.
  - inversion Hrs; subst. apply IH; [assumption|].
    apply rounded_placeRect_invariant; assumption.
Qed.

End RoundedInvariant.

(** A position returned by the search is the corner of a free rectangle
    of the sheet. *)
Lemma rounded_tryFreeRect_corner (G : Position -> Prop) rectW rectH st f :
  (forall pos, fst st = Some pos -> G pos) ->
  (forall rotated,
     G {| pos_x := fx f; pos_y := fy f; pos_rotated := rotated |}) ->
  forall pos, fst (Rounded.tryFreeRect rectW rectH st f) = Some pos -> G pos.
Proof.
  intros Hst Hf pos. unfold Rounded.tryFreeRect.
  destruct (Qleb rectH (fw f) && Qleb rectW (fh f));
    destruct (Qleb rectW (fw f) && Qleb rectH (fh f));
    repeat match goal with
    | |- context [if scoreBelow ?a ?b then _ else _] =>
        destruct (scoreBelow a b)
    end;
    cbn [fst snd]; intros H; try (apply Hst; exact H);
    injection H as <-; apply Hf.
Qed.

Lemma rounded_findBestPosition_corner s rectW rectH kerf pos :
  Rounded.findBestPosition s rectW rectH kerf = Some pos ->
  exists f, In f (freeRects s) /\ pos_x pos = fx f /\ pos_y pos = fy f.
Proof.
  unfold Rounded.findBestPosition.
  set (G := fun pos : Position => exists f, In f (freeRects s) /\
    pos_x pos = fx f /\ pos_y pos = fy f).
  assert (Hgen : forall l st,
    incl l (freeRects s) ->
    (forall p, fst st = Some p -> G p) ->
    forall p, fst (fold_left (Rounded.tryFreeRect rectW rectH) l st) = Some p
              -> G p).
  { induction l as [|f l IH]; intros st Hincl Hst p; cbn [fold_left].
    - apply Hst.
    - apply IH.
      + intros x Hx. apply Hincl. right. exact Hx.
      + apply rounded_tryFreeRect_corner; [exact Hst|].
        intros rotated. exists f. cbn.
        split; [apply Hincl; left; reflexivity|auto]. }
  apply (Hgen (freeRects s) (None, None)).
  - apply incl_refl.
  - intros p H. discriminate.
Qed.

Lemma rounded_removeDuplicateRectsFrom_incl rects : forall rest i r,
  In r (Rounded.removeDuplicateRectsFrom rects i rest) -> In r rest.
Proof.
  induction rest as [|r0 rest IH]; intros i r H;
    cbn [Rounded.removeDuplicateRectsFrom] in H; [exact H|].
  destruct (negb (Rounded.containedInOther i r0 0 rects) && Qltb 0 (fw r0)
            && Qltb 0 (fh r0)).
  - destruct H as [<-|H]; [left; reflexivity|right; eapply IH; exact H].
  - right. eapply IH. exact H.
Qed.

(** The residual rectangles of a split start at non-negative
    coordinates. *)
Lemma rounded_splitFree_origin occX occY occW occH f r :
  0 <= occX -> 0 <= occY -> 0 <= occW -> 0 <= occH ->
  0 <= fx f -> 0 <= fy f ->
  In r (Rounded.splitFree occX occY occW occH f) ->
  0 <= fx r /\ 0 <= fy r.
Proof.
  intros HX HY HW HH Hx Hy. unfold Rounded.splitFree.
  assert (Hsx : 0 <= fl (occX + occW)) by (apply fl_nonneg; lra).
  assert (Hsy : 0 <= fl (occY + occH)) by (apply fl_nonneg; lra).
  destruct (_ || _ || _ || _).
  - intros [<-|[]]. split; assumption.
  - destruct (Qltb (fx f) occX);
      destruct (Qltb (fl (occX + occW)) (fl (fx f + fw f)));
      destruct (Qltb (fy f) occY);
      destruct (Qltb (fl (occY + occH)) (fl (fy f + fh f)));
      cbn [app In]; intros Hin;
      repeat (destruct Hin as [<-|Hin]; [cbn [fx fy]; split; assumption|]);
      destruct Hin.
Qed.

Lemma fromOrigin_addPlacement kerf sh rect pos k :
  0 <= kerf -> nonNegative rect -> fromOrigin kerf sh ->
  Rounded.findBestPosition sh (rect_w rect) (rect_h rect) k = Some pos ->
  fromOrigin kerf
    (Rounded.addPlacement sh rect (pos_x pos) (pos_y pos) (pos_rotated pos)).
Proof.
  intros Hk [Hw Hh] (Hkerf & Hfree & Hpl) Hpos.
  apply rounded_findBestPosition_corner in Hpos.
  destruct Hpos as (f & Hf & Ex & Ey).
  rewrite Forall_forall in Hfree.
  destruct (Hfree f Hf) as [Hfx Hfy].
  assert (Hpx : 0 <= pos_x pos) by (rewrite Ex; exact Hfx).
  assert (Hpy : 0 <= pos_y pos) by (rewrite Ey; exact Hfy).
  split; [exact Hkerf|]. split.
  - unfold Rounded.addPlacement, Rounded.updateFreeRects. cbv zeta.
    cbn [freeRects withFreeRects s_kerf makePlacement p_x p_y p_w p_h].
    apply Forall_forall. intros r Hr.
    apply rounded_removeDuplicateRectsFrom_incl in Hr.
    apply in_flat_map in Hr. destruct Hr as (f' & Hf' & Hr).
    destruct (Hfree f' Hf') as [Hfx' Hfy'].
    rewrite Hkerf in Hr.
    eapply rounded_splitFree_origin; [| | | | | |exact Hr];
      try assumption; apply fl_nonneg;
      destruct (pos_rotated pos); lra.
  - unfold Rounded.addPlacement, Rounded.updateFreeRects. cbv zeta.
    cbn [placements withFreeRects].
    apply Forall_app. split; [exact Hpl|].
    constructor; [|constructor]. cbn [makePlacement p_x p_y].
    split; assumption.
Qed.

Lemma fromOrigin_newSheet sheetW sheetL index kerf :
  fromOrigin kerf (newSheet sheetW sheetL index kerf).
Proof.
  split; [reflexivity|]. split; cbn [newSheet freeRects placements].
  - constructor; [|constructor]. cbn [fx fy]. split; apply Qle_refl.
  - constructor.
Qed.

(** In double precision, for non-negative part dimensions and kerf, every
    placement starts at non-negative coordinates. *)
Lemma rounded_placements_from_origin
    (parts : list Part) (sheetW sheetL kerf : Q) (sh : Sheet)
    (p : Placement) :
  0 <= kerf ->
  Forall (fun q => 0 <= part_w q /\ 0 <= part_l q) parts ->
  In sh (sheets (Rounded.nestParts parts sheetW sheetL kerf)) ->
  In p (placements sh) ->
  0 <= p_x p /\ 0 <= p_y p.
Proof.
  intros Hk Hparts Hsh Hp.
  assert (Hrects : Forall nonNegative (Rounded.sortRects (expandParts parts))).
  { rewrite Forall_forall in *. intros r Hr.
    apply (Permutation_in _ (rounded_sortRects_perm (expandParts parts)))
      in Hr.
    destruct (expandParts_from_part parts r Hr)
      as (q & Hq & _ & Ew & Eh & _).
    destruct (Hparts q Hq). unfold nonNegative. rewrite Ew, Eh.
    split; assumption. }
  assert (Hinv : Forall (fromOrigin kerf)
                   (sheets (Rounded.nestParts parts sheetW sheetL kerf))).
  { unfold Rounded.nestParts. cbv zeta.
    apply (rounded_placing_loop_invariant sheetW sheetL kerf
             (fromOrigin kerf) nonNegative).
    - intros s rect pos Hr Hs Hpos.
      eapply fromOrigin_addPlacement; eassumption.
    - intros index rect pos Hr Hpos.
      eapply fromOrigin_addPlacement;
        [exact Hk|exact Hr|apply fromOrigin_newSheet|exact Hpos].
    - exact Hrects.
    - constructor. }
  rewrite Forall_forall in Hinv. destruct (Hinv sh Hsh) as (_ & _ & Hpl).
  rewrite Forall_forall in Hpl. exact (Hpl p Hp).
Qed.

(** *** Calls that doubles compute exactly *)

Lemma dyadicCall_same g b parts sheetW sheetL kerf :
  dyadicCall g b parts sheetW sheetL kerf ->
  Rounded.nestParts parts sheetW sheetL kerf
    = nestParts parts sheetW sheetL kerf.
Proof.
  intros (Hr & HW & HL & Hk & Hp).
  apply (nestParts_same g b Hr sheetW sheetL kerf HW HL Hk parts Hp).
Qed.

(** C8 does not hold as stated, because doubles round.  On a sheet
    4.8 x 9.6 without kerf, the parts 0.56 x 9.6 and 4.24 x 1 go to one
    sheet; the second is put at [x = 0.56] in the free rectangle right of
    the first, whose computed width [4.8 - 0.56] is the double 4.24.  The
    sum of the doubles 0.56 and 4.24 exceeds the double 4.8, exactly and
    as the double sum 4.800000000000001: the placement ends beyond the
    sheet. *)
Lemma double_placement_beyond_sheet :
  let sheetW := literal 48 10 in
  let sheetL := literal 96 10 in
  let parts := [ mkPart "a" 1 (literal 56 100) (literal 96 10)
                   None None None;
                 mkPart "b" 1 (literal 424 100) (literal 1 1)
                   None None None ] in
  exists sh p,
    sheets (Rounded.nestParts parts sheetW sheetL 0) = [sh] /\
    nth_error (placements sh) 1 = Some p /\
    p_x p = literal 56 100 /\ p_w p = literal 424 100 /\
    sheetW < p_x p + p_w p /\
    sheetW < fl (p_x p + p_w p) /\
    ~ (0 <= p_x p /\ 0 <= p_y p /\
       p_x p + p_w p <= sheetW /\ p_y p + p_h p <= sheetL).
Proof.
  cbv zeta. eexists. eexists.
  split; [vm_compute; reflexivity|].
  split; [vm_compute; reflexivity|].
  split; [vm_compute; reflexivity|].
  split; [vm_compute; reflexivity|].
  split; [vm_compute; reflexivity|].
  split; [vm_compute; reflexivity|].
  intros (_ & _ & H & _). vm_compute in H. apply H. reflexivity.
Qed.

(** C8, amended.  In double precision, for non-negative part dimensions
    and kerf, every placement on every sheet that [nestParts] returns
    has [0 <= x] and [0 <= y]; and when the sheet dimensions, the kerf and
    every part dimension are multiples of [2^-g] between 0 and [2^b],
    with [2 (b + g) <= 52], it lies within the sheet:
    [x + w <= sheetW] and [y + h <= sheetL]. *)
Theorem rounded_placements_within_sheet
    (parts : list Part) (sheetW sheetL kerf : Q) (sh : Sheet)
    (p : Placement) :
  0 <= kerf ->
  Forall (fun q => 0 <= part_w q /\ 0 <= part_l q) parts ->
  In sh (sheets (Rounded.nestParts parts sheetW sheetL kerf)) ->
  In p (placements sh) ->
  0 <= p_x p /\ 0 <= p_y p /\
  forall g b : nat,
    dyadicCall g b parts sheetW sheetL kerf ->
    p_x p + p_w p <= sheetW /\ p_y p + p_h p <= sheetL.
Proof.
  intros Hk Hparts Hsh Hp.
  destruct (rounded_placements_from_origin parts sheetW sheetL kerf sh p
              Hk Hparts Hsh Hp) as [Hx Hy].
  split; [exact Hx|]. split; [exact Hy|].
  intros g b Hcall. rewrite (dyadicCall_same g b _ _ _ _ Hcall) in Hsh.
  destruct (nestParts_placements_within_sheet parts sheetW sheetL kerf sh p
              Hsh Hp) as (_ & _ & H).
  exact H.
Qed.

(** Why the theorems below are about dyadic calls.  On 48 x 96 stock with
    kerf 0.125, the parts 26.2 x 17.6 (twice), 42.9 x 12.6 (twice),
    9.6 x 39 and 9.2 x 16.6 (three times) go to one sheet.  The fourth
    placement is a rotated 26.2 x 17.6 piece at [x = 26.325]; the sixth,
    a rotated 9.2 x 16.6 piece at [x = 9.725], ends at
    [9.725 + 16.6], which exceeds 26.325 on the doubles, and the two share
    part of their height: they overlap by a rounding error. *)
Example double_placements_overlap :
  let parts := [ mkPart "a" 2 (literal 262 10) (literal 176 10)
                   None None None;
                 mkPart "b" 2 (literal 429 10) (literal 126 10)
                   None None None;
                 mkPart "c" 1 (literal 96 10) 39 None None None;
                 mkPart "d" 3 (literal 92 10) (literal 166 10)
                   None None None ] in
  exists sh pa pd,
    sheets (Rounded.nestParts parts 48 96 (1#8)) = [sh] /\
    nth_error (placements sh) 3 = Some pa /\
    nth_error (placements sh) 5 = Some pd /\
    p_x pa == literal 26325 1000 /\ p_x pd == literal 9725 1000 /\
    p_w pd == literal 166 10 /\
    p_x pa < p_x pd + p_w pd /\
    rectsOverlap (occupied pa) (occupied pd) = true.
Proof.
  cbv zeta. eexists. eexists. eexists.
  split; [vm_compute; reflexivity|].
  split; [vm_compute; reflexivity|].
  split; [vm_compute; reflexivity|].
  split; [vm_compute; reflexivity|].
  split; [vm_compute; reflexivity|].
  split; [vm_compute; reflexivity|].
  split; vm_compute; reflexivity.
Qed.

(** X10.  On a dyadic call, every free rectangle of every sheet that
    [nestParts] returns in double precision lies on the sheet, has
    positive width and height, and is clear of the occupied-plus-kerf
    rectangle of every placement of the sheet. *)
Theorem rounded_free_rects_are_free
    (g b : nat) (parts : list Part) (sheetW sheetL kerf : Q) (sh : Sheet)
    (f : FreeRect) :
  dyadicCall g b parts sheetW sheetL kerf ->
  In sh (sheets (Rounded.nestParts parts sheetW sheetL kerf)) ->
  In f (freeRects sh) ->
  withinSheet sheetW sheetL f /\
  0 < fw f /\ 0 < fh f /\
  forall p, In p (placements sh) ->
    rectsOverlap f (occupiedPlusKerf kerf p) = false.
Proof.
  intros Hcall. rewrite (dyadicCall_same g b _ _ _ _ Hcall).
  apply nestParts_free_rects_are_free.
Qed.

(** X12.  On a dyadic call, a placement on a sheet that [nestParts]
    returns in double precision does not reach into the
    occupied-plus-kerf rectangle of a placement made before it on that
    sheet: the kerf is kept on the far sides of the earlier piece. *)
Theorem rounded_later_placement_clear
    (g b : nat) (parts : list Part) (sheetW sheetL kerf : Q) (sh : Sheet)
    (i j : nat) (pi pj : Placement) :
  dyadicCall g b parts sheetW sheetL kerf ->
  In sh (sheets (Rounded.nestParts parts sheetW sheetL kerf)) ->
  (i < j)%nat ->
  nth_error (placements sh) i = Some pi ->
  nth_error (placements sh) j = Some pj ->
  clearOf (occupied pj) (occupiedPlusKerf kerf pi) /\
  rectsOverlap (occupied pj) (occupiedPlusKerf kerf pi) = false.
Proof.
  intros Hcall. rewrite (dyadicCall_same g b _ _ _ _ Hcall).
  apply later_placement_clear_of_earlier_kerf.
Qed.

(** X28.  On a dyadic call, the rectangles covered by two placements of a
    sheet that [nestParts] returns in double precision never overlap. *)
Theorem rounded_placements_do_not_overlap
    (g b : nat) (parts : list Part) (sheetW sheetL kerf : Q) (sh : Sheet)
    (i j : nat) (pi pj : Placement) :
  dyadicCall g b parts sheetW sheetL kerf ->
  In sh (sheets (Rounded.nestParts parts sheetW sheetL kerf)) ->
  i <> j ->
  nth_error (placements sh) i = Some pi ->
  nth_error (placements sh) j = Some pj ->
  rectsOverlap (occupied pi) (occupied pj) = false.
Proof.
  intros Hcall. rewrite (dyadicCall_same g b _ _ _ _ Hcall).
  apply placements_do_not_overlap.
  destruct Hcall as (_ & _ & _ & (_ & Hk & _) & _). exact Hk.
Qed.

(** *** The theorems above at concrete inputs *)

Ltac dyadic_value n :=
  split; [exists n; reflexivity|split; discriminate].

(** Whole eighths up to 128: five 20 x 30 pieces on 48 x 96 stock with
    kerf 1/8. *)
Lemma eighths_call :
  dyadicCall 3 7 [ mkPart "a" 5 20 30 None None None ] 48 96 (1#8).
Proof.
  split; [cbn; lia|].
  split; [dyadic_value 384%Z|]. split; [dyadic_value 768%Z|].
  split; [dyadic_value 1%Z|].
  constructor; [|constructor].
  split; cbn [part_w part_l]; [dyadic_value 160%Z|dyadic_value 240%Z].
Qed.

(** Whole inches up to 32: parts 10 x 10, 8 x 12 and 11 x 8 on a 20 x 20
    sheet with kerf 1. *)
Lemma inches_call :
  dyadicCall 0 5 [ mkPart "a" 1 10 10 None None None;
                   mkPart "b" 1 8 12 None None None;
                   mkPart "c" 1 11 8 None None None ] 20 20 1.
Proof.
  split; [cbn; lia|].
  split; [dyadic_value 20%Z|]. split; [dyadic_value 20%Z|].
  split; [dyadic_value 1%Z|].
  repeat constructor; cbn [part_w part_l];
    first [exists 10%Z; reflexivity | exists 8%Z; reflexivity
          | exists 12%Z; reflexivity | exists 11%Z; reflexivity
          | discriminate].
Qed.

(** The second placement of the first sheet lies on the sheet. *)
Lemma rounded_placements_within_sheet_witness :
  exists sh p,
    nth_error (sheets (Rounded.nestParts
                         [ mkPart "a" 5 20 30 None None None ]
                         48 96 (1#8))) 0 = Some sh /\
    nth_error (placements sh) 1 = Some p /\
    0 <= p_x p /\ 0 <= p_y p /\
    p_x p + p_w p <= 48 /\ p_y p + p_h p <= 96.
Proof.
  eexists. eexists.
  split; [vm_compute; reflexivity|]. split; [vm_compute; reflexivity|].
  assert (Hk : 0 <= 1#8) by discriminate.
  assert (Hparts : Forall (fun q => 0 <= part_w q /\ 0 <= part_l q)
                     [ mkPart "a" 5 20 30 None None None ]).
  { constructor; [|constructor]. split; discriminate. }
  destruct (rounded_placements_within_sheet
              [ mkPart "a" 5 20 30 None None None ] 48 96 (1#8) _ _ Hk Hparts
              ltac:(vm_compute; left; reflexivity)
              ltac:(vm_compute; right; left; reflexivity))
    as (Hx & Hy & Hfar).
  split; [exact Hx|]. split; [exact Hy|].
  exact (Hfar 3%nat 7%nat eighths_call).
Defined.

Lemma rounded_free_rects_are_free_witness :
  exists sh f,
    nth_error (sheets (Rounded.nestParts
                         [ mkPart "a" 5 20 30 None None None ]
                         48 96 (1#8))) 0 = Some sh /\
    nth_error (freeRects sh) 0 = Some f /\
    withinSheet 48 96 f /\ 0 < fw f /\ 0 < fh f /\
    forall p, In p (placements sh) ->
      rectsOverlap f (occupiedPlusKerf (1#8) p) = false.
Proof.
  eexists. eexists.
  split; [vm_compute; reflexivity|]. split; [vm_compute; reflexivity|].
  eapply (rounded_free_rects_are_free 3 7
            [ mkPart "a" 5 20 30 None None None ] 48 96 (1#8)).
  - exact eighths_call.
  - vm_compute. left. reflexivity.
  - vm_compute. left. reflexivity.
Defined.

(** The third piece stays clear of the kerf of the second. *)
Lemma rounded_later_placement_clear_witness :
  exists sh pi pj,
    nth_error (sheets (Rounded.nestParts
                         [ mkPart "a" 1 10 10 None None None;
                           mkPart "b" 1 8 12 None None None;
                           mkPart "c" 1 11 8 None None None ]
                         20 20 1)) 0 = Some sh /\
    nth_error (placements sh) 1 = Some pi /\
    nth_error (placements sh) 2 = Some pj /\
    clearOf (occupied pj) (occupiedPlusKerf 1 pi) /\
    rectsOverlap (occupied pj) (occupiedPlusKerf 1 pi) = false.
Proof.
  eexists. eexists. eexists.
  split; [vm_compute; reflexivity|]. split; [vm_compute; reflexivity|].
  split; [vm_compute; reflexivity|].
  eapply (rounded_later_placement_clear 0 5 _ 20 20 1 _ 1 2).
  - exact inches_call.
  - vm_compute. left. reflexivity.
  - lia.
  - vm_compute. reflexivity.
  - vm_compute. reflexivity.
Defined.

(** The same run: the second and the third piece do not overlap. *)
Lemma rounded_placements_do_not_overlap_witness :
  exists sh pi pj,
    nth_error (sheets (Rounded.nestParts
                         [ mkPart "a" 1 10 10 None None None;
                           mkPart "b" 1 8 12 None None None;
                           mkPart "c" 1 11 8 None None None ]
                         20 20 1)) 0 = Some sh /\
    nth_error (placements sh) 1 = Some pi /\
    nth_error (placements sh) 2 = Some pj /\
    rectsOverlap (occupied pi) (occupied pj) = false.
Proof.
  eexists. eexists. eexists.
  split; [vm_compute; reflexivity|]. split; [vm_compute; reflexivity|].
  split; [vm_compute; reflexivity|].
  eapply (rounded_placements_do_not_overlap 0 5 _ 20 20 1 _ 1 2).
  - exact inches_call.
  - vm_compute. left. reflexivity.
  - lia.
  - vm_compute. reflexivity.
  - vm_compute. reflexivity.
Defined.

End RoundedFacts.


(** ** The helper functions of optimize.js *)

Module AuxFacts.
Import Optimize Geometry OptimizeAux OptimizeFacts.

(** X13.  [createFullSheetViz] on a sheet of positive size with a
    non-negative kerf gives a sheet with one unrotated placement at the
    origin that has the size of the sheet, and with no free rectangle
    left. *)
Theorem createFullSheetViz_full
    (sheetW sheetL : Q) (index : nat) (kerf : Q) (partName : string)
    (category : option string) :
  0 < sheetW -> 0 < sheetL -> 0 <= kerf ->
  let sh := createFullSheetViz sheetW sheetL index kerf partName category in
  freeRects sh = [] /\
  placements sh
    = [ {| p_rect := newRectangle sheetW sheetL 0 partName category
                       None None;
           p_x := 0; p_y := 0; p_w := sheetW; p_h := sheetL;
           p_rotated := false |} ] /\
  s_index sh = index.
Proof.
  intros HW HL Hk sh. subst sh. unfold createFullSheetViz.
  split; [|split; reflexivity].
  rewrite freeRects_addPlacement.
  cbn [newSheet freeRects s_kerf flat_map makePlacement p_w p_h newRectangle
       rect_w rect_h]. rewrite app_nil_r. unfold splitFree. cbn [fx fy fw fh].
  assert (E1 : Qleb (0 + sheetW) 0 = false) by (apply Qleb_false; lra).
  assert (E2 : Qleb (0 + (sheetW + kerf)) 0 = false)
    by (apply Qleb_false; lra).
  assert (E3 : Qleb (0 + sheetL) 0 = false) by (apply Qleb_false; lra).
  assert (E4 : Qleb (0 + (sheetL + kerf)) 0 = false)
    by (apply Qleb_false; lra).
  rewrite E1, E2, E3, E4. cbn [orb].
  assert (E5 : Qltb 0 0 = false) by (apply Qltb_false; lra).
  assert (E6 : Qltb (0 + (sheetW + kerf)) (0 + sheetW) = false)
    by (apply Qltb_false; lra).
  assert (E7 : Qltb (0 + (sheetL + kerf)) (0 + sheetL) = false)
    by (apply Qltb_false; lra).
  rewrite E5, E6, E7. reflexivity.
Qed.

(** *** Quotients rounded up *)

(** How many stock lengths [p] cover [s]. *)
Lemma ceiling_div_facts (s p : Q) :
  0 < p -> 0 < s ->
  (1 <= Qceiling (s / p))%Z /\
  (p < s -> (2 <= Qceiling (s / p))%Z) /\
  s <= inject_Z (Qceiling (s / p)) * p.
Proof.
  intros Hp Hs.
  pose proof (Qle_ceiling (s / p)) as Hc.
  assert (E : s / p * p == s) by (field; lra).
  assert (Hq : 0 < s / p) by (apply Qlt_shift_div_l; lra).
  split; [|split].
  - assert (Hz : inject_Z 0 < inject_Z (Qceiling (s / p)))
      by (change (inject_Z 0) with 0; lra).
    rewrite <- Zlt_Qlt in Hz. lia.
  - intros Hlt.
    assert (Hx : 1 < s / p) by (apply Qlt_shift_div_l; lra).
    assert (Hz : inject_Z 1 < inject_Z (Qceiling (s / p)))
      by (change (inject_Z 1) with 1; lra).
    rewrite <- Zlt_Qlt in Hz. lia.
  - assert (Hm : s / p * p <= inject_Z (Qceiling (s / p)) * p)
      by (apply Qmult_le_compat_r; lra).
    lra.
Qed.

(** *** The theorems above at concrete inputs *)

Lemma createFullSheetViz_full_witness :
  freeRects (createFullSheetViz 48 96 3 (1#8) "Top Skin" (Some "skin"%string))
    = [] /\
  List.length
    (placements (createFullSheetViz 48 96 3 (1#8) "Top Skin"
                   (Some "skin"%string))) = 1%nat.
Proof.
  assert (Hk : 0 <= 1#8) by discriminate.
  destruct (createFullSheetViz_full 48 96 3 (1#8) "Top Skin"
              (Some "skin"%string) eq_refl eq_refl Hk) as (Hfree & Hpl & _).
  split; [exact Hfree|]. rewrite Hpl. reflexivity.
Defined.

End AuxFacts.

(** ** More on the oversize splitter *)

Module SplitterFacts.
Import Optimize Estimate EstimateFacts.

Lemma partFitsStock_swap a b stockW stockL :
  partFitsStock a b stockW stockL = partFitsStock b a stockW stockL.
Proof. unfold partFitsStock. apply orb_comm. Qed.

Lemma partFitsStock_true a b stockW stockL :
  partFitsStock a b stockW stockL = true <->
  (a <= stockW /\ b <= stockL) \/ (b <= stockW /\ a <= stockL).
Proof.
  unfold partFitsStock.
  rewrite orb_true_iff, !andb_true_iff, !Qleb_true. reflexivity.
Qed.

(** A strip of a layout fits the stock together with the kept
    dimension. *)
Lemma strip_fits_stock splitDim keepDim stockW stockL seamGap r :
  calcStripLayout splitDim keepDim stockW stockL seamGap = Some r ->
  partFitsStock (stripSize r) (Estimate.keepDim r) stockW stockL = true.
Proof.
  intros H.
  destruct (calcStripLayout_Some _ _ _ _ _ _ H) as (Hk & _ & -> & _ & Hs).
  cbn [stripSize Estimate.keepDim]. apply partFitsStock_true.
  revert Hs. unfold maxStripDimFor.
  destruct (Qleb keepDim stockL) eqn:EL, (Qleb keepDim stockW) eqn:EW;
    cbn [andb]; qbool; intros Hs.
  - destruct (Q.max_spec stockW stockL) as [[_ E]|[_ E]]; rewrite E in Hs;
      [right|left]; split; assumption.
  - left. split; assumption.
  - right. split; assumption.
  - exfalso. destruct Hk; lra.
Qed.

(** When the part does not fit the stock, the dimension that is split
    exceeds the maximum strip size. *)
Lemma oversized_split_dim splitDim keepDim stockW stockL :
  partFitsStock splitDim keepDim stockW stockL = false ->
  keepDim <= stockW \/ keepDim <= stockL ->
  maxStripDimFor keepDim stockW stockL < splitDim.
Proof.
  intros Hfit Hk. unfold partFitsStock in Hfit.
  apply orb_false_iff in Hfit. destruct Hfit as [H1 H2].
  apply andb_false_iff in H1, H2. unfold maxStripDimFor.
  destruct (Qleb keepDim stockL) eqn:EL, (Qleb keepDim stockW) eqn:EW;
    cbn [andb]; qbool.
  - destruct H1 as [H1|H1], H2 as [H2|H2]; try discriminate; qbool.
    apply Q.max_lub_lt; assumption.
  - destruct H1 as [H1|H1]; [qbool; assumption|discriminate].
  - destruct H2 as [H2|H2]; [discriminate|qbool; assumption].
  - exfalso. destruct Hk; lra.
Qed.

Lemma fitOrSplit_pieces_fit_stock
    (partW partL stockW stockL seamGap : Q) (canSplit : bool) :
  noSplit (fitOrSplit partW partL stockW stockL seamGap canSplit) = false ->
  Forall (fun p => partFitsStock (piece_w p) (piece_l p) stockW stockL = true)
         (pieces (fitOrSplit partW partL stockW stockL seamGap canSplit)).
Proof.
  unfold fitOrSplit.
  destruct (partFitsStock partW partL stockW stockL) eqn:Hfit.
  - intros _. constructor; [exact Hfit|constructor].
  - destruct canSplit; cbn [negb]; [|discriminate].
    destruct (calcStripLayout partW partL stockW stockL seamGap)
      as [a|] eqn:Ea;
      destruct (calcStripLayout partL partW stockW stockL seamGap)
        as [b|] eqn:Eb; cbn [chooseStrip].
    + destruct (stripCount a <=? stripCount b)%Z; intros _;
        cbn [stripResult pieces]; unfold stripPieces;
        apply Forall_forall; intros p Hp; apply in_map_iff in Hp;
        destruct Hp as (i & <- & _); cbn [piece_w piece_l].
      * eapply strip_fits_stock; exact Ea.
      * rewrite partFitsStock_swap. eapply strip_fits_stock; exact Eb.
    + intros _. cbn [stripResult pieces]. unfold stripPieces.
      apply Forall_forall. intros p Hp. apply in_map_iff in Hp.
      destruct Hp as (i & <- & _). cbn [piece_w piece_l].
      eapply strip_fits_stock; exact Ea.
    + intros _. cbn [stripResult pieces]. unfold stripPieces.
      apply Forall_forall. intros p Hp. apply in_map_iff in Hp.
      destruct Hp as (i & <- & _). cbn [piece_w piece_l].
      rewrite partFitsStock_swap. eapply strip_fits_stock; exact Eb.
    + destruct (calcGridLayout partW partL stockW stockL seamGap)
        as [g|] eqn:Eg; [|discriminate].
      intros _. cbn [gridResult pieces]. unfold gridPieces.
      apply Forall_forall. intros p Hp. apply in_flat_map in Hp.
      destruct Hp as (r & _ & Hp). apply in_map_iff in Hp.
      destruct Hp as (c & <- & _). cbn [piece_w piece_l].
      apply partFitsStock_true.
      destruct (calcGridLayout_valid _ _ _ _ _ _ Eg) as (_ & _ & Hv).
      tauto.
Qed.

(** X16.  Unless [fitOrSplit] reports that the part cannot be split
    ([noSplit]), every piece it returns fits the stock sheet in one of
    the two orientations. *)
Theorem fitOrSplit_pieces_fit
    (partW partL stockW stockL seamGap : Q) (canSplit : bool) :
  noSplit (fitOrSplit partW partL stockW stockL seamGap canSplit) = false ->
  Forall (fun p => partFitsStock (piece_w p) (piece_l p) stockW stockL = true)
         (pieces (fitOrSplit partW partL stockW stockL seamGap canSplit)).
Proof. apply fitOrSplit_pieces_fit_stock. Qed.

(** *** The number and the numbering of the pieces of a split *)

Lemma refineCount_ge fuel tries dim maxDim seamGap count :
  (count <= fst (refineCount fuel tries dim maxDim seamGap count))%Z.
Proof.
  destruct (refineCount_steps fuel tries dim maxDim seamGap count) as [_ H].
  cbv zeta in H. rewrite H. lia.
Qed.

Lemma strip_count_ge2 splitDim keepDim stockW stockL seamGap a :
  0 < splitDim ->
  partFitsStock splitDim keepDim stockW stockL = false ->
  calcStripLayout splitDim keepDim stockW stockL seamGap = Some a ->
  (2 <= stripCount a)%Z.
Proof.
  intros Hpos Hfit Ha.
  destruct (calcStripLayout_Some _ _ _ _ _ _ Ha) as (Hk & Hm & -> & _).
  cbn [stripCount]. unfold stripRefinement.
  pose proof (oversized_split_dim _ _ _ _ Hfit Hk) as Hover.
  destruct (AuxFacts.ceiling_div_facts splitDim _ Hm Hpos) as (_ & H2 & _).
  specialize (H2 Hover).
  pose proof (refineCount_ge 10 0 splitDim
                (maxStripDimFor keepDim stockW stockL) seamGap
                (Qceiling (splitDim / maxStripDimFor keepDim stockW stockL))).
  lia.
Qed.

(** Inversion of an accepted grid orientation. *)
Lemma gridOrientation_inv partW partL seamGap best o g :
  gridOrientation partW partL seamGap best o = Some g ->
  best = Some g \/
  (let c := fst (refineCount 10 0 partW (fst o) seamGap
                   (Qceiling (partW / fst o))) in
   let r := fst (refineCount 10 0 partL (snd o) seamGap
                   (Qceiling (partL / snd o))) in
   g = {| cols := c; rows := r; total := (c * r)%Z;
          pieceW := pieceSize partW seamGap c;
          pieceL := pieceSize partL seamGap r |}).
Proof.
  unfold gridOrientation.
  set (c := fst (refineCount 10 0 partW (fst o) seamGap _)).
  set (r := fst (refineCount 10 0 partL (snd o) seamGap _)).
  destruct (Qltb (1#2) (pieceSize partW seamGap c) &&
            Qltb (1#2) (pieceSize partL seamGap r) &&
            Qleb (pieceSize partW seamGap c) (fst o) &&
            Qleb (pieceSize partL seamGap r) (snd o)).
  - destruct best as [b|].
    + destruct (c * r <? total b)%Z; intros Hg.
      * injection Hg as <-. right. reflexivity.
      * left. exact Hg.
    + intros Hg. injection Hg as <-. right. reflexivity.
  - intros Hg. left. exact Hg.
Qed.

Lemma calcGridLayout_inv partW partL stockW stockL seamGap g :
  calcGridLayout partW partL stockW stockL seamGap = Some g ->
  exists sw sl,
    ((sw = stockW /\ sl = stockL) \/ (sw = stockL /\ sl = stockW)) /\
    g = {| cols := fst (refineCount 10 0 partW sw seamGap
                          (Qceiling (partW / sw)));
           rows := fst (refineCount 10 0 partL sl seamGap
                          (Qceiling (partL / sl)));
           total := (fst (refineCount 10 0 partW sw seamGap
                            (Qceiling (partW / sw)))
                     * fst (refineCount 10 0 partL sl seamGap
                              (Qceiling (partL / sl))))%Z;
           pieceW := pieceSize partW seamGap
                       (fst (refineCount 10 0 partW sw seamGap
                               (Qceiling (partW / sw))));
           pieceL := pieceSize partL seamGap
                       (fst (refineCount 10 0 partL sl seamGap
                               (Qceiling (partL / sl)))) |}.
Proof.
  unfold calcGridLayout. cbn [fold_left]. intros H.
  apply gridOrientation_inv in H. cbn [fst snd] in H.
  destruct H as [H|H].
  - apply gridOrientation_inv in H. cbn [fst snd] in H.
    destruct H as [H|H]; [discriminate|].
    exists stockW, stockL. split; [left; auto|exact H].
  - exists stockL, stockW. split; [right; auto|exact H].
Qed.

(** The counts of a grid for positive dimensions; one of them is 2 or
    more when the part exceeds the stock in that orientation. *)
Lemma grid_counts partW partL sw sl seamGap :
  0 < partW -> 0 < partL -> 0 < sw -> 0 < sl ->
  let c := fst (refineCount 10 0 partW sw seamGap (Qceiling (partW / sw))) in
  let r := fst (refineCount 10 0 partL sl seamGap (Qceiling (partL / sl))) in
  (1 <= c)%Z /\ (1 <= r)%Z /\
  (~ (partW <= sw /\ partL <= sl) -> (2 <= c * r)%Z).
Proof.
  intros HW HL Hsw Hsl c r.
  destruct (AuxFacts.ceiling_div_facts partW sw Hsw HW) as (A1 & A2 & _).
  destruct (AuxFacts.ceiling_div_facts partL sl Hsl HL) as (B1 & B2 & _).
  pose proof (refineCount_ge 10 0 partW sw seamGap (Qceiling (partW / sw)))
    as Hc.
  pose proof (refineCount_ge 10 0 partL sl seamGap (Qceiling (partL / sl)))
    as Hr.
  fold c in Hc. fold r in Hr.
  split; [lia|]. split; [lia|]. intros Hno.
  destruct (Qlt_le_dec sw partW) as [H|H].
  - specialize (A2 H). nia.
  - destruct (Qlt_le_dec sl partL) as [H'|H']; [|tauto].
    specialize (B2 H'). nia.
Qed.

Lemma seq_from a : forall n, seq a n = map (fun c => (a + c)%nat) (seq 0 n).
Proof.
  intros n. revert a. induction n as [|n IH]; intros a; [reflexivity|].
  cbn [seq map]. rewrite Nat.add_0_r. f_equal.
  rewrite (IH (S a)), <- seq_shift, map_map.
  apply map_ext. intros c. lia.
Qed.

(** Rows of [C] cells enumerate [0 .. R * C - 1] in row-major order. *)
Lemma grid_enumeration {A : Type} (f : nat -> A) (C : nat) : forall R,
  flat_map (fun r => map (fun c => f (r * C + c)%nat) (seq 0 C)) (seq 0 R)
    = map f (seq 0 (R * C)).
Proof.
  induction R as [|R IH]; [reflexivity|].
  rewrite seq_S, flat_map_app, IH. cbn [flat_map plus].
  rewrite app_nil_r.
  replace (S R * C)%nat with (R * C + C)%nat by lia.
  rewrite seq_app, map_app. f_equal. cbn [plus].
  rewrite (seq_from (R * C) C), map_map. reflexivity.
Qed.

Lemma map_flat_map_list {A B C : Type} (f : B -> C) (g : A -> list B) :
  forall l, map f (flat_map g l) = flat_map (fun x => map f (g x)) l.
Proof.
  induction l as [|x l IH]; [reflexivity|].
  cbn [flat_map]. rewrite map_app, IH. reflexivity.
Qed.

Lemma suffixes_from_one (N : Z) (n : nat) :
  map (fun k : nat => ordinalSuffix (Z.of_nat k + 1) N) (seq 0 n)
    = map (fun k : nat => ordinalSuffix (Z.of_nat k) N) (seq 1 n).
Proof.
  rewrite <- seq_shift, map_map. apply map_ext. intros k.
  f_equal. lia.
Qed.

Lemma stripPieces_numbering best splitAxis :
  (0 <= stripCount best)%Z ->
  Z.of_nat (List.length (stripPieces best splitAxis)) = stripCount best /\
  map piece_suffix (stripPieces best splitAxis)
    = map (fun k : nat => ordinalSuffix (Z.of_nat k) (stripCount best))
          (seq 1 (List.length (stripPieces best splitAxis))).
Proof.
  intros Hn. unfold stripPieces.
  rewrite length_map, length_seq, map_map. cbn [piece_suffix].
  split; [lia|]. apply suffixes_from_one.
Qed.

Lemma gridPieces_numbering g :
  (0 <= cols g)%Z -> (0 <= rows g)%Z ->
  total g = (cols g * rows g)%Z ->
  Z.of_nat (List.length (gridPieces g)) = total g /\
  map piece_suffix (gridPieces g)
    = map (fun k : nat => ordinalSuffix (Z.of_nat k) (total g))
          (seq 1 (List.length (gridPieces g))).
Proof.
  intros Hc Hr Ht.
  assert (Hs : map piece_suffix (gridPieces g)
               = map (fun k : nat => ordinalSuffix (Z.of_nat k + 1) (total g))
                     (seq 0 (Z.to_nat (rows g) * Z.to_nat (cols g)))).
  { unfold gridPieces. rewrite map_flat_map_list.
    rewrite <- (grid_enumeration
                  (fun k : nat => ordinalSuffix (Z.of_nat k + 1) (total g))).
    apply flat_map_ext. intros r. rewrite map_map. cbn [piece_suffix].
    apply map_ext. intros c. f_equal. lia. }
  assert (Hlen : List.length (gridPieces g)
                 = (Z.to_nat (rows g) * Z.to_nat (cols g))%nat).
  { rewrite <- (length_map piece_suffix), Hs, length_map, length_seq.
    reflexivity. }
  split; [rewrite Hlen, Ht; lia|].
  rewrite Hs, Hlen. apply suffixes_from_one.
Qed.

(** X17.  When [fitOrSplit] splits a part of positive dimensions for a
    stock of positive dimensions, it returns at least 2 pieces, as many as
    its [stripCount] says, and their suffixes number them [1/N], [2/N],
    ..., [N/N] in list order, for strips and for grids alike. *)
Theorem fitOrSplit_split_numbering
    (partW partL stockW stockL seamGap : Q) (canSplit : bool) :
  0 < partW -> 0 < partL -> 0 < stockW -> 0 < stockL ->
  let res := fitOrSplit partW partL stockW stockL seamGap canSplit in
  fits res = false -> noSplit res = false ->
  (2 <= res_stripCount res)%Z /\
  Z.of_nat (List.length (pieces res)) = res_stripCount res /\
  map piece_suffix (pieces res)
    = map (fun k : nat => ordinalSuffix (Z.of_nat k) (res_stripCount res))
          (seq 1 (List.length (pieces res))).
Proof.
  intros HpW HpL HsW HsL res. subst res. unfold fitOrSplit.
  destruct (partFitsStock partW partL stockW stockL) eqn:Hfit;
    [discriminate|].
  destruct canSplit; cbn [negb]; [|discriminate].
  assert (Hfit' : partFitsStock partL partW stockW stockL = false)
    by (rewrite partFitsStock_swap; exact Hfit).
  assert (Hstrip : forall best splitAxis,
    (2 <= stripCount best)%Z ->
    (2 <= res_stripCount (stripResult best splitAxis))%Z /\
    Z.of_nat (List.length (pieces (stripResult best splitAxis)))
      = res_stripCount (stripResult best splitAxis) /\
    map piece_suffix (pieces (stripResult best splitAxis))
      = map (fun k : nat => ordinalSuffix (Z.of_nat k)
                              (res_stripCount (stripResult best splitAxis)))
            (seq 1 (List.length (pieces (stripResult best splitAxis))))).
  { intros best splitAxis H2. cbn [stripResult res_stripCount pieces].
    split; [exact H2|]. apply stripPieces_numbering. lia. }
  destruct (calcStripLayout partW partL stockW stockL seamGap)
    as [a|] eqn:Ea;
    destruct (calcStripLayout partL partW stockW stockL seamGap)
      as [b|] eqn:Eb; cbn [chooseStrip].
  - intros _ _.
    pose proof (strip_count_ge2 _ _ _ _ _ _ HpW Hfit Ea).
    pose proof (strip_count_ge2 _ _ _ _ _ _ HpL Hfit' Eb).
    destruct (stripCount a <=? stripCount b)%Z; apply Hstrip; assumption.
  - intros _ _. apply Hstrip.
    apply (strip_count_ge2 _ _ _ _ _ _ HpW Hfit Ea).
  - intros _ _. apply Hstrip.
    apply (strip_count_ge2 _ _ _ _ _ _ HpL Hfit' Eb).
  - destruct (calcGridLayout partW partL stockW stockL seamGap)
      as [g|] eqn:Eg; [|discriminate].
    intros _ _. cbn [gridResult res_stripCount pieces].
    destruct (calcGridLayout_inv _ _ _ _ _ _ Eg) as (sw & sl & Ho & Hg).
    assert (Hsw : 0 < sw) by (destruct Ho as [[-> _]|[-> _]]; assumption).
    assert (Hsl : 0 < sl) by (destruct Ho as [[_ ->]|[_ ->]]; assumption).
    destruct (grid_counts partW partL sw sl seamGap HpW HpL Hsw Hsl)
      as (Hc & Hr & H2).
    assert (Hno : ~ (partW <= sw /\ partL <= sl)).
    { intros [H1 H1'].
      assert (Hyes : partFitsStock partW partL stockW stockL = true).
      { apply partFitsStock_true.
        destruct Ho as [[-> ->]|[-> ->]]; [left|right]; split; assumption. }
      congruence. }
    specialize (H2 Hno).
    assert (Hcols : (1 <= cols g)%Z) by (rewrite Hg; exact Hc).
    assert (Hrows : (1 <= rows g)%Z) by (rewrite Hg; exact Hr).
    assert (Htot : total g = (cols g * rows g)%Z) by (rewrite Hg; reflexivity).
    split; [rewrite Htot, Hg; exact H2|].
    apply gridPieces_numbering; [lia|lia|exact Htot].
Qed.

(** X18.  A grid layout returned by [calcGridLayout] for positive part and
    stock dimensions reconstructs the part: [cols] pieces of width
    [pieceW] with the seam gaps between them add up to the part width,
    likewise [rows] pieces of length [pieceL] to the part length;
    [total] is [cols * rows]; and each piece is larger than 0.5 both ways
    and fits the stock in one orientation. *)
Theorem calcGridLayout_reconstructs
    (partW partL stockW stockL seamGap : Q) (g : GridLayout) :
  0 < partW -> 0 < partL -> 0 < stockW -> 0 < stockL ->
  calcGridLayout partW partL stockW stockL seamGap = Some g ->
  inject_Z (cols g) * pieceW g + inject_Z (cols g - 1) * seamGap == partW /\
  inject_Z (rows g) * pieceL g + inject_Z (rows g - 1) * seamGap == partL /\
  total g = (cols g * rows g)%Z /\
  1#2 < pieceW g /\ 1#2 < pieceL g /\
  partFitsStock (pieceW g) (pieceL g) stockW stockL = true.
Proof.
  intros HpW HpL HsW HsL Hg.
  destruct (calcGridLayout_valid _ _ _ _ _ _ Hg) as (Hw & Hl & Hv).
  destruct (calcGridLayout_inv _ _ _ _ _ _ Hg) as (sw & sl & Ho & E).
  assert (Hsw : 0 < sw) by (destruct Ho as [[-> _]|[-> _]]; assumption).
  assert (Hsl : 0 < sl) by (destruct Ho as [[_ ->]|[_ ->]]; assumption).
  destruct (grid_counts partW partL sw sl seamGap HpW HpL Hsw Hsl)
    as (Hc & Hr & _).
  split; [|split; [|split; [|split; [|split]]]]; try assumption.
  - rewrite E. cbn [cols pieceW]. apply pieceSize_reconstructs. lia.
  - rewrite E. cbn [rows pieceL]. apply pieceSize_reconstructs. lia.
  - rewrite E. reflexivity.
  - apply partFitsStock_true. tauto.
Qed.

(** *** The theorems above at concrete inputs *)

(** The 96 x 200 part on 48 x 96 stock with kerf 1/8. *)
Lemma fitOrSplit_pieces_fit_witness :
  Forall (fun p => partFitsStock (piece_w p) (piece_l p) 48 96 = true)
         (pieces (fitOrSplit 96 200 48 96 (1#8) true)).
Proof.
  exact (fitOrSplit_pieces_fit 96 200 48 96 (1#8) true eq_refl).
Defined.

Lemma fitOrSplit_split_numbering_witness :
  (2 <= res_stripCount (fitOrSplit 96 200 48 96 (1#8) true))%Z /\
  Z.of_nat (List.length (pieces (fitOrSplit 96 200 48 96 (1#8) true)))
    = res_stripCount (fitOrSplit 96 200 48 96 (1#8) true) /\
  map piece_suffix (pieces (fitOrSplit 96 200 48 96 (1#8) true))
    = map (fun k : nat =>
             ordinalSuffix (Z.of_nat k)
               (res_stripCount (fitOrSplit 96 200 48 96 (1#8) true)))
          (seq 1 (List.length (pieces (fitOrSplit 96 200 48 96 (1#8) true)))).
Proof.
  exact (fitOrSplit_split_numbering 96 200 48 96 (1#8) true
           eq_refl eq_refl eq_refl eq_refl eq_refl eq_refl).
Defined.

(** The 100 x 110 part on 48 x 96 stock with kerf 1/8: a 3 x 2 grid. *)
Lemma calcGridLayout_reconstructs_witness :
  exists g,
    calcGridLayout 100 110 48 96 (1#8) = Some g /\
    inject_Z (cols g) * pieceW g + inject_Z (cols g - 1) * (1#8) == 100 /\
    inject_Z (rows g) * pieceL g + inject_Z (rows g - 1) * (1#8) == 110 /\
    total g = (cols g * rows g)%Z /\
    1#2 < pieceW g /\ 1#2 < pieceL g /\
    partFitsStock (pieceW g) (pieceL g) 48 96 = true.
Proof.
  eexists. split; [reflexivity|].
  exact (calcGridLayout_reconstructs 100 110 48 96 (1#8) _
           eq_refl eq_refl eq_refl eq_refl eq_refl).
Defined.

End SplitterFacts.

(** ** Rib plans, part lists and the calculators *)

Module CalcFacts.
Import Optimize Estimate EstimateCalc NestingVocabulary CalcVocabulary.
Import EstimateFacts OptimizeFacts NestingFacts SplitterFacts.

(** *** Part lists *)

Lemma iter_pushRect_length p : forall n rects,
  List.length (Nat.iter n (pushRect p) rects) = (List.length rects + n)%nat.
Proof.
  induction n as [|n IH]; intros rects.
  - cbn. lia.
  - change (Nat.iter (S n) (pushRect p) rects)
      with (pushRect p (Nat.iter n (pushRect p) rects)).
    unfold pushRect at 1. rewrite length_app, IH. cbn [List.length]. lia.
Qed.

Lemma expandParts_length (parts : list Part) :
  List.length (expandParts parts) = list_sum (map part_qty parts).
Proof.
  unfold expandParts.
  assert (H : forall ps rects,
    List.length
      (fold_left (fun rects p => Nat.iter (part_qty p) (pushRect p) rects)
                 ps rects)
      = (List.length rects + list_sum (map part_qty ps))%nat).
  { induction ps as [|p ps IH]; intros rects; cbn [fold_left map].
    - cbn. lia.
    - rewrite IH, iter_pushRect_length. unfold list_sum. cbn [fold_right].
      lia. }
  apply (H parts []).
Qed.

(** The number of rectangles a cut list multiplied by [a] expands to. *)
Lemma expand_multiply_length (parts : list CutPart) (a : Z) :
  (0 <= a)%Z ->
  List.length (expandParts (map asNestPart (multiplyParts parts a)))
    = (Z.to_nat a
       * list_sum (map (fun p => Z.to_nat (cp_qty p)) parts))%nat.
Proof.
  intros Ha. rewrite expandParts_length. unfold multiplyParts.
  rewrite !map_map. cbn [asNestPart part_qty cp_qty].
  induction parts as [|p ps IH]; cbn [map].
  - unfold list_sum. cbn. lia.
  - unfold list_sum in *. cbn [fold_right]. rewrite IH.
    destruct (Z.le_gt_cases 0 (cp_qty p)) as [Hq|Hq].
    + rewrite Z2Nat.inj_mul by lia. lia.
    + assert (Hn : (cp_qty p * a <= 0)%Z) by nia.
      assert (E1 : Z.to_nat (cp_qty p * a) = 0%nat) by lia.
      assert (E2 : Z.to_nat (cp_qty p) = 0%nat) by lia.
      rewrite E1, E2. lia.
Qed.

(** X22.  [multiplyParts] composes by multiplying the factors and leaves
    the list as it is for the factor 1; for a non-negative factor, the
    number of pieces that [nestParts] expands the list into is multiplied
    by the factor. *)
Theorem multiplyParts_scales (parts : list CutPart) (a b : Z) :
  multiplyParts (multiplyParts parts a) b = multiplyParts parts (a * b) /\
  multiplyParts parts 1 = parts /\
  ((0 <= a)%Z ->
   List.length (expandParts (map asNestPart (multiplyParts parts a)))
     = (Z.to_nat a
        * List.length (expandParts (map asNestPart parts)))%nat).
Proof.
  split; [|split].
  - unfold multiplyParts. rewrite map_map. apply map_ext. intros p.
    cbn. f_equal. lia.
  - unfold multiplyParts. rewrite <- (map_id parts) at 2.
    apply map_ext. intros [n q w l c m f]. cbn. f_equal. lia.
  - intros Ha. rewrite expand_multiply_length by exact Ha.
    rewrite expandParts_length, map_map. reflexivity.
Qed.

(** *** What [splitAndPush] pushes *)

Lemma append_empty_r (s : string) : (s ++ EmptyString)%string = s.
Proof.
  induction s as [|c s IH]; [reflexivity|]. cbn. rewrite IH. reflexivity.
Qed.

(** A result that fits or cannot be split holds the part as its one
    piece; a result that does not fit carries a warning. *)
Lemma fitOrSplit_whole partW partL stockW stockL seamGap canSplit :
  let res := fitOrSplit partW partL stockW stockL seamGap canSplit in
  (fits res = true \/ noSplit res = true ->
   pieces res = [ {| piece_w := partW; piece_l := partL;
                     piece_suffix := EmptyString |} ]) /\
  (fits res = false -> warning res <> None) /\
  fits res = partFitsStock partW partL stockW stockL.
Proof.
  cbv zeta. unfold fitOrSplit.
  destruct (partFitsStock partW partL stockW stockL).
  - cbn. split; [auto|]. split; [discriminate|reflexivity].
  - destruct canSplit; cbn [negb].
    + destruct (chooseStrip _ _) as [[best ax]|].
      * cbn [stripResult fits noSplit warning].
        split; [intros [H|H]; discriminate|]. split; [discriminate|auto].
      * destruct (calcGridLayout _ _ _ _ _) as [g|].
        -- cbn [gridResult fits noSplit warning].
           split; [intros [H|H]; discriminate|]. split; [discriminate|auto].
        -- cbn. split; [auto|]. split; [discriminate|reflexivity].
    + cbn. split; [auto|]. split; [discriminate|reflexivity].
Qed.

Lemma pushSplitResult_entries (toFixed2 : Q -> string)
    (label partName : string) (qty : Z)
    (partW partL stockW stockL kerf : Q) (canSplit : bool)
    (category materialName : string) (st : list CutPart * list string) :
  let res := fitOrSplit partW partL stockW stockL kerf canSplit in
  let st' := pushSplitResult toFixed2 label partName qty partW partL res
               category materialName st in
  fst st' = fst st ++ map (pieceEntry partName qty category materialName)
                          (pieces res) /\
  snd st' = snd st ++
            (if fits res then []
             else [splitWarning toFixed2 label partW partL (warning res)]).
Proof.
  cbv zeta.
  destruct (fitOrSplit_whole partW partL stockW stockL kerf canSplit)
    as (Hwhole & _ & _). cbv zeta in Hwhole.
  unfold pushSplitResult.
  destruct (fits (fitOrSplit partW partL stockW stockL kerf canSplit)) eqn:Ef.
  - rewrite Hwhole by auto. cbn [fst snd map]. unfold pieceEntry.
    cbn [piece_suffix piece_w piece_l]. rewrite append_empty_r, app_nil_r.
    auto.
  - destruct (noSplit (fitOrSplit partW partL stockW stockL kerf canSplit))
      eqn:En.
    + rewrite Hwhole by auto. cbn [fst snd map]. unfold pieceEntry.
      cbn [piece_suffix piece_w piece_l]. rewrite append_empty_r. auto.
    + cbn [fst snd]. auto.
Qed.

(** X23.  [splitAndPush] appends to the parts array one entry per piece of
    the result of [fitOrSplit], named by the part name followed by the
    suffix of the piece and carrying the quantity, category and material
    given, whether the part fits, is split or cannot be split; it appends
    one warning when the part does not fit and none when it fits; the
    entries and warnings already there are kept. *)
Theorem splitAndPush_entries (toFixed2 : Q -> string)
    (partName : string) (qty : Z)
    (partW partL stockW stockL kerf : Q) (canSplit : bool)
    (category materialName : string) (st : list CutPart * list string) :
  let res := fitOrSplit partW partL stockW stockL kerf canSplit in
  let st' := splitAndPush toFixed2 partName qty partW partL stockW stockL
               kerf canSplit category materialName st in
  fst st' = fst st ++ map (pieceEntry partName qty category materialName)
                          (pieces res) /\
  snd st' = snd st ++
            (if partFitsStock partW partL stockW stockL then []
             else [splitWarning toFixed2 partName partW partL
                     (warning res)]) /\
  (partFitsStock partW partL stockW stockL = false -> warning res <> None).
Proof.
  cbv zeta. unfold splitAndPush.
  destruct (pushSplitResult_entries toFixed2 partName partName qty partW
              partL stockW stockL kerf canSplit category materialName st)
    as [Hp Hw]. cbv zeta in Hp, Hw.
  destruct (fitOrSplit_whole partW partL stockW stockL kerf canSplit)
    as (_ & Hwarn & Hfits). cbv zeta in Hwarn, Hfits.
  rewrite Hfits in Hw, Hwarn. auto.
Qed.

(** *** [calcSheet] *)

(** One part of quantity 1 that passes the raw-fit test goes to the origin
    of sheet 1. *)
Lemma nestParts_single name w l category sheetW sheetL kerf :
  partFits w l sheetW sheetL = true ->
  exists rotated,
    nestParts [ mkPart name 1 w l category None None ] sheetW sheetL kerf
      = {| sheets := [ addPlacement (newSheet sheetW sheetL 1 kerf)
                         (newRectangle w l 0 name category None None)
                         0 0 rotated ];
           unplaced := [] |}.
Proof.
  intros Hfit.
  destruct (findBestPosition_fresh sheetW sheetL 1 kerf w l Hfit)
    as [rotated Hpos].
  exists rotated. unfold nestParts.
  change (expandParts [ mkPart name 1 w l category None None ])
    with [ newRectangle w l 0 name category None None ].
  cbn [sortRects fold_right insertRect fold_left]. unfold placeRect.
  cbn [newRectangle rect_w rect_h sheets unplaced placeOnExisting
       List.length Nat.add].
  rewrite Hfit. cbn [negb].
  change (findBestPosition (newSheet sheetW sheetL 1 kerf) w l kerf)
    with (findBestPosition (newSheet sheetW sheetL 1 kerf) w l kerf).
  rewrite Hpos. reflexivity.
Qed.

Lemma Qeq_bool_false x y : ~ x == y -> Qeq_bool x y = false.
Proof.
  intros H. destruct (Qeq_bool x y) eqn:E; [|reflexivity].
  apply Qeq_bool_iff in E. contradiction.
Qed.

(** X24.  When width and length are given and the panel fits the stock,
    [calcSheet] returns a result, not an error: the cut list is the panel
    itself, once, there is no warning, and the nesting uses one sheet with
    the panel at its origin and nothing unplaced. *)
Theorem calcSheet_fits (toFixed2 : Q -> string)
    (params : SheetParams) (mat : Material) (kerf : Q) :
  ~ sp_w params == 0 -> ~ sp_l params == 0 ->
  partFitsStock (sp_w params) (sp_l params) (mat_w mat) (mat_l mat) = true ->
  exists (r : SheetCalc) (sh : Sheet) (rotated : bool),
    calcSheet toFixed2 params mat kerf = inr r /\
    sc_parts r
      = [ {| cp_name := orElse (sp_name params) "Sheet"; cp_qty := 1;
             cp_w := sp_w params; cp_l := sp_l params;
             cp_category := "panel"; cp_material := mat_name mat;
             cp_fullSheet := None |} ] /\
    sc_warnings r = [] /\
    sc_nestedSheets r = [sh] /\
    map (fun p => (p_x p, p_y p, p_w p, p_h p, p_rotated p)) (placements sh)
      = [ (0, 0, if rotated then sp_l params else sp_w params,
           if rotated then sp_w params else sp_l params, rotated) ] /\
    sc_unplaced r = [] /\
    sc_totalSheets r = 1%nat.
Proof.
  intros Hw Hl Hfit.
  set (whole := {| cp_name := orElse (sp_name params) "Sheet"; cp_qty := 1;
                   cp_w := sp_w params; cp_l := sp_l params;
                   cp_category := "panel"; cp_material := mat_name mat;
                   cp_fullSheet := None |}).
  set (nest := nestParts [ mkPart (orElse (sp_name params) "Sheet") 1
                             (sp_w params) (sp_l params)
                             (Some "panel"%string) None None ]
                 (mat_w mat) (mat_l mat) kerf).
  assert (Hres : calcSheet toFixed2 params mat kerf
                 = inr {| sc_parts := [whole];
                          sc_nestedSheets := sheets nest;
                          sc_unplaced := unplaced nest;
                          sc_warnings := [];
                          sc_sheetW := mat_w mat;
                          sc_sheetL := mat_l mat;
                          sc_quantity := orZ (sp_qty params) 1;
                          sc_totalSheets := List.length (sheets nest) |}).
  { unfold calcSheet.
    rewrite (Qeq_bool_false _ _ Hw), (Qeq_bool_false _ _ Hl). cbn [orb].
    unfold fitOrSplit. rewrite Hfit. reflexivity. }
  destruct (nestParts_single (orElse (sp_name params) "Sheet")
              (sp_w params) (sp_l params) (Some "panel"%string)
              (mat_w mat) (mat_l mat) kerf Hfit) as [rotated Hnest].
  fold nest in Hnest. rewrite Hnest in Hres.
  eexists. eexists. exists rotated.
  split; [exact Hres|]. cbn [sc_parts sc_warnings sc_nestedSheets
    sc_unplaced sc_totalSheets sheets unplaced List.length].
  repeat split; try reflexivity.
Qed.

Lemma nestParts_single_unfit name w l category sheetW sheetL kerf :
  partFits w l sheetW sheetL = false ->
  nestParts [ mkPart name 1 w l category None None ] sheetW sheetL kerf
    = {| sheets := [];
         unplaced := [ newRectangle w l 0 name category None None ] |}.
Proof.
  intros Hfit. unfold nestParts.
  change (expandParts [ mkPart name 1 w l category None None ])
    with [ newRectangle w l 0 name category None None ].
  cbn [sortRects fold_right insertRect fold_left]. unfold placeRect.
  cbn [newRectangle rect_w rect_h sheets unplaced]. rewrite Hfit.
  reflexivity.
Qed.

Lemma nestCutParts_single_unfit name w l category materialName
    sheetW sheetL kerf :
  partFitsStock w l sheetW sheetL = false ->
  nestCutParts [ {| cp_name := name; cp_qty := 1; cp_w := w; cp_l := l;
                    cp_category := category; cp_material := materialName;
                    cp_fullSheet := None |} ] sheetW sheetL kerf
    = {| sheets := [];
         unplaced := [ newRectangle w l 0 name (Some category) None None ] |}.
Proof.
  intros Hfit.
  exact (nestParts_single_unfit name w l (Some category) sheetW sheetL kerf
           Hfit).
Qed.

Lemma list_sum_ones {A : Type} (f : A -> nat) (l : list A) :
  (forall x, In x l -> f x = 1%nat) -> list_sum (map f l) = List.length l.
Proof.
  induction l as [|x l IH]; intros H; [reflexivity|].
  cbn [map List.length]. unfold list_sum in *. cbn [fold_right].
  rewrite IH by (intros y Hy; apply H; right; exact Hy).
  rewrite (H x) by (left; reflexivity). reflexivity.
Qed.

(** Nesting a cut list whose entries all have quantity 1 and all fit the
    stock places every entry. *)
Lemma nestCutParts_all_placed (parts : list CutPart) sheetW sheetL kerf :
  Forall (fun p => cp_qty p = 1%Z /\ entryFits sheetW sheetL p) parts ->
  unplaced (nestCutParts parts sheetW sheetL kerf) = [] /\
  List.length (placedRects (sheets (nestCutParts parts sheetW sheetL kerf)))
    = List.length parts.
Proof.
  intros Hall. rewrite Forall_forall in Hall. unfold nestCutParts.
  assert (Hnone : unplaced (nestParts (map asNestPart parts)
                              sheetW sheetL kerf) = []).
  { apply unplaced_empty_iff. intros p Hp _.
    apply in_map_iff in Hp. destruct Hp as (q & <- & Hq).
    apply (Hall q Hq). }
  split; [exact Hnone|].
  pose proof (nestParts_perm (map asNestPart parts) sheetW sheetL kerf) as Hp.
  apply Permutation_length in Hp.
  rewrite Hnone, app_nil_r, expandParts_length, map_map in Hp.
  rewrite Hp. apply list_sum_ones. intros q Hq.
  cbn [asNestPart part_qty]. destruct (Hall q Hq) as [-> _]. reflexivity.
Qed.

(** X25.  A result of [calcSheet] lists one cut-list entry of quantity 1
    per piece of [fitOrSplit] (called with splitting allowed).  Unless the
    splitter reports that the panel cannot be split, nothing is unplaced
    and the sheets hold as many placements as there are pieces.  When it
    does report so, the warning says so, no sheet is used and the panel is
    the one unplaced rectangle. *)
Theorem calcSheet_places_or_warns (toFixed2 : Q -> string)
    (params : SheetParams) (mat : Material) (kerf : Q) (r : SheetCalc) :
  calcSheet toFixed2 params mat kerf = inr r ->
  let w := sp_w params in
  let l := sp_l params in
  let base := orElse (sp_name params) "Sheet" in
  let res := fitOrSplit w l (mat_w mat) (mat_l mat) kerf true in
  sc_parts r = map (pieceEntry base 1 "panel" (mat_name mat)) (pieces res) /\
  (noSplit res = false ->
   sc_unplaced r = [] /\
   List.length (placedRects (sc_nestedSheets r))
     = List.length (pieces res)) /\
  (noSplit res = true ->
   sc_warnings r
     = [ splitWarning toFixed2 base w l
           (Some "cannot be split to fit stock"%string) ] /\
   sc_nestedSheets r = [] /\
   map (fun u => (rect_name u, rect_w u, rect_h u)) (sc_unplaced r)
     = [ (base, w, l) ]).
Proof.
  intros H w l base res. unfold calcSheet in H.
  destruct (Qeq_bool (sp_w params) 0 || Qeq_bool (sp_l params) 0);
    [discriminate|].
  injection H as <-. unfold allowsSeams.
  cbn [sc_parts sc_unplaced sc_nestedSheets sc_warnings].
  fold w l base res.
  destruct (pushSplitResult_entries toFixed2 base base 1 w l (mat_w mat)
              (mat_l mat) kerf true "panel" (mat_name mat) ([], []))
    as [Hp Hw]. cbv zeta in Hp, Hw. fold res in Hp, Hw.
  cbn [fst snd app] in Hp, Hw. rewrite Hp, Hw.
  split; [reflexivity|]. split.
  - intros Hno.
    destruct (nestCutParts_all_placed
                (map (pieceEntry base 1 "panel" (mat_name mat)) (pieces res))
                (mat_w mat) (mat_l mat) kerf) as [Hu Hl].
    + apply Forall_forall. intros p Hp'. apply in_map_iff in Hp'.
      destruct Hp' as (pc & <- & Hpc). split; [reflexivity|].
      pose proof (fitOrSplit_pieces_fit_stock w l (mat_w mat) (mat_l mat)
                    kerf true Hno) as Hfit.
      rewrite Forall_forall in Hfit. apply (Hfit pc Hpc).
    + rewrite length_map in Hl. auto.
  - intros Hyes.
    destruct (fitOrSplit_whole w l (mat_w mat) (mat_l mat) kerf true)
      as (Hwhole & _ & Hfits). cbv zeta in Hwhole, Hfits.
    fold res in Hwhole, Hfits.
    assert (Hunfit : partFitsStock w l (mat_w mat) (mat_l mat) = false).
    { destruct (partFitsStock w l (mat_w mat) (mat_l mat)) eqn:E;
        [|reflexivity].
      unfold res, fitOrSplit in Hyes. rewrite E in Hyes. discriminate. }
    assert (Hwarn : warning res
                    = Some "cannot be split to fit stock"%string).
    { unfold res, fitOrSplit in Hyes |- *. rewrite Hunfit in Hyes |- *.
      cbn [negb] in Hyes |- *.
      destruct (chooseStrip _ _) as [[best ax]|]; [discriminate|].
      destruct (calcGridLayout _ _ _ _ _); [discriminate|reflexivity]. }
    rewrite Hfits, Hunfit, Hwarn, (Hwhole (or_intror Hyes)).
    cbn [map]. unfold pieceEntry. cbn [piece_suffix piece_w piece_l].
    rewrite append_empty_r.
    rewrite (nestCutParts_single_unfit base w l "panel" (mat_name mat)
               (mat_w mat) (mat_l mat) kerf Hunfit).
    cbn. auto.
Qed.

(** *** [calcPlatform] *)

Lemma fitOrSplit_pieces_positive partW partL stockW stockL seamGap canSplit :
  0 < partW -> 0 < partL ->
  Forall (fun pc => 0 < piece_w pc /\ 0 < piece_l pc)
         (pieces (fitOrSplit partW partL stockW stockL seamGap canSplit)).
Proof.
  intros HW HL. unfold fitOrSplit.
  assert (Hwhole : forall f wn ns,
    Forall (fun pc => 0 < piece_w pc /\ 0 < piece_l pc)
           (pieces (wholeResult partW partL f wn ns))).
  { intros f wn ns. constructor; [cbn; auto|constructor]. }
  assert (Hstrip : forall splitDim keepDim a ax,
    0 < keepDim ->
    calcStripLayout splitDim keepDim stockW stockL seamGap = Some a ->
    Forall (fun pc => 0 < piece_w pc /\ 0 < piece_l pc)
           (pieces (stripResult a ax))).
  { intros splitDim keepDim a ax Hk Ha.
    destruct (calcStripLayout_Some _ _ _ _ _ _ Ha) as (_ & _ & -> & Hs & _).
    cbn [stripResult pieces]. unfold stripPieces.
    apply Forall_forall. intros pc Hpc. apply in_map_iff in Hpc.
    destruct Hpc as (i & <- & _).
    cbn [piece_w piece_l stripSize Estimate.keepDim].
    destruct ax; auto. }
  destruct (partFitsStock partW partL stockW stockL); [apply Hwhole|].
  destruct canSplit; cbn [negb]; [|apply Hwhole].
  destruct (calcStripLayout partW partL stockW stockL seamGap)
    as [a|] eqn:Ea;
    destruct (calcStripLayout partL partW stockW stockL seamGap)
      as [b|] eqn:Eb; cbn [chooseStrip].
  - destruct (stripCount a <=? stripCount b)%Z;
      [eapply Hstrip; [|exact Ea]|eapply Hstrip; [|exact Eb]]; assumption.
  - eapply Hstrip; [|exact Ea]; assumption.
  - eapply Hstrip; [|exact Eb]; assumption.
  - destruct (calcGridLayout partW partL stockW stockL seamGap)
      as [g|] eqn:Eg; [|apply Hwhole].
    destruct (calcGridLayout_valid _ _ _ _ _ _ Eg) as (Hw & Hl & _).
    cbn [gridResult pieces]. unfold gridPieces.
    apply Forall_forall. intros pc Hpc. apply in_flat_map in Hpc.
    destruct Hpc as (r & _ & Hpc). apply in_map_iff in Hpc.
    destruct Hpc as (c & <- & _). cbn [piece_w piece_l]. split; lra.
Qed.

Lemma pushSplitResult_Forall (P : CutPart -> Prop) (toFixed2 : Q -> string)
    label partName qty partW partL stockW stockL kerf canSplit
    category materialName st :
  Forall P (fst st) ->
  (forall pc,
     In pc (pieces (fitOrSplit partW partL stockW stockL kerf canSplit)) ->
     P (pieceEntry partName qty category materialName pc)) ->
  Forall P (fst (pushSplitResult toFixed2 label partName qty partW partL
                   (fitOrSplit partW partL stockW stockL kerf canSplit)
                   category materialName st)).
Proof.
  intros Hst Hnew.
  destruct (pushSplitResult_entries toFixed2 label partName qty partW partL
              stockW stockL kerf canSplit category materialName st)
    as [Hp _]. cbv zeta in Hp. rewrite Hp.
  apply Forall_app. split; [exact Hst|].
  apply Forall_forall. intros p Hin. apply in_map_iff in Hin.
  destruct Hin as (pc & <- & Hpc). apply Hnew, Hpc.
Qed.

(** Every entry of the cut list of [calcPlatform] is the entry of a piece
    of one of the five panels, pushed with a positive quantity. *)
Lemma platformParts_Forall (P : CutPart -> Prop) (toFixed2 : Q -> string)
    o1 o2 oh i1 i2 ih w1 w2 topLayers botLayers p1 p2
    sheetW sheetL kerf canSplit matName :
  (forall name qty category w l pc,
     (0 < qty)%Z ->
     In (w, l) [ (o1, o2); (o1, oh); (o2, oh); (ih, i2); (ih, i1) ] ->
     In pc (pieces (fitOrSplit w l sheetW sheetL kerf canSplit)) ->
     P (pieceEntry name qty category matName pc)) ->
  Forall P (fst (platformParts toFixed2 o1 o2 oh i1 i2 ih w1 w2 topLayers
                   botLayers p1 p2 sheetW sheetL kerf canSplit matName)).
Proof.
  intros Hent. unfold platformParts, splitAndPush.
  repeat match goal with
  | |- Forall P (fst (if (0 <? ?q)%Z then _ else _)) =>
      destruct (Z.ltb_spec 0 q)
  | |- Forall P (fst (pushSplitResult _ _ _ _ _ _ (fitOrSplit _ _ _ _ _ _)
                        _ _ _)) =>
      apply pushSplitResult_Forall;
      [|intros pc Hpc; eapply Hent; [lia| |exact Hpc];
        cbn [In]; auto 10]
  end; constructor.
Qed.

(** X26.  When [calcPlatform] returns a result for positive overall
    dimensions, the interior dimensions it reports are positive, and every
    entry of its cut list has a positive quantity, positive width and
    length, and the material of the call. *)
Theorem calcPlatform_parts_positive (toFixed2 : Q -> string)
    (params : PlatformParams) (mat : Material) (settings : Settings)
    (r : PlatformCalc) :
  0 < pp_o1 params -> 0 < pp_o2 params -> 0 < pp_oh params ->
  calcPlatform toFixed2 params mat settings = inr r ->
  0 < pc_i1 r /\ 0 < pc_i2 r /\ 0 < pc_ih r /\
  Forall (fun p => (0 < cp_qty p)%Z /\ 0 < cp_w p /\ 0 < cp_l p /\
                   cp_material p = mat_name mat)
         (pc_parts r).
Proof.
  intros H1 H2 Hh H. unfold calcPlatform in H.
  destruct (Qeq_bool (pp_o1 params) 0 || Qeq_bool (pp_o2 params) 0
            || Qeq_bool (pp_oh params) 0); [discriminate|].
  match type of H with
  | (if ?c then _ else _) = _ => destruct c eqn:Ei; [discriminate|]
  end.
  apply (f_equal (fun x : string + PlatformCalc =>
                    match x with inl _ => r | inr y => y end)) in H.
  cbv beta iota in H. subst r. cbn [pc_i1 pc_i2 pc_ih pc_parts]. qbool.
  repeat (split; [assumption|]).
  apply platformParts_Forall.
  intros name qty category w l pc Hq Hdims Hpc.
  assert (Hwl : 0 < w /\ 0 < l).
  { cbn [In] in Hdims.
    repeat (destruct Hdims as [Hd|Hdims];
            [injection Hd as <- <-; split; assumption|]).
    destruct Hdims. }
  pose proof (fitOrSplit_pieces_positive w l (mat_w mat) (mat_l mat)
                (orQ (set_kerf settings) (1 # 8))
                (allowsSeams (mat_name mat)) (proj1 Hwl) (proj2 Hwl)) as Hpos.
  rewrite Forall_forall in Hpos. specialize (Hpos pc Hpc).
  unfold pieceEntry. cbn. tauto.
Qed.

Lemma nestCutParts_unplaced_iff (parts : list CutPart) sheetW sheetL kerf :
  Forall (fun p => (0 < cp_qty p)%Z) parts ->
  unplaced (nestCutParts parts sheetW sheetL kerf) = [] <->
  Forall (entryFits sheetW sheetL) parts.
Proof.
  intros Hq. rewrite Forall_forall in Hq. unfold nestCutParts.
  rewrite unplaced_empty_iff, Forall_forall. split.
  - intros H p Hp.
    apply (H (asNestPart p)); [apply in_map, Hp|].
    cbn [asNestPart part_qty]. specialize (Hq p Hp). lia.
  - intros H p Hp _. apply in_map_iff in Hp.
    destruct Hp as (q & <- & Hq'). apply (H q Hq').
Qed.

(** X27.  In a result of [calcPlatform], nothing is unplaced exactly when
    every entry of the cut list passes the raw-fit test for the stock; and
    the warnings end with one line per unplaced rectangle. *)
Theorem calcPlatform_unplaced_iff (toFixed2 : Q -> string)
    (params : PlatformParams) (mat : Material) (settings : Settings)
    (r : PlatformCalc) :
  calcPlatform toFixed2 params mat settings = inr r ->
  (pc_unplaced r = [] <->
   Forall (entryFits (mat_w mat) (mat_l mat)) (pc_parts r)) /\
  (exists before,
     pc_warnings r
       = before ++ map (oversizedWarning toFixed2) (pc_unplaced r)) /\
  pc_totalSheets r = List.length (pc_nestedSheets r).
Proof.
  intros H. unfold calcPlatform in H.
  destruct (Qeq_bool (pp_o1 params) 0 || Qeq_bool (pp_o2 params) 0
            || Qeq_bool (pp_oh params) 0); [discriminate|].
  match type of H with
  | (if ?c then _ else _) = _ => destruct c eqn:Ei; [discriminate|]
  end.
  apply (f_equal (fun x : string + PlatformCalc =>
                    match x with inl _ => r | inr y => y end)) in H.
  cbv beta iota in H. subst r.
  cbn [pc_unplaced pc_parts pc_warnings pc_totalSheets pc_nestedSheets].
  split; [|split; [eexists; reflexivity|reflexivity]].
  apply nestCutParts_unplaced_iff.
  apply platformParts_Forall.
  intros name qty category w l pc Hq _ _. exact Hq.
Qed.

(** *** [calcCase] *)

Lemma nest_multiplied_count (parts : list CutPart) (q : Z)
    (sheetW sheetL kerf : Q) :
  (0 <= q)%Z ->
  (List.length
     (placedRects
        (sheets (nestCutParts (multiplyParts parts q) sheetW sheetL kerf)))
   + List.length
       (unplaced (nestCutParts (multiplyParts parts q) sheetW sheetL kerf)))%nat
    = (Z.to_nat q * list_sum (map (fun p => Z.to_nat (cp_qty p)) parts))%nat.
Proof.
  intros Hq. unfold nestCutParts.
  pose proof (nestParts_perm (map asNestPart (multiplyParts parts q))
                sheetW sheetL kerf) as Hp.
  apply Permutation_length in Hp. rewrite length_app in Hp. rewrite Hp.
  apply expand_multiply_length. exact Hq.
Qed.

Lemma list_sum_app_nat (l1 l2 : list nat) :
  list_sum (l1 ++ l2) = (list_sum l1 + list_sum l2)%nat.
Proof.
  induction l1 as [|x l1 IH]; [reflexivity|].
  unfold list_sum in *. cbn [app fold_right]. rewrite IH. lia.
Qed.

(** X29.  [calcCase] nests every unit: for a non-negative quantity, the
    placements on the MDO, HDPE and Obomodulan sheets together with the
    unplaced rectangles are as many as the quantity (1 when none is given)
    times the quantities of the per-unit cut list it returns. *)
Theorem calcCase_nests_every_unit (toFixed2 : Q -> string)
    (params : CaseParams) (mat : Material) (settings : Settings)
    (r : CaseCalc) :
  (0 <= cq_qty params)%Z ->
  calcCase toFixed2 params mat settings = inr r ->
  (1 <= cc_quantity r)%Z /\
  (List.length (placedRects (mn_sheets (cc_mdo r)))
   + List.length (placedRects (mn_sheets (cc_hdpe r)))
   + List.length (placedRects (mn_sheets (cc_obo r)))
   + List.length (cc_unplaced r))%nat
    = (Z.to_nat (cc_quantity r)
       * list_sum (map (fun p => Z.to_nat (cp_qty p)) (cc_parts r)))%nat.
Proof.
  intros Hq H. unfold calcCase in H.
  destruct (Qeq_bool (cq_o1 params) 0 || Qeq_bool (cq_o2 params) 0
            || Qeq_bool (cq_oh params) 0); [discriminate|].
  apply (f_equal (fun x : string + CaseCalc =>
                    match x with inl _ => r | inr y => y end)) in H.
  cbv beta iota zeta in H. subst r.
  cbn [cc_quantity cc_mdo cc_hdpe cc_obo cc_unplaced cc_parts mn_sheets].
  assert (Hq1 : (1 <= orZ (cq_qty params) 1)%Z).
  { unfold orZ. destruct (Z.eqb_spec (cq_qty params) 0); lia. }
  split; [exact Hq1|].
  rewrite !length_app, !length_map, !map_app, !list_sum_app_nat.
  match goal with
  | |- context [nestCutParts (multiplyParts ?m _) (mat_w mat) _ _] =>
      pose proof (nest_multiplied_count m (orZ (cq_qty params) 1)
                    (mat_w mat) (mat_l mat)
                    (orQ (set_kerf settings) (1#8)) ltac:(lia)) as Hm
  end.
  match goal with
  | |- context [nestCutParts (multiplyParts ?m _) (ss_w SHEET_SIZES_hdpe)
                  _ _] =>
      pose proof (nest_multiplied_count m (orZ (cq_qty params) 1)
                    (ss_w SHEET_SIZES_hdpe) (ss_l SHEET_SIZES_hdpe)
                    (orQ (set_kerf settings) (1#8)) ltac:(lia)) as Hh
  end.
  match goal with
  | |- context [nestCutParts (multiplyParts ?m _) (ss_w SHEET_SIZES_obo)
                  _ _] =>
      pose proof (nest_multiplied_count m (orZ (cq_qty params) 1)
                    (ss_w SHEET_SIZES_obo) (ss_l SHEET_SIZES_obo)
                    (orQ (set_kerf settings) (1#8)) ltac:(lia)) as Ho
  end.
  lia.
Qed.

Lemma multiplyParts_scales_witness :
  let parts := [ mkCutPart "Wall" 2 48 12 "wall" "MDO" None;
                 mkCutPart "Rib" 3 12 40 "rib" "MDO" None ] in
  multiplyParts (multiplyParts parts 2) 3 = multiplyParts parts 6 /\
  List.length (expandParts (map asNestPart (multiplyParts parts 4)))
    = 20%nat.
Proof.
  intros parts.
  destruct (multiplyParts_scales parts 2 3) as (Hc & _ & _).
  destruct (multiplyParts_scales parts 4 1) as (_ & _ & Hs).
  split; [exact Hc|]. rewrite Hs.
  - reflexivity.
  - discriminate.
Defined.

(** Walls of 96 x 200 on 48 x 96 stock: five entries and one warning. *)
Lemma splitAndPush_entries_witness :
  let st := splitAndPush toFixed2Q "Wall" 2 96 200 48 96 (1#8) true
              "wall" "MDO" ([], []) in
  map cp_name (fst st)
    = [ "Wall [1/5]"; "Wall [2/5]"; "Wall [3/5]"; "Wall [4/5]";
        "Wall [5/5]" ]%string /\
  List.length (snd st) = 1%nat /\
  warning (fitOrSplit 96 200 48 96 (1#8) true) <> None.
Proof.
  intros st.
  destruct (splitAndPush_entries toFixed2Q "Wall" 2 96 200 48 96 (1#8) true
              "wall" "MDO" ([], [])) as (Hp & Hw & Hwarn).
  cbv zeta in Hp, Hw, Hwarn. fold st in Hp, Hw.
  split; [rewrite Hp; reflexivity|]. split; [rewrite Hw; reflexivity|].
  apply Hwarn. reflexivity.
Defined.

(** A 20 x 30 panel of MDO. *)
Lemma calcSheet_fits_witness :
  exists (r : SheetCalc) (sh : Sheet) (rotated : bool),
    calcSheet toFixed2Q (mkSheetParams 1 20 30 None) mdo4x8 (1#8) = inr r /\
    sc_warnings r = [] /\ sc_nestedSheets r = [sh] /\
    sc_unplaced r = [] /\ sc_totalSheets r = 1%nat.
Proof.
  assert (Hw : ~ 20 == 0) by discriminate.
  assert (Hl : ~ 30 == 0) by discriminate.
  destruct (calcSheet_fits toFixed2Q (mkSheetParams 1 20 30 None) mdo4x8
              (1#8) Hw Hl eq_refl)
    as (r & sh & rotated & H & _ & H1 & H2 & _ & H3 & H4).
  exists r, sh, rotated. auto.
Defined.

(** A 96 x 200 panel of MDO: five strips, all placed. *)
Lemma calcSheet_places_or_warns_witness :
  exists r,
    calcSheet toFixed2Q (mkSheetParams 1 96 200 None) mdo4x8 (1#8) = inr r /\
    sc_unplaced r = [] /\
    List.length (placedRects (sc_nestedSheets r)) = 5%nat.
Proof.
  eexists. split; [vm_compute; reflexivity|].
  eapply (calcSheet_places_or_warns toFixed2Q (mkSheetParams 1 96 200 None)
            mdo4x8 (1#8)).
  - vm_compute. reflexivity.
  - reflexivity.
Defined.

(** A 48 x 36 x 12 platform of MDO with one wall per side and one top
    layer. *)
Lemma calcPlatform_parts_positive_witness :
  exists r,
    calcPlatform toFixed2Q platform48x36 mdo4x8 shopSettings = inr r /\
    0 < pc_i1 r /\ 0 < pc_i2 r /\ 0 < pc_ih r /\
    Forall (fun p => (0 < cp_qty p)%Z /\ 0 < cp_w p /\ 0 < cp_l p /\
                     cp_material p = "MDO"%string)
           (pc_parts r).
Proof.
  eexists. split; [vm_compute; reflexivity|].
  apply (calcPlatform_parts_positive toFixed2Q platform48x36 mdo4x8
           shopSettings); reflexivity.
Defined.

Lemma calcPlatform_unplaced_iff_witness :
  exists r,
    calcPlatform toFixed2Q platform48x36 mdo4x8 shopSettings = inr r /\
    (pc_unplaced r = [] <-> Forall (entryFits 48 96) (pc_parts r)) /\
    pc_totalSheets r = List.length (pc_nestedSheets r).
Proof.
  destruct (calcPlatform toFixed2Q platform48x36 mdo4x8 shopSettings)
    as [e|r] eqn:E; [vm_compute in E; discriminate|].
  exists r. split; [reflexivity|].
  destruct (calcPlatform_unplaced_iff toFixed2Q platform48x36 mdo4x8
              shopSettings r E) as (Hiff & _ & Hlen).
  split; assumption.
Defined.

(** Two cases of 30 x 24 x 20 with a chamber: 2 x 13 rectangles in
    all. *)
Lemma calcCase_nests_every_unit_witness :
  exists r,
    calcCase toFixed2Q case30x24 mdo4x8 shopSettings = inr r /\
    cc_quantity r = 2%Z /\
    (List.length (placedRects (mn_sheets (cc_mdo r)))
     + List.length (placedRects (mn_sheets (cc_hdpe r)))
     + List.length (placedRects (mn_sheets (cc_obo r)))
     + List.length (cc_unplaced r))%nat
      = (Z.to_nat (cc_quantity r)
         * list_sum (map (fun p => Z.to_nat (cp_qty p)) (cc_parts r)))%nat.
Proof.
  destruct (calcCase toFixed2Q case30x24 mdo4x8 shopSettings)
    as [e|r] eqn:E; [vm_compute in E; discriminate|].
  exists r. split; [reflexivity|].
  destruct (calcCase_nests_every_unit toFixed2Q case30x24 mdo4x8
              shopSettings r ltac:(discriminate) E) as (_ & Hcount).
  split; [|exact Hcount].
  apply (f_equal (fun x : string + CaseCalc =>
                    match x with inl _ => 0%Z | inr y => cc_quantity y end))
    in E.
  vm_compute in E. symmetry. exact E.
Defined.

End CalcFacts.
